(** * PANOC inner solver: a shallow embedding of [panoc.cpp]

    The development follows [src/src/src/panoc.cpp]: the helper kernels of
    namespace [detail] first, then [PANOCSolver::operator()] cut into the
    stages of its main loop.  The scalar type [real_t] comes from a header that
    is not part of the sources, so it is an interface ([RealT]); IEEE binary64
    is one instance of it and exact rational arithmetic another. *)

From Stdlib Require Import List ZArith Bool Lia Floats Reals Lra QArith Qabs Qreals.
Import ListNotations.

Set Implicit Arguments.
Set Warnings "-notation-for-abbreviation".

(** ** The scalar type *)

(** [real_t] with the operations [panoc.cpp] applies to it.  Comparisons are
    boolean, as in C++: [a > b] is [ltb b a] and [a >= b] is [leb b a]. *)
Class RealT : Type := {
  real_t : Type;
  r_zero : real_t;                       (* literal 0 *)
  r_one : real_t;                        (* literal 1 *)
  r_two : real_t;                        (* literal 2 *)
  r_half : real_t;                       (* literal 0.5 *)
  r_epsilon : real_t;                    (* std::numeric_limits<real_t>::epsilon() *)
  r_add : real_t -> real_t -> real_t;
  r_sub : real_t -> real_t -> real_t;
  r_mul : real_t -> real_t -> real_t;
  r_div : real_t -> real_t -> real_t;
  r_neg : real_t -> real_t;
  r_abs : real_t -> real_t;
  r_sqrt : real_t -> real_t;
  r_fmax : real_t -> real_t -> real_t;   (* std::fmax *)
  r_fmin : real_t -> real_t -> real_t;   (* std::fmin *)
  r_ltb : real_t -> real_t -> bool;      (* operator< *)
  r_leb : real_t -> real_t -> bool;      (* operator<= *)
  r_isfinite : real_t -> bool;           (* std::isfinite *)
  r_isnan : real_t -> bool               (* x != x *)
}.

Declare Scope rt_scope.
Delimit Scope rt_scope with rt.
Infix "+" := r_add : rt_scope.
Infix "-" := r_sub : rt_scope.
Infix "*" := r_mul : rt_scope.
Infix "/" := r_div : rt_scope.
Notation "- x" := (r_neg x) : rt_scope.
Infix "<?" := r_ltb : rt_scope.
Infix "<=?" := r_leb : rt_scope.

(** Termination classification, [solverstatus.hpp]. *)
Inductive SolverStatus : Type :=
  | Converged
  | MaxIter
  | MaxTime
  | NotFinite
  | Interrupted.

Section Kernels.
Context {RT : RealT}.
Local Open Scope rt_scope.

(** ** Dense vectors ([vec], an Eigen column vector) *)

Definition vec : Type := list real_t.

(** Coefficient-wise binary operation; Eigen asserts that the sizes agree,
    here the longer vector is cut. *)
Fixpoint binaryExpr (op : real_t -> real_t -> real_t) (a b : vec) : vec :=
  match a, b with
  | ai :: a', bi :: b' => op ai bi :: binaryExpr op a' b'
  | _, _ => []
  end.

Definition vadd : vec -> vec -> vec := binaryExpr r_add.
Definition vsub : vec -> vec -> vec := binaryExpr r_sub.
Definition vdiv : vec -> vec -> vec := binaryExpr r_div.
Definition scale (c : real_t) (v : vec) : vec := map (fun vi => c * vi) v.
Definition scale_r (v : vec) (c : real_t) : vec := map (fun vi => vi * c) v.
Definition cwiseAbs (v : vec) : vec := map r_abs v.

(** Eigen's scalar maximum, [(a < b) ? b : a]. *)
Definition maxi (a b : real_t) : real_t := if a <? b then b else a.
Definition cwiseMax (v : vec) (c : real_t) : vec := map (fun vi => maxi vi c) v.

Definition dot (a b : vec) : real_t :=
  fold_left r_add (binaryExpr r_mul a b) r_zero.
Definition squaredNorm (v : vec) : real_t := dot v v.
Definition norm (v : vec) : real_t := r_sqrt (squaredNorm v).
Definition hasNaN (v : vec) : bool := existsb r_isnan v.

(** Modelled from the spec: [vec_util::norm_inf] of [vec.hpp], the infinity
    norm of section 4.2, as the largest absolute coefficient; the scan starts
    from the first coefficient and keeps the larger one. *)
Definition norm_inf (v : vec) : real_t :=
  match v with
  | [] => r_zero
  | v0 :: v' => fold_left (fun res vi => maxi res (r_abs vi)) v' (r_abs v0)
  end.

(** ** Boxes and projections ([box.hpp]) *)

Record Box : Type := { lowerbound : vec; upperbound : vec }.

(** Modelled from the spec: [project] of [box.hpp], "box projection via
    componentwise clamp" (section 4.2). *)
Definition project (v : vec) (box : Box) : vec :=
  binaryExpr r_fmin (binaryExpr r_fmax v (lowerbound box)) (upperbound box).

(** Modelled from the spec: [projecting_difference] of [box.hpp],
    [v - project v D] (section 4.2). *)
Definition projecting_difference (v : vec) (box : Box) : vec :=
  vsub v (project v box).

(** ** The problem oracle ([Problem]) *)

Record Problem : Type := {
  p_n : nat;
  p_m : nat;
  p_C : Box;
  p_D : Box;
  p_f : vec -> real_t;
  p_grad_f : vec -> vec;
  p_g : vec -> vec;
  p_grad_g : vec -> vec -> vec
}.

(** ** namespace detail *)

(** Lines 41-44: the loop [for (unsigned i = 0; i < p.m; ++i)], [m] passes
    from the coefficients [ŷ] and [Σ] on.  A pass adds [ŷ(i) * Σ(i) * ŷ(i)] to
    [dᵀŷ] and overwrites [ŷ(i)] with [Σ(i) * ŷ(i)]; the coefficients from
    [p.m] on are not touched.  The source indexes out of range when [p.m]
    exceeds the size of [ŷ] or of [Σ]; here the loop ends there. *)
Fixpoint weigh (m : nat) (ŷ Σ : vec) (dᵀŷ : real_t) : real_t * vec :=
  match m, ŷ, Σ with
  | S m', ŷi :: ŷ', Σi :: Σ' =>
      let '(dᵀŷ', w) := weigh m' ŷ' Σ' (dᵀŷ + ŷi * Σi * ŷi) in
      (dᵀŷ', Σi * ŷi :: w)
  | _, _, _ => (dᵀŷ, ŷ)
  end.

(** Lines 27-49. *)
Definition calc_ψ_ŷ (p : Problem) (x y Σ : vec) : real_t * vec :=
  let gx := p_g p x in
  let ζ := vadd gx (vdiv y Σ) in
  let d := projecting_difference ζ (p_D p) in
  let '(dᵀŷ, ŷ) := weigh (p_m p) d Σ r_zero in
  (p_f p x + r_half * dᵀŷ, ŷ).

(** Lines 52-62. *)
Definition calc_grad_ψ_from_ŷ (p : Problem) (x ŷ : vec) : vec :=
  vadd (p_grad_f p x) (p_grad_g p x ŷ).

(** Lines 68-81. *)
Definition calc_ψ_grad_ψ (p : Problem) (x y Σ : vec) : real_t * vec :=
  let '(ψ, work_m) := calc_ψ_ŷ p x y Σ in
  (ψ, calc_grad_ψ_from_ŷ p x work_m).

(** Lines 85-106. *)
Definition calc_grad_ψ (p : Problem) (x y Σ : vec) : vec :=
  let ζ := vadd (p_g p x) (vdiv y Σ) in
  let d := projecting_difference ζ (p_D p) in
  let work_m := binaryExpr r_mul Σ d in
  vadd (p_grad_f p x) (p_grad_g p x work_m).

(** Lines 110-125: returns [(ẑ, err_z)]. *)
Definition calc_ẑ (p : Problem) (x_hat y Σ : vec) : vec * vec :=
  let gx := p_g p x_hat in
  let ζ := vadd gx (vdiv y Σ) in
  let ẑ := project ζ (p_D p) in
  (ẑ, vsub gx ẑ).

(** Lines 137-159 (the source writes the name with a circumflex on
    its last letter), the branch that is compiled ([if (0)] discards the naive
    one): returns [(x_hat, p)] and the progress flag. *)
Definition calc_x_hat (prob : Problem) (γ : real_t) (x grad_ψ : vec)
  : vec * vec * bool :=
  let p := binaryExpr r_fmin
             (binaryExpr r_fmax (scale (- γ) grad_ψ)
                (vsub (lowerbound (p_C prob)) x))
             (vsub (upperbound (p_C prob)) x) in
  let x_hat := vadd x p in
  let norm_quot := r_sqrt (squaredNorm p / squaredNorm x) in
  (x_hat, p, r_epsilon <? norm_quot).

(** The naive form the source keeps under [if (0)], for comparison. *)
Definition calc_x_hat_naive (prob : Problem) (γ : real_t) (x grad_ψ : vec)
  : vec * vec :=
  let x_hat := project (vsub x (scale γ grad_ψ)) (p_C prob) in
  (x_hat, vsub x_hat x).

(** The step with the minimum inside the maximum,
    [max (xₗ − x) (min (−γ ∇ψ) (xᵤ − x))], the order in which the specification
    writes the fused form; the source takes the maximum first. *)
Definition fused_step_listed (prob : Problem) (γ : real_t) (x grad_ψ : vec)
  : vec :=
  binaryExpr r_fmax (vsub (lowerbound (p_C prob)) x)
    (binaryExpr r_fmin (scale (- γ) grad_ψ) (vsub (upperbound (p_C prob)) x)).

(** Lines 163-170. *)
Definition calc_error_stop_crit (pₖ : vec) (γ : real_t) (grad_hat_ψₖ grad_ψₖ : vec)
  : real_t :=
  let err := vadd (scale (r_one / γ) pₖ) (vsub grad_hat_ψₖ grad_ψₖ) in
  norm_inf err.

End Kernels.

(** ** Solver parameters, statistics and collaborators ([panoc.hpp], [lbfgs.hpp]) *)

Section Solver.
Context {RT : RealT}.
Local Open Scope rt_scope.

(** [PANOCParams]; [max_time] is in ticks of the clock, and [print_interval]
    only drives progress output, which is not modelled. *)
Record PANOCParams : Type := {
  Lipschitz_ε : real_t;
  Lipschitz_δ : real_t;
  Lipschitz_Lγ_factor : real_t;
  lbfgs_mem : nat;
  specialized_lbfgs : bool;
  update_lipschitz_in_linesearch : bool;
  max_iter : nat;
  max_time : Z;
  τ_min : real_t;
  print_interval : nat
}.

(** [PANOCSolver::Stats]; the field the source calls [ε] is [final_ε]. *)
Record Stats : Type := {
  iterations : nat;
  final_ε : real_t;
  elapsed_time : Z;
  status : SolverStatus;
  linesearch_failures : nat;
  lbfgs_failures : nat;
  lbfgs_rejected : nat
}.

Definition set_exit (s : Stats) (k : nat) (εₖ : real_t) (t : Z)
  (st : SolverStatus) : Stats :=
  {| iterations := k; final_ε := εₖ; elapsed_time := t; status := st;
     linesearch_failures := linesearch_failures s;
     lbfgs_failures := lbfgs_failures s;
     lbfgs_rejected := lbfgs_rejected s |}.

Definition set_status (s : Stats) (st : SolverStatus) : Stats :=
  set_exit s (iterations s) (final_ε s) (elapsed_time s) st.

Definition incr_lbfgs_failures (s : Stats) : Stats :=
  {| iterations := iterations s; final_ε := final_ε s;
     elapsed_time := elapsed_time s; status := status s;
     linesearch_failures := linesearch_failures s;
     lbfgs_failures := S (lbfgs_failures s);
     lbfgs_rejected := lbfgs_rejected s |}.

Definition incr_linesearch_failures (s : Stats) : Stats :=
  {| iterations := iterations s; final_ε := final_ε s;
     elapsed_time := elapsed_time s; status := status s;
     linesearch_failures := S (linesearch_failures s);
     lbfgs_failures := lbfgs_failures s;
     lbfgs_rejected := lbfgs_rejected s |}.

(** [s.lbfgs_rejected += !update(...)]. *)
Definition add_lbfgs_rejected (s : Stats) (accepted : bool) : Stats :=
  {| iterations := iterations s; final_ε := final_ε s;
     elapsed_time := elapsed_time s; status := status s;
     linesearch_failures := linesearch_failures s;
     lbfgs_failures := lbfgs_failures s;
     lbfgs_rejected := (lbfgs_rejected s + (if accepted then 0 else 1))%nat |}.

(** The two L-BFGS classes of [lbfgs.hpp], by their methods. *)
Record LBFGS_class : Type := {
  lbfgs_t : Type;
  lbfgs_default : lbfgs_t;
  lbfgs_resize : lbfgs_t -> nat -> nat -> lbfgs_t;
  lbfgs_reset : lbfgs_t -> lbfgs_t;
  lbfgs_apply : lbfgs_t -> vec -> lbfgs_t * vec;
  lbfgs_update : lbfgs_t -> vec -> vec -> lbfgs_t * bool
}.

Record SpecializedLBFGS_class : Type := {
  slbfgs_t : Type;
  slbfgs_default : slbfgs_t;
  slbfgs_resize : slbfgs_t -> nat -> nat -> slbfgs_t;
  slbfgs_initialize : slbfgs_t -> vec -> vec -> vec -> real_t -> slbfgs_t;
  slbfgs_reset : slbfgs_t -> slbfgs_t;
  slbfgs_apply : slbfgs_t -> vec -> slbfgs_t * vec;
  slbfgs_update : slbfgs_t -> vec -> vec -> vec -> Box -> real_t -> slbfgs_t * bool
}.

(** What the solver reads from outside: the monotonic clock (reading number
    [i], in clock ticks, with the conversion of a tick count to microseconds),
    the atomic stop flag (the value seen by load number
    [i]), the contents of a vector allocated without initialisation, and the
    default-constructed [Stats]. *)
Record Environment : Type := {
  steady_clock_now : nat -> Z;
  duration_cast_microseconds : Z -> Z;
  stop_signal_load : nat -> bool;
  uninitialized : nat -> vec;
  default_Stats : Stats
}.

Variable LB : LBFGS_class.
Variable SLB : SpecializedLBFGS_class.
Variable params : PANOCParams.
Variable env : Environment.
Variable problem : Problem.
Variable Σ : vec.
Variable ε : real_t.

(** ** The state of [PANOCSolver::operator()] *)

(** The per-iterate locals; the source keeps one copy with suffix [ₖ] and a
    shadow copy with suffix [ₖ₊₁]. *)
Record iterate : Type := {
  it_x : vec;            (* xₖ *)
  it_x_hat : vec;        (* x̂ₖ *)
  it_ŷ_x_hat : vec;      (* ŷx̂ₖ *)
  it_p : vec;            (* pₖ *)
  it_grad_ψ : vec;       (* grad_ψₖ *)
  it_ψ : real_t;         (* ψₖ *)
  it_ψ_hat_x : real_t;   (* ψ̂xₖ *)
  it_φ : real_t;         (* φₖ *)
  it_L : real_t;         (* Lₖ *)
  it_σ : real_t;         (* σₖ *)
  it_γ : real_t;         (* γₖ *)
  it_grad_ψᵀp : real_t;  (* grad_ψₖᵀpₖ *)
  it_norm_sq_p : real_t  (* norm_sq_pₖ *)
}.

(** The caller's references [x], [z], [y], [err_z]. *)
Record Outputs : Type := {
  out_x : vec;
  out_z : vec;
  out_y : vec;
  out_err_z : vec
}.

Record State : Type := {
  start_time : Z;
  cur : iterate;              (* the [ₖ] locals *)
  nxt : iterate;              (* the [ₖ₊₁] locals *)
  qₖ : vec;
  grad_hat_ψₖ : vec;
  lbfgs : lbfgs_t LB;
  slbfgs : slbfgs_t SLB;
  s : Stats;
  caller : Outputs;
  clock_reads : nat;          (* calls of steady_clock::now() so far *)
  stop_loads : nat            (* loads of the stop flag so far *)
}.

(** What a call of the solver comes to: it returns its [Stats] with the
    caller's vectors as it leaves them, it reaches the [throw] after the main
    loop, or one of its inner loops outlives the fuel given to the model. *)
Inductive Outcome : Type :=
  | Returned (r : State)
  | LogicError
  | OutOfFuel.

(** ** Quadratic upper bound loops (lines 257-276 and 432-450) *)

(** The loop test, [ψ̂x > ψ + margin + grad_ψᵀp + 0.5 * L * norm_sq_p] with
    [margin = 0]. *)
Definition qub_violated (it : iterate) : bool :=
  (it_ψ it + r_zero + it_grad_ψᵀp it + r_half * it_L it * it_norm_sq_p it)
  <? it_ψ_hat_x it.

(** One pass of the loop body on the scalars and vectors of an iterate. *)
Definition qub_pass (y : vec) (it : iterate) : iterate :=
  let L := it_L it * r_two in
  let σ := it_σ it / r_two in
  let γ := it_γ it / r_two in
  let '(x_hat, p, _) := calc_x_hat problem γ (it_x it) (it_grad_ψ it) in
  let grad_ψᵀp := dot (it_grad_ψ it) p in
  let norm_sq_p := squaredNorm p in
  let '(ψ_hat_x, ŷ_x_hat) := calc_ψ_ŷ problem x_hat y Σ in
  {| it_x := it_x it; it_x_hat := x_hat; it_ŷ_x_hat := ŷ_x_hat; it_p := p;
     it_grad_ψ := it_grad_ψ it; it_ψ := it_ψ it; it_ψ_hat_x := ψ_hat_x;
     it_φ := it_φ it; it_L := L; it_σ := σ; it_γ := γ;
     it_grad_ψᵀp := grad_ψᵀp; it_norm_sq_p := norm_sq_p |}.

(** The [while] loop; [flush] is the guard of [lbfgs.reset()] in the body:
    [k > 0 && params.specialized_lbfgs == false] at line 263 and
    [params.specialized_lbfgs == false] at line 438. *)
Fixpoint qub_loop (fuel : nat) (flush : bool) (y : vec)
  (it : iterate) (lb : lbfgs_t LB) : option (iterate * lbfgs_t LB) :=
  if qub_violated it then
    match fuel with
    | O => None
    | S fuel' =>
        qub_loop fuel' flush y (qub_pass y it)
          (if flush then lbfgs_reset LB lb else lb)
    end
  else Some (it, lb).

(** ** Field updates *)

Definition set_x_hat (it : iterate) (v : vec) : iterate :=
  {| it_x := it_x it; it_x_hat := v; it_ŷ_x_hat := it_ŷ_x_hat it;
     it_p := it_p it; it_grad_ψ := it_grad_ψ it; it_ψ := it_ψ it;
     it_ψ_hat_x := it_ψ_hat_x it; it_φ := it_φ it; it_L := it_L it;
     it_σ := it_σ it; it_γ := it_γ it; it_grad_ψᵀp := it_grad_ψᵀp it;
     it_norm_sq_p := it_norm_sq_p it |}.

Definition set_φ (it : iterate) (φ : real_t) : iterate :=
  {| it_x := it_x it; it_x_hat := it_x_hat it; it_ŷ_x_hat := it_ŷ_x_hat it;
     it_p := it_p it; it_grad_ψ := it_grad_ψ it; it_ψ := it_ψ it;
     it_ψ_hat_x := it_ψ_hat_x it; it_φ := φ; it_L := it_L it;
     it_σ := it_σ it; it_γ := it_γ it; it_grad_ψᵀp := it_grad_ψᵀp it;
     it_norm_sq_p := it_norm_sq_p it |}.

Definition set_iterates (st : State) (c n : iterate) : State :=
  {| start_time := start_time st; cur := c; nxt := n; qₖ := qₖ st;
     grad_hat_ψₖ := grad_hat_ψₖ st; lbfgs := lbfgs st; slbfgs := slbfgs st;
     s := s st; caller := caller st; clock_reads := clock_reads st;
     stop_loads := stop_loads st |}.

Definition set_qₖ (st : State) (q : vec) : State :=
  {| start_time := start_time st; cur := cur st; nxt := nxt st; qₖ := q;
     grad_hat_ψₖ := grad_hat_ψₖ st; lbfgs := lbfgs st; slbfgs := slbfgs st;
     s := s st; caller := caller st; clock_reads := clock_reads st;
     stop_loads := stop_loads st |}.

Definition set_grad_hat_ψₖ (st : State) (v : vec) : State :=
  {| start_time := start_time st; cur := cur st; nxt := nxt st; qₖ := qₖ st;
     grad_hat_ψₖ := v; lbfgs := lbfgs st; slbfgs := slbfgs st;
     s := s st; caller := caller st; clock_reads := clock_reads st;
     stop_loads := stop_loads st |}.

Definition set_lbfgs (st : State) (lb : lbfgs_t LB) : State :=
  {| start_time := start_time st; cur := cur st; nxt := nxt st; qₖ := qₖ st;
     grad_hat_ψₖ := grad_hat_ψₖ st; lbfgs := lb; slbfgs := slbfgs st;
     s := s st; caller := caller st; clock_reads := clock_reads st;
     stop_loads := stop_loads st |}.

Definition set_slbfgs (st : State) (sl : slbfgs_t SLB) : State :=
  {| start_time := start_time st; cur := cur st; nxt := nxt st; qₖ := qₖ st;
     grad_hat_ψₖ := grad_hat_ψₖ st; lbfgs := lbfgs st; slbfgs := sl;
     s := s st; caller := caller st; clock_reads := clock_reads st;
     stop_loads := stop_loads st |}.

Definition set_s (st : State) (s' : Stats) : State :=
  {| start_time := start_time st; cur := cur st; nxt := nxt st; qₖ := qₖ st;
     grad_hat_ψₖ := grad_hat_ψₖ st; lbfgs := lbfgs st; slbfgs := slbfgs st;
     s := s'; caller := caller st; clock_reads := clock_reads st;
     stop_loads := stop_loads st |}.

Definition set_caller (st : State) (o : Outputs) : State :=
  {| start_time := start_time st; cur := cur st; nxt := nxt st; qₖ := qₖ st;
     grad_hat_ψₖ := grad_hat_ψₖ st; lbfgs := lbfgs st; slbfgs := slbfgs st;
     s := s st; caller := o; clock_reads := clock_reads st;
     stop_loads := stop_loads st |}.

Definition tick_clock (st : State) : State :=
  {| start_time := start_time st; cur := cur st; nxt := nxt st; qₖ := qₖ st;
     grad_hat_ψₖ := grad_hat_ψₖ st; lbfgs := lbfgs st; slbfgs := slbfgs st;
     s := s st; caller := caller st; clock_reads := S (clock_reads st);
     stop_loads := stop_loads st |}.

Definition tick_stop (st : State) : State :=
  {| start_time := start_time st; cur := cur st; nxt := nxt st; qₖ := qₖ st;
     grad_hat_ψₖ := grad_hat_ψₖ st; lbfgs := lbfgs st; slbfgs := slbfgs st;
     s := s st; caller := caller st; clock_reads := clock_reads st;
     stop_loads := S (stop_loads st) |}.

(** Where control goes after a stage that may [return]. *)
Inductive Flow : Type :=
  | Exit (r : State)
  | Continue (st : State).

(** ** Lipschitz bootstrap and first projected step (lines 183-251) *)

(** Line 214. *)
Definition perturbation (x : vec) : vec :=
  cwiseMax (cwiseAbs (scale_r x (Lipschitz_ε params))) (Lipschitz_δ params).

(** Line 227, from the caller's [x] and [y]: [x] has been advanced to
    [x + h] in place at line 215, [xₖ] still holds the initial point. *)
Definition estimate_L (x y : vec) : real_t :=
  let h := perturbation x in
  let grad_ψ_next := calc_grad_ψ problem (vadd x h) y Σ in
  let '(_, grad_ψₖ) := calc_ψ_grad_ψ problem x y Σ in
  norm (vsub grad_ψ_next grad_ψₖ) / norm h.

(** Lines 228-233: [None] is the [return] with status [NotFinite]. *)
Definition clamp_L (L : real_t) : option real_t :=
  if L <? r_epsilon then Some r_epsilon
  else if negb (r_isfinite L) then None
  else Some L.

(** Lines 183-251, up to the [for].  The source leaves some scalars without
    an initial value (the shadow scalars, declared in the loop body, and at
    the early [return] the scalars not yet assigned); they hold [r_zero] here,
    and the source assigns each of them before it reads it. *)
Definition initialize (x z y err_z : vec) : Flow :=
  let start := steady_clock_now env 0 in
  let n := length x in
  let m := length z in
  let lb := if specialized_lbfgs params then lbfgs_default LB
            else lbfgs_resize LB (lbfgs_default LB) n (lbfgs_mem params) in
  let sl := if specialized_lbfgs params
            then slbfgs_resize SLB (slbfgs_default SLB) n (lbfgs_mem params)
            else slbfgs_default SLB in
  let xₖ := x in
  let h := perturbation x in
  let x' := vadd x h in
  let grad_ψ_next := calc_grad_ψ problem x' y Σ in
  let '(ψₖ, grad_ψₖ) := calc_ψ_grad_ψ problem xₖ y Σ in
  let L := norm (vsub grad_ψ_next grad_ψₖ) / norm h in
  let shadow :=
    {| it_x := uninitialized env n; it_x_hat := uninitialized env n;
       it_ŷ_x_hat := uninitialized env m; it_p := uninitialized env n;
       it_grad_ψ := grad_ψ_next; it_ψ := r_zero; it_ψ_hat_x := r_zero;
       it_φ := r_zero; it_L := r_zero; it_σ := r_zero; it_γ := r_zero;
       it_grad_ψᵀp := r_zero; it_norm_sq_p := r_zero |} in
  let entry (c : iterate) (st : Stats) :=
    {| start_time := start; cur := c; nxt := shadow;
       qₖ := uninitialized env n; grad_hat_ψₖ := uninitialized env n;
       lbfgs := lb; slbfgs := sl; s := st;
       caller := {| out_x := x'; out_z := z; out_y := y; out_err_z := err_z |};
       clock_reads := 1; stop_loads := 0 |} in
  match clamp_L L with
  | None =>
      Exit (entry
              {| it_x := xₖ; it_x_hat := uninitialized env n;
                 it_ŷ_x_hat := uninitialized env m; it_p := uninitialized env n;
                 it_grad_ψ := grad_ψₖ; it_ψ := ψₖ; it_ψ_hat_x := r_zero;
                 it_φ := r_zero; it_L := L; it_σ := r_zero; it_γ := r_zero;
                 it_grad_ψᵀp := r_zero; it_norm_sq_p := r_zero |}
              (set_status (default_Stats env) NotFinite))
  | Some Lₖ =>
      let γₖ := Lipschitz_Lγ_factor params / Lₖ in
      let σₖ := γₖ * (r_one - γₖ * Lₖ) / r_two in
      let '(x_hatₖ, pₖ, _) := calc_x_hat problem γₖ xₖ grad_ψₖ in
      let '(ψ_hat_xₖ, ŷ_x_hatₖ) := calc_ψ_ŷ problem x_hatₖ y Σ in
      let grad_ψₖᵀpₖ := dot grad_ψₖ pₖ in
      let norm_sq_pₖ := squaredNorm pₖ in
      let φₖ := ψₖ + r_one / (r_two * γₖ) * norm_sq_pₖ + grad_ψₖᵀpₖ in
      Continue (entry
                  {| it_x := xₖ; it_x_hat := x_hatₖ; it_ŷ_x_hat := ŷ_x_hatₖ;
                     it_p := pₖ; it_grad_ψ := grad_ψₖ; it_ψ := ψₖ;
                     it_ψ_hat_x := ψ_hat_xₖ; it_φ := φₖ; it_L := Lₖ;
                     it_σ := σₖ; it_γ := γₖ; it_grad_ψᵀp := grad_ψₖᵀpₖ;
                     it_norm_sq_p := norm_sq_pₖ |}
                  (default_Stats env))
  end.

(** ** The main loop, one stage at a time *)

(** Lines 256-277: the upper bound fit at the current iterate. *)
Definition upper_bound_fit (fuel k : nat) (st : State) : option State :=
  if (k =? 0)%nat || negb (update_lipschitz_in_linesearch params) then
    match qub_loop fuel ((0 <? k)%nat && negb (specialized_lbfgs params))
            (out_y (caller st)) (cur st) (lbfgs st) with
    | Some (it, lb) => Some (set_lbfgs (set_iterates st it (nxt st)) lb)
    | None => None
    end
  else Some st.

(** Lines 280-281. *)
Definition initialize_slbfgs (k : nat) (st : State) : State :=
  if specialized_lbfgs params && (k =? 0)%nat then
    set_slbfgs st
      (slbfgs_initialize SLB (slbfgs st) (it_x (cur st)) (it_grad_ψ (cur st))
         (it_x_hat (cur st)) (it_γ (cur st)))
  else st.

(** Lines 284-289: the gradient at the projected point and the residual. *)
Definition stop_crit (st : State) : State * real_t :=
  let c := cur st in
  let g := calc_grad_ψ_from_ŷ problem (it_x_hat c) (it_ŷ_x_hat c) in
  (set_grad_hat_ψₖ st g, calc_error_stop_crit (it_p c) (it_γ c) g (it_grad_ψ c)).

(** Lines 337-339 and 370-372: [calc_ẑ] into [z], [err_z], then the moves
    into [x] and [y]. *)
Definition write_outputs (st : State) : State :=
  let c := cur st in
  let '(ẑ, e) := calc_ẑ problem (it_x_hat c) (out_y (caller st)) Σ in
  set_caller st
    {| out_x := it_x_hat c; out_z := ẑ; out_y := it_ŷ_x_hat c; out_err_z := e |}.

(** Lines 301-379: the three-way [if] on the residual, the budget and the
    stop flag.  The flag is loaded only when the first two tests fail. *)
Definition check_stop (k : nat) (εₖ : real_t) (st : State) : Flow :=
  let time_elapsed := (steady_clock_now env (clock_reads st) - start_time st)%Z in
  let st := tick_clock st in
  let out_of_time := (max_time params <? time_elapsed)%Z in
  let elapsed := duration_cast_microseconds env time_elapsed in
  if (εₖ <=? ε) || (k =? max_iter params)%nat || out_of_time then
    let st := write_outputs st in
    Exit (set_s st (set_exit (s st) k εₖ elapsed
                      (if εₖ <=? ε then Converged
                       else if out_of_time then MaxTime else MaxIter)))
  else if negb (r_isfinite εₖ) then
    Exit (set_s st (set_exit (s st) k εₖ elapsed NotFinite))
  else
    let flag := stop_signal_load env (stop_loads st) in
    let st := tick_stop st in
    if flag then
      let st := write_outputs st in
      Exit (set_s st (set_exit (s st) k εₖ elapsed Interrupted))
    else Continue st.

(** Lines 382-385. *)
Definition quasi_newton (k : nat) (st : State) : State :=
  if (0 <? k)%nat then
    if specialized_lbfgs params then
      let '(sl, q) := slbfgs_apply SLB (slbfgs st) (it_p (cur st)) in
      set_slbfgs (set_qₖ st q) sl
    else
      let '(lb, q) := lbfgs_apply LB (lbfgs st) (it_p (cur st)) in
      set_lbfgs (set_qₖ st q) lb
  else st.

(** Line 388. *)
Definition σ_norm_γ_inv_p (c : iterate) : real_t :=
  it_σ c * it_norm_sq_p c / (it_γ c * it_γ c).

(** Lines 390-401: the initial [τ], with the reset that goes with a step
    holding a NaN. *)
Definition initial_τ (k : nat) (st : State) : State * real_t :=
  if (k =? 0)%nat then (st, r_zero)
  else if hasNaN (qₖ st) then
    let st := set_s st (incr_lbfgs_failures (s st)) in
    (if specialized_lbfgs params
     then set_slbfgs st (slbfgs_reset SLB (slbfgs st))
     else set_lbfgs st (lbfgs_reset LB (lbfgs st)),
     r_zero)
  else (st, r_one).

(** ** Line search (lines 404-459) *)

(** The candidate [xₖ₊₁] of lines 410-413: the swap with [x̂ₖ] when the line
    search has failed, the quasi-Newton combination otherwise.  Returns the
    new contents of [xₖ₊₁] and of [x̂ₖ]. *)
Definition candidate (st : State) (τ : real_t) : vec * vec :=
  let c := cur st in
  if τ / r_two <? τ_min params
  then (it_x_hat c, it_x (nxt st))
  else (vadd (vadd (it_x c) (scale (r_one - τ) (it_p c))) (scale τ (qₖ st)),
        it_x_hat c).

(** Lines 405-429: the shadow iterate at the candidate, before any shrink. *)
Definition evaluate_candidate (y : vec) (c : iterate) (old : iterate)
  (x_next : vec) : iterate :=
  let '(ψ_next, grad_ψ_next) := calc_ψ_grad_ψ problem x_next y Σ in
  let '(x_hat_next, p_next, _) :=
    calc_x_hat problem (it_γ c) x_next grad_ψ_next in
  let '(ψ_hat_x_next, ŷ_x_hat_next) := calc_ψ_ŷ problem x_hat_next y Σ in
  {| it_x := x_next; it_x_hat := x_hat_next; it_ŷ_x_hat := ŷ_x_hat_next;
     it_p := p_next; it_grad_ψ := grad_ψ_next; it_ψ := ψ_next;
     it_ψ_hat_x := ψ_hat_x_next; it_φ := it_φ old; it_L := it_L c;
     it_σ := it_σ c; it_γ := it_γ c;
     it_grad_ψᵀp := dot grad_ψ_next p_next;
     it_norm_sq_p := squaredNorm p_next |}.

(** Line 454 (and line 251). *)
Definition fbe (it : iterate) : real_t :=
  it_ψ it + r_one / (r_two * it_γ it) * it_norm_sq_p it + it_grad_ψᵀp it.

(** One pass of the [do ... while] body: the state, the halved [τ] and
    [ls_cond]. *)
Definition ls_pass (fuel : nat) (st : State) (τ : real_t)
  : option (State * real_t * real_t) :=
  let y := out_y (caller st) in
  let c := cur st in
  let '(x_next, x_hatₖ) := candidate st τ in
  let n0 := evaluate_candidate y c (nxt st) x_next in
  match (if update_lipschitz_in_linesearch params
         then qub_loop fuel (negb (specialized_lbfgs params)) y n0 (lbfgs st)
         else Some (n0, lbfgs st)) with
  | None => None
  | Some (n1, lb) =>
      let φ_next := fbe n1 in
      let τ' := τ / r_two in
      let ls_cond := φ_next - (it_φ c - σ_norm_γ_inv_p c) in
      Some (set_lbfgs (set_iterates st (set_x_hat c x_hatₖ) (set_φ n1 φ_next)) lb,
            τ', ls_cond)
  end.

(** Line 459, the loop test [ls_cond > 0 && τ >= params.τ_min]. *)
Definition ls_again (ls_cond τ : real_t) : bool :=
  (r_zero <? ls_cond) && (τ_min params <=? τ).

Fixpoint ls_loop (passes fuel : nat) (st : State) (τ : real_t)
  : option (State * real_t * real_t) :=
  match passes with
  | O => None
  | S passes' =>
      match ls_pass fuel st τ with
      | None => None
      | Some (st', τ', ls_cond) =>
          if ls_again ls_cond τ' then ls_loop passes' fuel st' τ'
          else Some (st', τ', ls_cond)
      end
  end.

(** Lines 462-464. *)
Definition count_linesearch_failure (k : nat) (τ : real_t) (st : State) : State :=
  if (τ <? τ_min params) && negb (k =? 0)%nat
  then set_s st (incr_linesearch_failures (s st)) else st.

(** Lines 467-470. *)
Definition update_lbfgs (st : State) : State :=
  let c := cur st in
  let n := nxt st in
  if specialized_lbfgs params then
    let '(sl, ok) := slbfgs_update SLB (slbfgs st) (it_x n) (it_grad_ψ n)
                       (it_x_hat n) (p_C problem) (it_γ n) in
    set_s (set_slbfgs st sl) (add_lbfgs_rejected (s st) ok)
  else
    let '(lb, ok) := lbfgs_update LB (lbfgs st) (vsub (it_x n) (it_x c))
                       (vsub (it_p c) (it_p n)) in
    set_s (set_lbfgs st lb) (add_lbfgs_rejected (s st) ok).

(** Lines 473-487: the scalars are copied and the vectors swapped, so the
    shadow iterate becomes the current one and the shadow slots keep the old
    vectors. *)
Definition advance (st : State) : State :=
  set_iterates st (nxt st) (cur st).

(** Lines 381-487, everything after the stopping test. *)
Definition accept_step (fuel k : nat) (st : State) : option State :=
  let st := quasi_newton k st in
  let '(st, τ) := initial_τ k st in
  match ls_loop fuel fuel st τ with
  | None => None
  | Some (st, τ, _) =>
      Some (advance (update_lbfgs (count_linesearch_failure k τ st)))
  end.

(** The body of the [for] loop. *)
Definition iteration (fuel k : nat) (st : State) : option Flow :=
  match upper_bound_fit fuel k st with
  | None => None
  | Some st =>
      let st := initialize_slbfgs k st in
      let '(st, εₖ) := stop_crit st in
      match check_stop k εₖ st with
      | Exit r => Some (Exit r)
      | Continue st =>
          match accept_step fuel k st with
          | None => None
          | Some st' => Some (Continue st')
          end
      end
  end.

(** [for (unsigned k = 0; k <= params.max_iter; ++k)] followed by the
    [throw]; [remaining] counts the values of [k] still to come. *)
Fixpoint main_loop (fuel remaining k : nat) (st : State) : Outcome :=
  match remaining with
  | O => LogicError
  | S remaining' =>
      match iteration fuel k st with
      | None => OutOfFuel
      | Some (Exit r) => Returned r
      | Some (Continue st') => main_loop fuel remaining' (S k) st'
      end
  end.

(** [PANOCSolver::operator()]; [fuel] bounds the passes of each inner loop. *)
Definition solve (fuel : nat) (x z y err_z : vec) : Outcome :=
  match initialize x z y err_z with
  | Exit r => Returned r
  | Continue st => main_loop fuel (S (max_iter params)) 0 st
  end.

End Solver.

Arguments Returned {RT LB SLB} r.
Arguments LogicError {RT LB SLB}.
Arguments OutOfFuel {RT LB SLB}.
Arguments Exit {RT LB SLB} r.
Arguments Continue {RT LB SLB} st.

(** ** The L-BFGS buffers, from the specification *)

Section LBFGSModel.
Context {RT : RealT}.
Local Open Scope rt_scope.

(** A stored pair [(s, y, ρ)]. *)
Record lbfgs_pair : Type := { pair_s : vec; pair_y : vec; pair_ρ : real_t }.

(** The ring of capacity [capacity], newest pair first. *)
Record lbfgs_buffer : Type := { capacity : nat; pairs : list lbfgs_pair }.

(** First loop of the recursion, newest to oldest: the [α] of each pair (in
    the order of the pairs) and the reduced [q]. *)
Fixpoint two_loop_down (ps : list lbfgs_pair) (q : vec) : list real_t * vec :=
  match ps with
  | [] => ([], q)
  | pr :: ps' =>
      let α := pair_ρ pr * dot (pair_s pr) q in
      let q := vsub q (scale α (pair_y pr)) in
      let '(αs, q) := two_loop_down ps' q in
      (α :: αs, q)
  end.

(** Second loop, oldest to newest. *)
Fixpoint two_loop_up (ps : list lbfgs_pair) (αs : list real_t) (q : vec) : vec :=
  match ps, αs with
  | pr :: ps', α :: αs' =>
      let q := two_loop_up ps' αs' q in
      let β := pair_ρ pr * dot (pair_y pr) q in
      vadd q (scale (α - β) (pair_s pr))
  | _, _ => q
  end.

Definition two_loop (b : lbfgs_buffer) (q : vec) : vec :=
  match pairs b with
  | [] => q
  | newest :: _ =>
      let '(αs, q) := two_loop_down (pairs b) q in
      let q := scale (dot (pair_s newest) (pair_y newest)
                      / dot (pair_y newest) (pair_y newest)) q in
      two_loop_up (pairs b) αs q
  end.

Definition all_finite (v : vec) : bool := forallb r_isfinite v.

(** The curvature test of [update]: [false] rejects the pair. *)
Definition curvature_ok (sv yv : vec) : bool :=
  all_finite sv && all_finite yv
  && negb (dot sv yv <=? r_epsilon * norm yv * norm sv).

Definition push_pair (b : lbfgs_buffer) (sv yv : vec) : lbfgs_buffer :=
  {| capacity := capacity b;
     pairs := firstn (capacity b)
                ({| pair_s := sv; pair_y := yv; pair_ρ := r_one / dot sv yv |}
                 :: pairs b) |}.

(** Modelled from the spec: class [LBFGS] of [lbfgs.hpp], section 4.3
    ([reset], [apply] by the two-loop recursion, [update] with the curvature
    test and eviction of the oldest pair). *)
Definition spec_LBFGS : LBFGS_class :=
  {| lbfgs_t := lbfgs_buffer;
     lbfgs_default := {| capacity := 0; pairs := [] |};
     lbfgs_resize := fun _ _ mem => {| capacity := mem; pairs := [] |};
     lbfgs_reset := fun b => {| capacity := capacity b; pairs := [] |};
     lbfgs_apply := fun b q => (b, two_loop b q);
     lbfgs_update := fun b sv yv =>
       if curvature_ok sv yv then (push_pair b sv yv, true) else (b, false) |}.

(** The specialized buffer also remembers the point and the step of the last
    call, from which it forms [s] and [y]. *)
Record slbfgs_buffer : Type := {
  sl_buffer : lbfgs_buffer;
  sl_x : vec;
  sl_p : vec
}.

(** Modelled from the spec: class [SpecializedLBFGS] of [lbfgs.hpp], section
    4.3: the same buffer, with [s = xₖ₊₁ - xₖ] and [y = pₖ - pₖ₊₁] formed from
    the arguments [(xₖ₊₁, ∇ψ(xₖ₊₁), x̂ₖ₊₁, C, γₖ₊₁)]. *)
Definition spec_SpecializedLBFGS : SpecializedLBFGS_class :=
  {| slbfgs_t := slbfgs_buffer;
     slbfgs_default :=
       {| sl_buffer := {| capacity := 0; pairs := [] |}; sl_x := []; sl_p := [] |};
     slbfgs_resize := fun b _ mem =>
       {| sl_buffer := {| capacity := mem; pairs := [] |};
          sl_x := sl_x b; sl_p := sl_p b |};
     slbfgs_initialize := fun b x _ x_hat _ =>
       {| sl_buffer := sl_buffer b; sl_x := x; sl_p := vsub x_hat x |};
     slbfgs_reset := fun b =>
       {| sl_buffer := {| capacity := capacity (sl_buffer b); pairs := [] |};
          sl_x := sl_x b; sl_p := sl_p b |};
     slbfgs_apply := fun b q => (b, two_loop (sl_buffer b) q);
     slbfgs_update := fun b x _ x_hat _ _ =>
       let sv := vsub x (sl_x b) in
       let p := vsub x_hat x in
       let yv := vsub (sl_p b) p in
       if curvature_ok sv yv
       then ({| sl_buffer := push_pair (sl_buffer b) sv yv; sl_x := x; sl_p := p |},
             true)
       else ({| sl_buffer := sl_buffer b; sl_x := x; sl_p := p |}, false) |}.

End LBFGSModel.

(** ** IEEE binary64 as [real_t] *)

Module Binary64.

Definition fmax (a b : float) : float :=
  if PrimFloat.is_nan a then b
  else if PrimFloat.is_nan b then a
  else if PrimFloat.ltb a b then b else a.

Definition fmin (a b : float) : float :=
  if PrimFloat.is_nan a then b
  else if PrimFloat.is_nan b then a
  else if PrimFloat.ltb b a then b else a.

#[export] Instance double : RealT :=
  {| real_t := float;
     r_zero := 0%float;
     r_one := 1%float;
     r_two := 2%float;
     r_half := 0.5%float;
     r_epsilon := 0x1p-52%float;
     r_add := PrimFloat.add;
     r_sub := PrimFloat.sub;
     r_mul := PrimFloat.mul;
     r_div := PrimFloat.div;
     r_neg := PrimFloat.opp;
     r_abs := PrimFloat.abs;
     r_sqrt := PrimFloat.sqrt;
     r_fmax := fmax;
     r_fmin := fmin;
     r_ltb := PrimFloat.ltb;
     r_leb := PrimFloat.leb;
     r_isfinite := PrimFloat.is_finite;
     r_isnan := PrimFloat.is_nan |}.

End Binary64.

(** ** Exact arithmetic *)

(** A scalar type computes exactly when every value denotes a real number,
    the operations denote the real ones and every value is finite.  The
    invariants that the solver's comments and the specification state over
    the reals are proved for such a type. *)
Record ExactArith (RT : RealT) : Type := {
  toR : real_t -> R;
  toR_zero : toR r_zero = 0%R;
  toR_one : toR r_one = 1%R;
  toR_two : toR r_two = 2%R;
  toR_half : toR r_half = (/ 2)%R;
  toR_epsilon : (0 < toR r_epsilon)%R;
  toR_add : forall a b, toR (r_add a b) = (toR a + toR b)%R;
  toR_sub : forall a b, toR (r_sub a b) = (toR a - toR b)%R;
  toR_mul : forall a b, toR (r_mul a b) = (toR a * toR b)%R;
  toR_div : forall a b, toR b <> 0%R -> toR (r_div a b) = (toR a / toR b)%R;
  toR_neg : forall a, toR (r_neg a) = (- toR a)%R;
  toR_abs : forall a, toR (r_abs a) = Rabs (toR a);
  toR_fmax : forall a b, toR (r_fmax a b) = Rmax (toR a) (toR b);
  toR_fmin : forall a b, toR (r_fmin a b) = Rmin (toR a) (toR b);
  ltb_toR : forall a b, r_ltb a b = true <-> (toR a < toR b)%R;
  leb_toR : forall a b, r_leb a b = true <-> (toR a <= toR b)%R;
  all_isfinite : forall a, r_isfinite a = true
}.

(** Rational numbers as [real_t]: exact in everything but the square root,
    which is rounded down to a multiple of [2^-52 / den]. *)
Module Rational.

Definition Qsqrt (q : Q) : Q :=
  Qred (Z.sqrt (Qnum q * Zpos (Qden q) * 2 ^ 104) # (Qden q * 2 ^ 52)).

Definition Qltb (a b : Q) : bool := negb (Qle_bool b a).

#[export] Instance rational : RealT :=
  {| real_t := Q;
     r_zero := 0%Q;
     r_one := 1%Q;
     r_two := 2%Q;
     r_half := (1 # 2)%Q;
     r_epsilon := (1 # 2 ^ 52)%Q;
     r_add := fun a b => Qred (a + b);
     r_sub := fun a b => Qred (a - b);
     r_mul := fun a b => Qred (a * b);
     r_div := fun a b => Qred (a / b);
     r_neg := Qopp;
     r_abs := Qabs;
     r_sqrt := Qsqrt;
     r_fmax := fun a b => if Qltb a b then b else a;
     r_fmin := fun a b => if Qltb b a then b else a;
     r_ltb := Qltb;
     r_leb := Qle_bool;
     r_isfinite := fun _ => true;
     r_isnan := fun _ => false |}.

End Rational.

(** ** Predicates used by the statements *)

Section Predicates.
Context {RT : RealT}.
Variable LB : LBFGS_class.
Variable SLB : SpecializedLBFGS_class.
Variable params : PANOCParams.
Variable env : Environment.
Variable problem : Problem.
Variable Σ : vec.
Variable ε : real_t.

(** The cached quantities of an iterate are the ones its point, its gradient
    and its step size determine: [ψ] and [∇ψ] at [x], the projected step from
    [x] with step size [γ], [ψ] and [ŷ] at [x̂], and the two inner products. *)
Definition consistent (y : vec) (it : iterate) : Prop :=
  calc_ψ_grad_ψ problem (it_x it) y Σ = (it_ψ it, it_grad_ψ it)
  /\ fst (calc_x_hat problem (it_γ it) (it_x it) (it_grad_ψ it))
     = (it_x_hat it, it_p it)
  /\ calc_ψ_ŷ problem (it_x_hat it) y Σ = (it_ψ_hat_x it, it_ŷ_x_hat it)
  /\ it_grad_ψᵀp it = dot (it_grad_ψ it) (it_p it)
  /\ it_norm_sq_p it = squaredNorm (it_p it).

(** [shrinks y it it']: the quadratic upper bound loop takes [it] to [it'],
    each pass entered because the bound was violated. *)
Inductive shrinks (y : vec) : iterate -> iterate -> Prop :=
  | shrinks_done (it : iterate) : shrinks y it it
  | shrinks_pass (it it' : iterate) :
      qub_violated it = true ->
      shrinks y (qub_pass problem Σ y it) it' ->
      shrinks y it it'.

(** What no stage of the main loop but the stopping test touches. *)
Definition world (st : State LB SLB) : Outputs * Z * nat * nat :=
  (caller st, start_time st, clock_reads st, stop_loads st).

(** [reach fuel st0 k st]: [st] is the state at the head of iteration [k] of
    the main loop started in [st0]. *)
Inductive reach (fuel : nat) (st0 : State LB SLB) : nat -> State LB SLB -> Prop :=
  | reach_entry : reach fuel st0 0 st0
  | reach_next (k : nat) (st st' : State LB SLB) :
      reach fuel st0 k st ->
      iteration params env problem Σ ε fuel k st = Some (Continue st') ->
      reach fuel st0 (S k) st'.

(** The time measured at the stopping test of a state. *)
Definition time_elapsed (st : State LB SLB) : Z :=
  (steady_clock_now env (clock_reads st) - start_time st)%Z.

(** The order in which the termination list of the specification would
    classify an exit, and the order the code uses. *)
Definition listed_status (converged at_max_iter out_of_time not_finite stop : bool)
  : option SolverStatus :=
  if converged then Some Converged
  else if at_max_iter then Some MaxIter
  else if out_of_time then Some MaxTime
  else if not_finite then Some NotFinite
  else if stop then Some Interrupted
  else None.

Definition code_status (converged at_max_iter out_of_time not_finite stop : bool)
  : option SolverStatus :=
  if converged then Some Converged
  else if out_of_time then Some MaxTime
  else if at_max_iter then Some MaxIter
  else if not_finite then Some NotFinite
  else if stop then Some Interrupted
  else None.


(** The bound of the specification at an iterate, evaluated in the scalar
    type: [ψ̂ ≤ ψ + ⟨∇ψ, p⟩ + ½ L ‖p‖²]. *)
Definition listed_upper_bound (it : iterate) : bool :=
  r_leb (it_ψ_hat_x it)
    (r_add (r_add (it_ψ it) (it_grad_ψᵀp it))
       (r_mul (r_mul r_half (it_L it)) (it_norm_sq_p it))).

(** The three scalars of [it] are those of [it0] after [n] passes of the
    shrink loop: [L] doubled and [γ], [σ] halved [n] times. *)
Definition passes_from (n : nat) (it0 it : iterate) : Prop :=
  it_L it = Nat.iter n (fun L => r_mul L r_two) (it_L it0)
  /\ it_γ it = Nat.iter n (fun γ => r_div γ r_two) (it_γ it0)
  /\ it_σ it = Nat.iter n (fun σ => r_div σ r_two) (it_σ it0).

Definition exit_status (fl : Flow LB SLB) : option SolverStatus :=
  match fl with
  | Exit r => Some (status (s r))
  | Continue _ => None
  end.

(** The exit state of the stopping test. *)
Definition exit_state (k : nat) (εₖ : real_t) (st : State LB SLB) (written : bool)
  (polled : bool) (status : SolverStatus) : State LB SLB :=
  let st1 := tick_clock st in
  let st2 := if polled then tick_stop st1 else st1 in
  let st3 := if written then write_outputs problem Σ st2 else st2 in
  set_s st3
    (set_exit (s st) k εₖ
       (duration_cast_microseconds env (time_elapsed st)) status).

(** The state at the head of iteration [k] of a call on [(x, z, y, err_z)]:
    the caller's vectors are the ones passed in, but for [x], advanced by the
    perturbation at line 215; the clock has been read once per earlier
    iteration and once at entry, the stop flag once per earlier iteration;
    and the cached quantities of the current iterate are up to date. *)
Definition head_inv (x z y err_z : vec) (k : nat) (st : State LB SLB) : Prop :=
  caller st = {| out_x := vadd x (perturbation params x); out_z := z;
                 out_y := y; out_err_z := err_z |}
  /\ start_time st = steady_clock_now env 0
  /\ clock_reads st = S k
  /\ stop_loads st = k
  /\ consistent y (cur st).

(** The state at the stopping test of iteration [k]: as at the head of the
    iteration, with the residual's gradient in place. *)
Definition at_stop_test (x z y err_z : vec) (k : nat) (st : State LB SLB) : Prop :=
  head_inv x z y err_z k st
  /\ grad_hat_ψₖ st
     = calc_grad_ψ_from_ŷ problem (it_x_hat (cur st)) (it_ŷ_x_hat (cur st)).

(** The caller's vectors once the outputs are written from an iterate. *)
Definition written_outputs (y : vec) (it : iterate) : Outputs :=
  {| out_x := it_x_hat it;
     out_z := fst (calc_ẑ problem (it_x_hat it) y Σ);
     out_y := it_ŷ_x_hat it;
     out_err_z := snd (calc_ẑ problem (it_x_hat it) y Σ) |}.

End Predicates.

(** ** Predicates over exact arithmetic *)

Section ExactPredicates.
Context {RT : RealT}.
Variable E : ExactArith RT.

(** The relations between the step size, the Lipschitz estimate and the
    decrease parameter of an iterate, for the factor [α] and the initial step
    size [γ0]. *)
Definition scalars_ok (α γ0 : R) (it : iterate) : Prop :=
  let L := toR E (it_L it) in
  let γ := toR E (it_γ it) in
  let σ := toR E (it_σ it) in
  (0 < γ <= γ0)%R
  /\ (0 < L)%R
  /\ r_isfinite (it_L it) = true
  /\ (γ * L <= α)%R
  /\ γ = (α / L)%R
  /\ σ = (γ * (1 - γ * L) / 2)%R
  /\ (0 < σ)%R.

(** [v] lies in the box, component by component. *)
Fixpoint in_box (lb ub v : vec) : Prop :=
  match v, lb, ub with
  | [], _, _ => True
  | vi :: v', li :: lb', ui :: ub' =>
      (toR E li <= toR E vi <= toR E ui)%R /\ in_box lb' ub' v'
  | _ :: _, _, _ => False
  end.

(** The bounds of a box are ordered, component by component. *)
Definition ordered_box (box : Box) : Prop :=
  Forall2 (fun l u => (toR E l <= toR E u)%R) (lowerbound box) (upperbound box).

(** The quadratic upper bound over the reals. *)
Definition upper_bound_holds (it : iterate) : Prop :=
  (toR E (it_ψ_hat_x it)
   <= toR E (it_ψ it) + toR E (it_grad_ψᵀp it)
      + / 2 * toR E (it_L it) * toR E (it_norm_sq_p it))%R.

End ExactPredicates.

(** ** Concrete inputs and runs *)

(** Binary64 inputs. *)
Module Runs.
Import Binary64.
Local Open Scope float_scope.
Set Warnings "-inexact-float".

Definition LB := @spec_LBFGS double.
Definition SLB := @spec_SpecializedLBFGS double.

(** [f(x) = x² / 256] on the real line, no constraints. *)
Definition quad : Problem :=
  {| p_n := 1; p_m := 0;
     p_C := {| lowerbound := [neg_infinity]; upperbound := [infinity] |};
     p_D := {| lowerbound := []; upperbound := [] |};
     p_f := fun x => match x with [a] => 0.00390625 * a * a | _ => 0 end;
     p_grad_f := fun x => map (fun a => 0.0078125 * a) x;
     p_g := fun _ => [];
     p_grad_g := fun x _ => map (fun _ => 0) x |}.

(** [f(x) = (2/3) x √x] with [g(x) = x] and [D = [-10, 10]]: [f] and its
    derivative [√x] are NaN left of the origin. *)
Definition root : Problem :=
  {| p_n := 1; p_m := 1;
     p_C := {| lowerbound := [neg_infinity]; upperbound := [infinity] |};
     p_D := {| lowerbound := [-10]; upperbound := [10] |};
     p_f := fun x => match x with
                     | [a] => 2 / 3 * a * PrimFloat.sqrt a
                     | _ => 0
                     end;
     p_grad_f := fun x => map PrimFloat.sqrt x;
     p_g := fun x => x;
     p_grad_g := fun _ v => v |}.

(** The default parameters, but for the budgets and the perturbation floor. *)
Definition panoc_params (δ : float) (iter : nat) (time : Z) : PANOCParams :=
  {| Lipschitz_ε := 1e-6; Lipschitz_δ := δ; Lipschitz_Lγ_factor := 0.95;
     lbfgs_mem := 10; specialized_lbfgs := false;
     update_lipschitz_in_linesearch := true;
     max_iter := iter; max_time := time; τ_min := 0.00390625;
     print_interval := 0 |}.

Definition defaults : PANOCParams := panoc_params 1e-12 100 300000000000.

Definition fresh_Stats : Stats :=
  {| iterations := 0; final_ε := infinity; elapsed_time := 0;
     status := Converged; linesearch_failures := 0; lbfgs_failures := 0;
     lbfgs_rejected := 0 |}.

(** A clock in nanoseconds that advances by a microsecond per reading, and a
    stop flag that is constant. *)
Definition world_of (stop : bool) : Environment :=
  {| steady_clock_now := fun i => (1000 * Z.of_nat i)%Z;
     duration_cast_microseconds := fun t => (t / 1000)%Z;
     stop_signal_load := fun _ => stop;
     uninitialized := fun n => repeat 0 n;
     default_Stats := fresh_Stats |}.

Definition tolerance : float := 1e-8.

Definition enter (p : PANOCParams) (e : Environment) (pb : Problem)
  (Σ x z y err_z : vec) : State LB SLB :=
  match initialize LB SLB p e pb Σ x z y err_z with
  | Continue st => st
  | Exit r => r
  end.

Definition next_head (p : PANOCParams) (e : Environment) (pb : Problem)
  (Σ : vec) (k : nat) (st : State LB SLB) : State LB SLB :=
  match iteration p e pb Σ tolerance 50 k st with
  | Some (Continue st') => st'
  | _ => st
  end.

Definition result (o : Outcome LB SLB) (otherwise : State LB SLB) : State LB SLB :=
  match o with
  | Returned r => r
  | _ => otherwise
  end.

Definition quad_entry : State LB SLB :=
  enter defaults (world_of false) quad [] [1] [] [] [].
Definition quad_head1 : State LB SLB :=
  next_head defaults (world_of false) quad [] 0 quad_entry.
Definition quad_result : State LB SLB :=
  result (main_loop defaults (world_of false) quad [] tolerance 50 101 0
            quad_entry) quad_entry.

Definition root_entry : State LB SLB :=
  enter defaults (world_of false) root [1] [1] [7] [0.5] [7].
Definition root_result : State LB SLB :=
  result (main_loop defaults (world_of false) root [1] tolerance 50 101 0
            root_entry) root_entry.

Definition no_budget : PANOCParams := panoc_params 1e-12 0 0.

Definition quad_no_budget : State LB SLB :=
  result (solve LB SLB no_budget (world_of false) quad [] tolerance 50
            [1] [] [] []) quad_entry.



Definition quad_fit : iterate * lbfgs_t LB :=
  match qub_loop LB quad [] 50 false [] (cur quad_entry) (lbfgs quad_entry) with
  | Some r => r
  | None => (cur quad_entry, lbfgs quad_entry)
  end.

Definition quad_interrupted : State LB SLB :=
  match iteration defaults (world_of true) quad [] tolerance 50 0 quad_entry with
  | Some (Exit r) => r
  | _ => quad_entry
  end.

Definition no_floor : PANOCParams := panoc_params 0 100 300000000000.

(** [f(x) = x² / 256] with the constraint [g(x) = x] in [D = [-10, 1/4]]. *)
Definition capped : Problem :=
  {| p_n := 1; p_m := 1;
     p_C := {| lowerbound := [neg_infinity]; upperbound := [infinity] |};
     p_D := {| lowerbound := [-10]; upperbound := [0.25] |};
     p_f := fun x => match x with [a] => 0.00390625 * a * a | _ => 0 end;
     p_grad_f := fun x => map (fun a => 0.0078125 * a) x;
     p_g := fun x => x;
     p_grad_g := fun _ v => v |}.

Definition capped_entry : State LB SLB :=
  enter defaults (world_of true) capped [1] [1] [7] [0.5] [7].

Definition capped_fit : State LB SLB :=
  match upper_bound_fit defaults capped [1] 50 0 capped_entry with
  | Some st => st
  | None => capped_entry
  end.

Definition capped_interrupted : State LB SLB :=
  match iteration defaults (world_of true) capped [1] tolerance 50 0
          capped_entry with
  | Some (Exit r) => r
  | _ => capped_entry
  end.

(** [f(x) = |x − c|] on the real line, with the kink [c] at
    [Lγ_factor / machine epsilon]. *)
Definition kink : float := 0.95 / r_epsilon.

Definition kinked : Problem :=
  {| p_n := 1; p_m := 0;
     p_C := {| lowerbound := [neg_infinity]; upperbound := [infinity] |};
     p_D := {| lowerbound := []; upperbound := [] |};
     p_f := fun x => match x with [a] => abs (a - kink) | _ => 0 end;
     p_grad_f := fun x => map (fun a => if a <? kink then -1 else 1) x;
     p_g := fun _ => [];
     p_grad_g := fun x _ => map (fun _ => 0) x |}.

Definition kinked_entry : State LB SLB :=
  enter defaults (world_of false) kinked [] [0] [] [] [].

Definition kinked_head1 : State LB SLB :=
  match iteration defaults (world_of false) kinked [] tolerance 1100 0
          kinked_entry with
  | Some (Continue st') => st'
  | _ => kinked_entry
  end.

(** [f(x) = −x] on the box [[0, 0.9]]. *)
Definition slope : Problem :=
  {| p_n := 1; p_m := 0;
     p_C := {| lowerbound := [0]; upperbound := [0.9] |};
     p_D := {| lowerbound := []; upperbound := [] |};
     p_f := fun x => match x with [a] => - a | _ => 0 end;
     p_grad_f := fun x => map (fun _ => -1) x;
     p_g := fun _ => [];
     p_grad_g := fun x _ => map (fun _ => 0) x |}.

Definition slope_entry : State LB SLB :=
  enter defaults (world_of false) slope [] [0.3] [] [] [].

Definition slope_result : State LB SLB :=
  result (solve LB SLB defaults (world_of false) slope [] tolerance 50
            [0.3] [] [] []) slope_entry.

(** The upper bound fit of iteration [0] on [root]. *)
Definition root_fit : iterate * lbfgs_t LB :=
  match qub_loop LB root [1] 50 false [0.5] (cur root_entry)
          (lbfgs root_entry) with
  | Some r => r
  | None => (cur root_entry, lbfgs root_entry)
  end.

Definition quad_fit0 : State LB SLB :=
  match upper_bound_fit defaults quad [] 50 0 quad_entry with
  | Some st => st
  | None => quad_entry
  end.

End Runs.

(** Rational inputs. *)
Module ExactRuns.
Import Rational.
Local Open Scope Q_scope.

Definition LB := @spec_LBFGS rational.
Definition SLB := @spec_SpecializedLBFGS rational.

(** [f(x) = x²] on the box [[0, 1/2]]. *)
Definition boxed : Problem :=
  {| p_n := 1; p_m := 0;
     p_C := {| lowerbound := [0]; upperbound := [1 # 2] |};
     p_D := {| lowerbound := []; upperbound := [] |};
     p_f := fun x => match x with [a] => Qred (a * a) | _ => 0 end;
     p_grad_f := fun x => map (fun a => Qred (2 * a)) x;
     p_g := fun _ => [];
     p_grad_g := fun x _ => map (fun _ => 0) x |}.

Definition defaults : PANOCParams :=
  {| Lipschitz_ε := 1 # 1000000; Lipschitz_δ := 1 # 1000000000000;
     Lipschitz_Lγ_factor := 19 # 20;
     lbfgs_mem := 10; specialized_lbfgs := false;
     update_lipschitz_in_linesearch := true;
     max_iter := 100; max_time := 300000000000; τ_min := 1 # 256;
     print_interval := 0 |}.

Definition fresh_Stats : Stats :=
  {| iterations := 0; final_ε := 0; elapsed_time := 0;
     status := Converged; linesearch_failures := 0; lbfgs_failures := 0;
     lbfgs_rejected := 0 |}.

Definition quiet : Environment :=
  {| steady_clock_now := fun i => (1000 * Z.of_nat i)%Z;
     duration_cast_microseconds := fun t => (t / 1000)%Z;
     stop_signal_load := fun _ => false;
     uninitialized := fun n => repeat 0 n;
     default_Stats := fresh_Stats |}.

Definition tolerance : Q := 1 # 100000000.

Definition boxed_entry : State LB SLB :=
  match initialize LB SLB defaults quiet boxed [] [3 # 4] [] [] [] with
  | Continue st => st
  | Exit r => r
  end.

Definition boxed_head1 : State LB SLB :=
  match iteration defaults quiet boxed [] tolerance 50 0 boxed_entry with
  | Some (Continue st) => st
  | _ => boxed_entry
  end.

Definition continues (o : option (Flow LB SLB)) : bool :=
  match o with
  | Some (Continue _) => true
  | _ => false
  end.

(** [f(x) = x²] on the box [[0, 1/2]] with one constraint, the first
    coefficient of [x] in [D = [-1, 1/4]]. *)
Definition capped : Problem :=
  {| p_n := 1; p_m := 1;
     p_C := {| lowerbound := [0]; upperbound := [1 # 2] |};
     p_D := {| lowerbound := [- (1)]; upperbound := [1 # 4] |};
     p_f := fun x => match x with [a] => Qred (a * a) | _ => 0 end;
     p_grad_f := fun x => map (fun a => Qred (2 * a)) x;
     p_g := fun x => [hd 0 x];
     p_grad_g := fun x v => map (fun _ => hd 0 v) x |}.

(** The default parameters with no iteration allowed. *)
Definition no_iterations : PANOCParams :=
  {| Lipschitz_ε := 1 # 1000000; Lipschitz_δ := 1 # 1000000000000;
     Lipschitz_Lγ_factor := 19 # 20;
     lbfgs_mem := 10; specialized_lbfgs := false;
     update_lipschitz_in_linesearch := true;
     max_iter := 0; max_time := 300000000000; τ_min := 1 # 256;
     print_interval := 0 |}.

Definition capped_returned : State LB SLB :=
  match solve LB SLB no_iterations quiet capped [1] tolerance 50
          [3 # 4] [7] [1 # 2] [7] with
  | Returned r => r
  | _ => boxed_entry
  end.

Definition returned (o : Outcome LB SLB) : bool :=
  match o with
  | Returned _ => true
  | _ => false
  end.

End ExactRuns.

(** * Further definitions *)

(** ** The loop of [calc_ψ_ŷ], index by index *)

Section IndexedLoop.
Context {RT : RealT}.
Local Open Scope rt_scope.

(** [v(i) = a] for an index in range. *)
Fixpoint assign (v : vec) (i : nat) (a : real_t) : vec :=
  match v, i with
  | [], _ => []
  | _ :: v', O => a :: v'
  | b :: v', S i' => b :: assign v' i' a
  end.

(** Lines 41-44 of [calc_ψ_ŷ] index by index, [count] indices from [i] on:
    [dᵀŷ += ŷ(i) * Σ(i) * ŷ(i); ŷ(i) = Σ(i) * ŷ(i)].  An index outside one of
    the vectors is [None]. *)
Fixpoint weigh_loop (count i : nat) (Σ ŷ : vec) (dᵀŷ : real_t)
  : option (real_t * vec) :=
  match count with
  | O => Some (dᵀŷ, ŷ)
  | S count' =>
      match nth_error ŷ i, nth_error Σ i with
      | Some ŷi, Some Σi =>
          weigh_loop count' (S i) Σ (assign ŷ i (Σi * ŷi)) (dᵀŷ + ŷi * Σi * ŷi)
      | _, _ => None
      end
  end.

(** Lines 27-49 with the loop run over [i < p.m], as the source writes it. *)
Definition calc_ψ_ŷ_indexed (p : Problem) (x y Σ : vec) : option (real_t * vec) :=
  let ŷ := p_g p x in
  let ŷ := vadd ŷ (vdiv y Σ) in
  let ŷ := projecting_difference ŷ (p_D p) in
  match weigh_loop (p_m p) 0 Σ ŷ r_zero with
  | Some (dᵀŷ, ŷ) => Some (p_f p x + r_half * dᵀŷ, ŷ)
  | None => None
  end.

(** The vectors of the constraints all have [p.m] coefficients: the values
    of [g], the multipliers, the weights and the bounds of [D]. *)
Definition constraint_sizes (p : Problem) (y Σ : vec) : Prop :=
  (forall x : vec, length (p_g p x) = p_m p)
  /\ length y = p_m p
  /\ length Σ = p_m p
  /\ length (lowerbound (p_D p)) = p_m p
  /\ length (upperbound (p_D p)) = p_m p.

End IndexedLoop.

(** ** Bookkeeping of a call *)

Section BookkeepingDefs.
Context {RT : RealT}.
Variable LB : LBFGS_class.
Variable SLB : SpecializedLBFGS_class.
Variable params : PANOCParams.

(** The L-BFGS object that [specialized_lbfgs] does not select is the same in
    both states. *)
Definition idle_buffer (st st' : State LB SLB) : Prop :=
  (specialized_lbfgs params = true -> lbfgs st' = lbfgs st)
  /\ (specialized_lbfgs params = false -> slbfgs st' = slbfgs st).

(** From [a] to [b] only the three counters moved, upwards and by at most
    [l], [f] and [r]. *)
Definition counters_step (l f r : nat) (a b : Stats) : Prop :=
  iterations b = iterations a /\ final_ε b = final_ε a
  /\ elapsed_time b = elapsed_time a /\ status b = status a
  /\ (linesearch_failures a <= linesearch_failures b <= linesearch_failures a + l)%nat
  /\ (lbfgs_failures a <= lbfgs_failures b <= lbfgs_failures a + f)%nat
  /\ (lbfgs_rejected a <= lbfgs_rejected b <= lbfgs_rejected a + r)%nat.

End BookkeepingDefs.

(** ** Predicates over exact arithmetic, continued *)

Section ExactDefs.
Context {RT : RealT}.
Variable E : ExactArith RT.

(** The inner product of the values of two vectors, over the reals. *)
Fixpoint Rdot (a b : vec) : R :=
  match a, b with
  | ai :: a', bi :: b' => (toR E ai * toR E bi + Rdot a' b')%R
  | _, _ => 0%R
  end.

(** [ŷᵢ = yᵢ + Σᵢ eᵢ] for every coefficient of [ŷ]. *)
Fixpoint multiplier_update (y Σ e ŷ : vec) {struct ŷ} : Prop :=
  match ŷ, y, Σ, e with
  | [], _, _, _ => True
  | a :: ŷ', yi :: y', σ :: Σ', ei :: e' =>
      toR E a = (toR E yi + toR E σ * toR E ei)%R
      /\ multiplier_update y' Σ' e' ŷ'
  | _ :: _, _, _, _ => False
  end.

End ExactDefs.

Section TerminationDefs.
Context {RT : RealT}.
Variable E : ExactArith RT.
Variable problem : Problem.
Variable Σ : vec.

(** [ψ] has the quadratic upper bound with constant [Lbar] at [x]:
    [ψ(x̂) ≤ ψ(x) + ⟨∇ψ(x), p⟩ + (Lbar / 2) ‖p‖²] for the projected step [p]
    of every step size from [x]. *)
Definition quadratic_upper_bound (y : vec) (Lbar : R) (x : vec) : Prop :=
  forall γ : real_t,
    let g := snd (calc_ψ_grad_ψ problem x y Σ) in
    let x_hat := fst (fst (calc_x_hat problem γ x g)) in
    let p := snd (fst (calc_x_hat problem γ x g)) in
    (toR E (fst (calc_ψ_ŷ problem x_hat y Σ))
     <= toR E (fst (calc_ψ_grad_ψ problem x y Σ)) + toR E (dot g p)
        + Lbar / 2 * toR E (squaredNorm p))%R.

End TerminationDefs.

Section ReadyDefs.
Context {RT : RealT}.
Variable E : ExactArith RT.
Variable LB : LBFGS_class.
Variable SLB : SpecializedLBFGS_class.
Variable params : PANOCParams.
Variable env : Environment.
Variable problem : Problem.
Variable Σ : vec.

(** What the line search needs of a state: the multipliers are the caller's
    and the estimate of the current iterate is at least machine epsilon. *)
Definition ready (y : vec) (st : State LB SLB) : Prop :=
  out_y (caller st) = y /\ (toR E r_epsilon <= toR E (it_L (cur st)))%R.

(** At the head of an iteration: the invariant of the main loop together with
    the lower bound on the estimate. *)
Definition head_ready (x z y err_z : vec) (k : nat) (st : State LB SLB) : Prop :=
  head_inv params env problem Σ x z y err_z k st
  /\ (toR E r_epsilon <= toR E (it_L (cur st)))%R.

End ReadyDefs.

(** ** A problem with a known quadratic upper bound *)

Section SumOfSquares.
Context {RT : RealT}.

(** [f(x) = ‖x‖²] on the box [[lb, ub]], no general constraints. *)
Definition sum_of_squares (lb ub : vec) : Problem :=
  {| p_n := length lb; p_m := 0;
     p_C := {| lowerbound := lb; upperbound := ub |};
     p_D := {| lowerbound := []; upperbound := [] |};
     p_f := fun x => dot x x;
     p_grad_f := fun x => scale r_two x;
     p_g := fun _ => [];
     p_grad_g := fun x _ => map (fun _ => r_zero) x |}.

End SumOfSquares.

(** ** Further inputs *)

Module SolvedRuns.
Import Binary64 Runs.
Local Open Scope float_scope.

(** A whole call on the quadratic. *)
Definition quad_solved : State LB SLB :=
  result (solve LB SLB defaults (world_of false) quad [] tolerance 50
            [1] [] [] []) quad_entry.

End SolvedRuns.

Module NaNRuns.
Import Binary64 Runs.
Local Open Scope float_scope.

(** The state at the head of iteration 1 on the quadratic, with a NaN put
    into the projected step. *)
Definition quad_nan : State LB SLB :=
  let c := cur quad_head1 in
  set_iterates quad_head1
    {| it_x := it_x c; it_x_hat := it_x_hat c; it_ŷ_x_hat := it_ŷ_x_hat c;
       it_p := [nan]; it_grad_ψ := it_grad_ψ c; it_ψ := it_ψ c;
       it_ψ_hat_x := it_ψ_hat_x c; it_φ := it_φ c; it_L := it_L c;
       it_σ := it_σ c; it_γ := it_γ c; it_grad_ψᵀp := it_grad_ψᵀp c;
       it_norm_sq_p := it_norm_sq_p c |}
    (nxt quad_head1).

Definition quad_nan_step : State LB SLB :=
  match accept_step defaults quad [] 50 1 quad_nan with
  | Some st => st
  | None => quad_nan
  end.

End NaNRuns.

Module SquareRuns.
Import Rational ExactRuns.
Local Open Scope Q_scope.

(** [f(x) = x²] on [[0, 1/2]], with [f] and its gradient defined on vectors
    of every size. *)
Definition squares : Problem := @sum_of_squares rational [0] [1 # 2].

Definition squares_entry : State LB SLB :=
  match initialize LB SLB defaults quiet squares [] [3 # 4] [] [] [] with
  | Continue st => st
  | Exit r => r
  end.

Definition squares_solved : State LB SLB :=
  match solve LB SLB defaults quiet squares [] tolerance 53 [3 # 4] [] [] [] with
  | Returned r => r
  | _ => squares_entry
  end.

Definition squares_step0 : State LB SLB :=
  match accept_step defaults squares [] 53 0 squares_entry with
  | Some st => st
  | None => squares_entry
  end.

(** An iterate at [x = 1/4] with unit step size and unit estimate. *)
Definition unit_scalars : iterate :=
  {| it_x := []; it_x_hat := []; it_ŷ_x_hat := []; it_p := [];
     it_grad_ψ := []; it_ψ := 0; it_ψ_hat_x := 0; it_φ := 0; it_L := 1;
     it_σ := 0; it_γ := 1; it_grad_ψᵀp := 0; it_norm_sq_p := 0 |}.

Definition squares_iterate : iterate :=
  evaluate_candidate squares [] [] unit_scalars unit_scalars [1 # 4].

Definition squares_head1 : State LB SLB :=
  match iteration defaults quiet squares [] tolerance 53 0 squares_entry with
  | Some (Continue st) => st
  | _ => squares_entry
  end.

End SquareRuns.

(** * Elementary operations: a shallow embedding of [casadi_calculus.hpp] *)

(** The header has three parts: the functions it defines for [double], the
    tables of flags by operation, and the templates of the operations over a
    scalar type [T]. *)

Module casadi_double.
(** ** The functions defined for [double] (lines 204-313) *)

(** Lines 218-219. *)
Definition isnan (x : float) : bool := negb (x =? x)%float.
Definition isinf (x : float) : bool := isnan (x - x)%float.

(** Line 222. *)
Definition sign (x : float) : float :=
  if (x <? 0)%float then (-1)%float
  else if (0 <? x)%float then 1%float else x.

(** Line 225: [depth] is not looked at. *)
Definition isEqual (x y : float) (depth : Z) : bool := (x =? y)%float.

(** Lines 228 and 230: [std::min (x, y)] is [(y < x) ? y : x] and
    [std::max (x, y)] is [(x < y) ? y : x]. *)
Definition fmin (x y : float) : float := if (y <? x)%float then y else x.
Definition fmax (x y : float) : float := if (x <? y)%float then y else x.

(** Line 269, the definition taken without [HAS_COPYSIGN]. *)
Definition copysign (x y : float) : float :=
  if (0 <=? y)%float then abs x else (- abs x)%float.

(** Line 276: a [double] used as a condition is true when it differs
    from zero. *)
Definition if_else_zero (x y : float) : float :=
  if negb (x =? 0)%float then y else 0%float.

End casadi_double.

Module casadi.

(** Lines 47-153: the enumeration of the built-in operations;
    [NUM_BUILT_IN_OPS] is its last enumerator. *)
Inductive Operation : Type :=
  | OP_ASSIGN | OP_ADD | OP_SUB | OP_MUL | OP_DIV | OP_NEG | OP_EXP |
    OP_LOG | OP_POW | OP_CONSTPOW | OP_SQRT | OP_SQ | OP_TWICE | OP_SIN |
    OP_COS | OP_TAN | OP_ASIN | OP_ACOS | OP_ATAN | OP_LT | OP_LE | OP_EQ |
    OP_NE | OP_NOT | OP_AND | OP_OR | OP_FLOOR | OP_CEIL | OP_FMOD |
    OP_FABS | OP_SIGN | OP_COPYSIGN | OP_IF_ELSE_ZERO | OP_ERF | OP_FMIN |
    OP_FMAX | OP_INV | OP_SINH | OP_COSH | OP_TANH | OP_ASINH | OP_ACOSH |
    OP_ATANH | OP_ATAN2 | OP_CONST | OP_INPUT | OP_OUTPUT | OP_PARAMETER |
    OP_CALL | OP_FIND | OP_MAP | OP_MATMUL | OP_SOLVE | OP_TRANSPOSE |
    OP_DETERMINANT | OP_INVERSE | OP_INNER_PROD | OP_HORZCAT | OP_VERTCAT |
    OP_DIAGCAT | OP_HORZSPLIT | OP_VERTSPLIT | OP_DIAGSPLIT | OP_RESHAPE |
    OP_SUBREF | OP_SUBASSIGN | OP_GETNONZEROS | OP_ADDNONZEROS |
    OP_SETNONZEROS | OP_PROJECT | OP_ASSERTION | OP_MONITOR | OP_NORM2 |
    OP_NORM1 | OP_NORMINF | OP_NORMF | OP_ERFINV | OP_PRINTME | OP_LIFT |
    NUM_BUILT_IN_OPS.

(** Lines 449-462: smoothness (by default true). *)
Definition SmoothChecker (I : Operation) : bool :=
  match I with
  | OP_LT | OP_LE | OP_FLOOR | OP_CEIL | OP_FMOD | OP_EQ | OP_NE |
    OP_SIGN | OP_COPYSIGN | OP_NOT | OP_AND | OP_OR | OP_IF_ELSE_ZERO => false
  | _ => true
  end.

(** Lines 467-494: if evaluated with the first argument zero, is the result zero? *)
Definition F0XChecker (I : Operation) : bool :=
  match I with
  | OP_ASSIGN | OP_MUL | OP_DIV | OP_NEG | OP_POW | OP_CONSTPOW | OP_SQRT |
    OP_SQ | OP_TWICE | OP_SIN | OP_TAN | OP_ATAN | OP_ASIN | OP_FLOOR |
    OP_CEIL | OP_FMOD | OP_FABS | OP_SIGN | OP_COPYSIGN | OP_ERF |
    OP_SINH | OP_TANH | OP_ASINH | OP_ATANH | OP_ERFINV | OP_AND |
    OP_IF_ELSE_ZERO => true
  | _ => false
  end.

(** Lines 499-502: if evaluated with the second argument zero, is the result zero? *)
Definition Function0Checker (I : Operation) : bool :=
  match I with
  | OP_MUL | OP_AND | OP_IF_ELSE_ZERO => true
  | _ => false
  end.

(** Lines 507-514: if evaluated with both arguments zero, is the result
    zero?  By default the value of [F0XChecker]. *)
Definition F00Checker (I : Operation) : bool :=
  match I with
  | OP_ADD | OP_SUB | OP_FMIN | OP_FMAX | OP_AND | OP_OR | OP_COPYSIGN => true
  | _ => F0XChecker I
  end.

(** Lines 519-525: is commutative. *)
Definition CommChecker (I : Operation) : bool :=
  match I with
  | OP_ADD | OP_MUL | OP_EQ | OP_NE | OP_AND | OP_OR => true
  | _ => false
  end.

(** Lines 530-540: always non-negative (false by default). *)
Definition NonnegativeChecker (I : Operation) : bool :=
  match I with
  | OP_SQRT | OP_SQ | OP_EXP | OP_LT | OP_LE | OP_EQ | OP_NE | OP_NOT |
    OP_AND | OP_OR => true
  | _ => false
  end.

(** Lines 545-561: is the operation binary as opposed to unary. *)
Definition BinaryChecker (I : Operation) : bool :=
  match I with
  | OP_ADD | OP_SUB | OP_MUL | OP_DIV | OP_POW | OP_CONSTPOW | OP_EQ |
    OP_NE | OP_AND | OP_OR | OP_FMIN | OP_FMAX | OP_PRINTME | OP_ATAN2 |
    OP_IF_ELSE_ZERO | OP_COPYSIGN => true
  | _ => false
  end.


(** ** The scalar type of the templates *)

(** The type [T] of the [template<typename T>] members, with what they apply
    to it: the conversions of literals and of [bool], the arithmetic and the
    comparisons, the functions of [<cmath>] brought in at lines 180-199, and
    the functions the header declares for every [T] and defines for [double]
    (lines 204-313).  [s_truth] is the conversion to [bool] of [!x], [x && y]
    and [x || y]. *)
Class Scalar : Type := {
  T : Type;
  s_zero : T;
  s_one : T;
  s_two : T;
  s_pi : T;                              (* M_PI *)
  s_of_bool : bool -> T;
  s_truth : T -> bool;
  s_add : T -> T -> T;
  s_sub : T -> T -> T;
  s_mul : T -> T -> T;
  s_div : T -> T -> T;
  s_neg : T -> T;
  s_lt : T -> T -> bool;
  s_le : T -> T -> bool;
  s_ge : T -> T -> bool;
  s_eq : T -> T -> bool;
  s_ne : T -> T -> bool;
  s_exp : T -> T;
  s_log : T -> T;
  s_pow : T -> T -> T;
  s_sqrt : T -> T;
  s_sin : T -> T;
  s_cos : T -> T;
  s_tan : T -> T;
  s_asin : T -> T;
  s_acos : T -> T;
  s_atan : T -> T;
  s_sinh : T -> T;
  s_cosh : T -> T;
  s_tanh : T -> T;
  s_asinh : T -> T;
  s_acosh : T -> T;
  s_atanh : T -> T;
  s_floor : T -> T;
  s_ceil : T -> T;
  s_fmod : T -> T -> T;
  s_fabs : T -> T;
  s_atan2 : T -> T -> T;
  s_sign : T -> T;
  s_fmin : T -> T -> T;
  s_fmax : T -> T -> T;
  s_erf : T -> T;
  s_erfinv : T -> T;
  s_constpow : T -> T -> T;
  s_printme : T -> T -> T;
  s_copysign : T -> T -> T;
  s_if_else_zero : T -> T -> T
}.

Declare Scope casadi_scope.
Delimit Scope casadi_scope with cas.
Infix "+" := s_add : casadi_scope.
Infix "-" := s_sub : casadi_scope.
Infix "*" := s_mul : casadi_scope.
Infix "/" := s_div : casadi_scope.
Notation "- x" := (s_neg x) : casadi_scope.

Section Operations.
Context {Sc : Scalar}.
Local Open Scope casadi_scope.

(** Lines 316-324. *)
Definition twice (x : T) : T := x + x.
Definition sq (x : T) : T := x * x.

(** ** [UnaryOperation] and [BinaryOperation] (lines 326-344 and 564-945) *)

(** [UnaryOperation<I>::fcn]; the primary template declares the member
    without defining it, so an operation with no specialisation has none. *)
Definition UnaryOperation_fcn (I : Operation) : option (T -> T) :=
  match I with
  | OP_ASSIGN => Some (fun x => x)
  | OP_NEG => Some (fun x => - x)
  | OP_EXP => Some (fun x => s_exp x)
  | OP_LOG => Some (fun x => s_log x)
  | OP_SQRT => Some (fun x => s_sqrt x)
  | OP_SQ => Some (fun x => sq x)
  | OP_TWICE => Some (fun x => s_two * x)
  | OP_SIN => Some (fun x => s_sin x)
  | OP_COS => Some (fun x => s_cos x)
  | OP_TAN => Some (fun x => s_tan x)
  | OP_ASIN => Some (fun x => s_asin x)
  | OP_ACOS => Some (fun x => s_acos x)
  | OP_ATAN => Some (fun x => s_atan x)
  | OP_FLOOR => Some (fun x => s_floor x)
  | OP_CEIL => Some (fun x => s_ceil x)
  | OP_NOT => Some (fun x => s_of_bool (negb (s_truth x)))
  | OP_ERF => Some (fun x => s_erf x)
  | OP_FABS => Some (fun x => s_fabs x)
  | OP_SIGN => Some (fun x => s_sign x)
  | OP_INV => Some (fun x => s_one / x)
  | OP_SINH => Some (fun x => s_sinh x)
  | OP_COSH => Some (fun x => s_cosh x)
  | OP_TANH => Some (fun x => s_tanh x)
  | OP_ASINH => Some (fun x => s_asinh x)
  | OP_ACOSH => Some (fun x => s_acosh x)
  | OP_ATANH => Some (fun x => s_atanh x)
  | OP_ERFINV => Some (fun x => s_erfinv x)
  | _ => None
  end.

(** [UnaryOperation<I>::der(x, f, d)]: the value written to [d[0]]. *)
Definition UnaryOperation_der (I : Operation) : option (T -> T -> T) :=
  match I with
  | OP_ASSIGN => Some (fun x f => s_one)
  | OP_NEG => Some (fun x f => - s_one)
  | OP_EXP => Some (fun x f => f)
  | OP_LOG => Some (fun x f => s_one / x)
  | OP_SQRT => Some (fun x f => s_one / twice f)
  | OP_SQ => Some (fun x f => twice x)
  | OP_TWICE => Some (fun x f => s_two)
  | OP_SIN => Some (fun x f => s_cos x)
  | OP_COS => Some (fun x f => - s_sin x)
  | OP_TAN => Some (fun x f => s_one / sq (s_cos x))
  | OP_ASIN => Some (fun x f => s_one / s_sqrt (s_one - x * x))
  | OP_ACOS => Some (fun x f => - s_one / s_sqrt (s_one - x * x))
  | OP_ATAN => Some (fun x f => s_one / (s_one + x * x))
  | OP_FLOOR => Some (fun x f => s_zero)
  | OP_CEIL => Some (fun x f => s_zero)
  | OP_NOT => Some (fun x f => s_zero)
  | OP_ERF => Some (fun x f => (s_two / s_sqrt s_pi) * s_exp (- x * x))
  | OP_FABS => Some (fun x f => s_sign x)
  | OP_SIGN => Some (fun x f => s_zero)
  | OP_INV => Some (fun x f => - f * f)
  | OP_SINH => Some (fun x f => s_cosh x)
  | OP_COSH => Some (fun x f => - s_sinh x)
  | OP_TANH => Some (fun x f => s_one - f * f)
  | OP_ASINH => Some (fun x f => s_one / s_sqrt (s_one + x * x))
  | OP_ACOSH => Some (fun x f => s_one / s_sqrt (x - s_one) / s_sqrt (x + s_one))
  | OP_ATANH => Some (fun x f => s_one / (s_one - x * x))
  | OP_ERFINV => Some (fun x f => (s_sqrt s_pi / s_two) * s_exp (f * f))
  | _ => None
  end.

(** [BinaryOperation<I>::fcn]; the primary template (lines 335-344) hands
    [x] to [UnaryOperation<I>::fcn] and ignores [y]. *)
Definition BinaryOperation_fcn (I : Operation) : option (T -> T -> T) :=
  match I with
  | OP_ADD => Some (fun x y => x + y)
  | OP_SUB => Some (fun x y => x - y)
  | OP_MUL => Some (fun x y => x * y)
  | OP_DIV => Some (fun x y => x / y)
  | OP_POW => Some (fun x y => s_pow x y)
  | OP_CONSTPOW => Some (fun x y => s_pow x y)
  | OP_LT => Some (fun x y => s_of_bool (s_lt x y))
  | OP_LE => Some (fun x y => s_of_bool (s_le x y))
  | OP_FMOD => Some (fun x y => s_fmod x y)
  | OP_EQ => Some (fun x y => s_of_bool (s_eq x y))
  | OP_NE => Some (fun x y => s_of_bool (s_ne x y))
  | OP_AND => Some (fun x y => s_of_bool (s_truth x && s_truth y))
  | OP_OR => Some (fun x y => s_of_bool (s_truth x || s_truth y))
  | OP_COPYSIGN => Some (fun x y => s_copysign x y)
  | OP_FMIN => Some (fun x y => s_fmin x y)
  | OP_FMAX => Some (fun x y => s_fmax x y)
  | OP_PRINTME => Some (fun x y => s_printme x y)
  | OP_ATAN2 => Some (fun x y => s_atan2 x y)
  | OP_IF_ELSE_ZERO => Some (fun x y => s_if_else_zero x y)
  | OP_LIFT => Some (fun x y => x)
  | _ =>
      match UnaryOperation_fcn I with
      | Some f => Some (fun x y => f x)
      | None => None
      end
  end.

(** [BinaryOperation<I>::der(x, y, f, d)]: the values written to [d[0]] and
    [d[1]]; the primary template takes [d[0]] from [UnaryOperation<I>::der]
    and sets [d[1] = 0]. *)
Definition BinaryOperation_der (I : Operation) : option (T -> T -> T -> T * T) :=
  match I with
  | OP_ADD => Some (fun x y f => (s_one, s_one))
  | OP_SUB => Some (fun x y f => (s_one, - s_one))
  | OP_MUL => Some (fun x y f => (y, x))
  | OP_DIV => Some (fun x y f => (s_one / y, - f / y))
  | OP_POW => Some (fun x y f => (y * s_pow x (y - s_one), s_log x * f))
  | OP_CONSTPOW => Some (fun x y f => (y * s_pow x (y - s_one), s_zero))
  | OP_LT => Some (fun x y f => (s_zero, s_zero))
  | OP_LE => Some (fun x y f => (s_zero, s_zero))
  | OP_FMOD => Some (fun x y f => (s_one, (f - x) / y))
  | OP_EQ => Some (fun x y f => (s_zero, s_zero))
  | OP_NE => Some (fun x y f => (s_zero, s_zero))
  | OP_AND => Some (fun x y f => (s_zero, s_zero))
  | OP_OR => Some (fun x y f => (s_zero, s_zero))
  | OP_COPYSIGN => Some (fun x y f => (s_copysign s_one y, s_zero))
  | OP_FMIN =>
      Some (fun x y f =>
              let d0 := s_of_bool (s_le x y) in
              (d0, s_of_bool (negb (s_truth d0))))
  | OP_FMAX =>
      Some (fun x y f =>
              let d0 := s_of_bool (s_ge x y) in
              (d0, s_of_bool (negb (s_truth d0))))
  | OP_PRINTME => Some (fun x y f => (s_one, s_zero))
  | OP_ATAN2 =>
      Some (fun x y f => let t := x * x + y * y in (y / t, - x / t))
  | OP_IF_ELSE_ZERO => Some (fun x y f => (s_zero, x))
  | OP_LIFT => Some (fun x y f => (s_one, s_zero))
  | _ =>
      match UnaryOperation_der I with
      | Some d => Some (fun x y f => (d x f, s_zero))
      | None => None
      end
  end.

(** [BinaryOperationE<I>::fcn] (lines 346-354). *)
Definition BinaryOperationE_fcn (I : Operation) : option (T -> T -> T) :=
  BinaryOperation_fcn I.

(** [DerBinaryOpertion<I>::derf] (lines 357-376): the function value goes to
    a temporary, the partial derivatives are taken with it, then [f] is set:
    returns [(f, d[0], d[1])]. *)
Definition DerBinaryOpertion_derf (I : Operation)
  : option (T -> T -> T * (T * T)) :=
  match BinaryOperation_fcn I, BinaryOperation_der I with
  | Some fcn, Some der =>
      Some (fun x y => let tmp := fcn x y in (tmp, der x y tmp))
  | _, _ => None
  end.

(** ** The vector forms (lines 379-445) *)

(** A buffer is the list of the coefficients from where its pointer points.
    A loop of [n] passes reads the first [n] of them, and reads out of range
    when there are fewer; the functions return the coefficients they write:
    [n] through [f], [2 n] through [d]. *)
Definition read (n : nat) (x : list T) : option (list T) :=
  if (n <=? length x)%nat then Some (firstn n x) else None.

(** [BinaryOperationSS<I>::fcn] and [der]: the scalar form, whatever [n]. *)
Definition BinaryOperationSS_fcn (I : Operation) (n : nat)
  : option (T -> T -> T) := BinaryOperation_fcn I.
Definition BinaryOperationSS_der (I : Operation) (n : nat)
  : option (T -> T -> T -> T * T) := BinaryOperation_der I.

(** The loop over [i < n] that applies [fcn] to the coefficients read and
    advances the three pointers. *)
Fixpoint fcn_loop (fcn : T -> T -> T) (x y : list T) : list T :=
  match x, y with
  | xi :: x', yi :: y' => fcn xi yi :: fcn_loop fcn x' y'
  | _, _ => []
  end.

(** The loop over [i < n] that applies [der] and advances [d] by two: the
    buffer [d] holds the two partial derivatives of coefficient [i] at
    [2 i] and [2 i + 1]. *)
Fixpoint der_loop (der : T -> T -> T -> T * T) (x y f : list T) : list T :=
  match x, y, f with
  | xi :: x', yi :: y', fi :: f' =>
      fst (der xi yi fi) :: snd (der xi yi fi) :: der_loop der x' y' f'
  | _, _, _ => []
  end.

Definition BinaryOperationVV_fcn (I : Operation) (x y : list T) (n : nat)
  : option (list T) :=
  match BinaryOperation_fcn I, read n x, read n y with
  | Some fcn, Some x, Some y => Some (fcn_loop fcn x y)
  | _, _, _ => None
  end.

Definition BinaryOperationVV_der (I : Operation) (x y f : list T) (n : nat)
  : option (list T) :=
  match BinaryOperation_der I, read n x, read n y, read n f with
  | Some der, Some x, Some y, Some f => Some (der_loop der x y f)
  | _, _, _, _ => None
  end.

(** The loops of [BinaryOperationVS] and of [BinaryOperationSV]: the pointer
    to the vector advances, the scalar is passed again in every pass. *)
Fixpoint fcn_loop_VS (fcn : T -> T -> T) (x : list T) (y : T) : list T :=
  match x with
  | xi :: x' => fcn xi y :: fcn_loop_VS fcn x' y
  | [] => []
  end.

Fixpoint der_loop_VS (der : T -> T -> T -> T * T) (x : list T) (y : T)
  (f : list T) : list T :=
  match x, f with
  | xi :: x', fi :: f' =>
      fst (der xi y fi) :: snd (der xi y fi) :: der_loop_VS der x' y f'
  | _, _ => []
  end.

Fixpoint fcn_loop_SV (fcn : T -> T -> T) (x : T) (y : list T) : list T :=
  match y with
  | yi :: y' => fcn x yi :: fcn_loop_SV fcn x y'
  | [] => []
  end.

Fixpoint der_loop_SV (der : T -> T -> T -> T * T) (x : T) (y f : list T)
  : list T :=
  match y, f with
  | yi :: y', fi :: f' =>
      fst (der x yi fi) :: snd (der x yi fi) :: der_loop_SV der x y' f'
  | _, _ => []
  end.

Definition BinaryOperationVS_fcn (I : Operation) (x : list T) (y : T) (n : nat)
  : option (list T) :=
  match BinaryOperation_fcn I, read n x with
  | Some fcn, Some x => Some (fcn_loop_VS fcn x y)
  | _, _ => None
  end.

Definition BinaryOperationVS_der (I : Operation) (x : list T) (y : T)
  (f : list T) (n : nat) : option (list T) :=
  match BinaryOperation_der I, read n x, read n f with
  | Some der, Some x, Some f => Some (der_loop_VS der x y f)
  | _, _, _ => None
  end.

Definition BinaryOperationSV_fcn (I : Operation) (x : T) (y : list T) (n : nat)
  : option (list T) :=
  match BinaryOperation_fcn I, read n y with
  | Some fcn, Some y => Some (fcn_loop_SV fcn x y)
  | _, _ => None
  end.

Definition BinaryOperationSV_der (I : Operation) (x : T) (y f : list T)
  (n : nat) : option (list T) :=
  match BinaryOperation_der I, read n y, read n f with
  | Some der, Some y, Some f => Some (der_loop_SV der x y f)
  | _, _, _ => None
  end.

End Operations.

End casadi.

Module casadiR.
(** ** The templates at the real numbers *)

Section RealScalar.
Import casadi.

(** The error function, its inverse and the two-argument arctangent are not
    defined by the standard library of the reals. *)
Variable erf : R -> R.
Variable erfinv : R -> R.
Variable atan2 : R -> R -> R.

Definition Rtruth (x : R) : bool := if Req_dec_T x 0 then false else true.
Definition Rlt_bool (x y : R) : bool := if Rlt_dec x y then true else false.
Definition Rle_bool (x y : R) : bool := if Rle_dec x y then true else false.
Definition Req_bool (x y : R) : bool := if Req_dec_T x y then true else false.
Definition Rof_bool (b : bool) : R := if b then 1%R else 0%R.

(** The integer nearest to [z] towards zero. *)
Definition Rtrunc (z : R) : R :=
  if Rle_dec 0 z then IZR (Int_part z) else (- IZR (Int_part (- z)))%R.

(** The real numbers as [T].  The functions that the header defines for
    [double] follow its formulas: [sign] (line 222), [fmin] and [fmax]
    ([std::min] and [std::max], lines 228-231), [copysign] (line 269),
    [if_else_zero] (line 276), [asinh], [acosh] and [atanh] (lines 204-216,
    where [atanh] returns an infinity at [±1], which the reals do not have).
    [floor] is [Int_part], [ceil x] is [- floor (- x)] and [fmod (x, y)] is
    [x - n y] for [n] the quotient [x / y] rounded towards zero.  Where a
    function of [<cmath>] has no real value (a division by [0], [log] and
    [pow] at a base that is not positive, [sqrt] below [0], [asin] and [acos]
    outside [[-1, 1]]) the real function has some value, on which no
    statement relies. *)
#[local] Instance real_scalar : Scalar :=
  {| T := R;
     s_zero := 0%R;
     s_one := 1%R;
     s_two := 2%R;
     s_pi := PI;
     s_of_bool := Rof_bool;
     s_truth := Rtruth;
     s_add := Rplus;
     s_sub := Rminus;
     s_mul := Rmult;
     s_div := Rdiv;
     s_neg := Ropp;
     s_lt := Rlt_bool;
     s_le := Rle_bool;
     s_ge := fun x y => Rle_bool y x;
     s_eq := Req_bool;
     s_ne := fun x y => negb (Req_bool x y);
     s_exp := exp;
     s_log := ln;
     s_pow := Rpower;
     s_sqrt := sqrt;
     s_sin := sin;
     s_cos := cos;
     s_tan := tan;
     s_asin := asin;
     s_acos := acos;
     s_atan := atan;
     s_sinh := sinh;
     s_cosh := cosh;
     s_tanh := tanh;
     s_asinh := fun x => ln (x + sqrt (1 + x * x));
     s_acosh := fun x => ln (x + sqrt (1 + x) * sqrt (x - 1));
     s_atanh := fun x => (/ 2 * ln ((1 + x) / (1 - x)))%R;
     s_floor := fun x => IZR (Int_part x);
     s_ceil := fun x => (- IZR (Int_part (- x)))%R;
     s_fmod := fun x y => (x - Rtrunc (x / y) * y)%R;
     s_fabs := Rabs;
     s_atan2 := atan2;
     s_sign := fun x => if Rlt_dec x 0 then (-1)%R
                        else if Rlt_dec 0 x then 1%R else x;
     s_fmin := fun x y => if Rlt_dec y x then y else x;
     s_fmax := fun x y => if Rlt_dec x y then y else x;
     s_erf := erf;
     s_erfinv := erfinv;
     s_constpow := Rpower;
     s_printme := fun x y => x;
     s_copysign := fun x y => if Rle_dec 0 y then Rabs x else (- Rabs x)%R;
     s_if_else_zero := fun x y => if Rtruth x then y else 0%R |}.

(** [DerBinaryOpertion<I>::derf] returns, at [(x, y)], the partial
    derivatives of the function it evaluates. *)
Definition is_gradient (I : Operation) (x y : R) : Prop :=
  match DerBinaryOpertion_derf I with
  | Some derf =>
      derivable_pt_lim (fun t => fst (derf t y)) x (fst (snd (derf x y)))
      /\ derivable_pt_lim (fun t => fst (derf x t)) y (snd (snd (derf x y)))
  | None => False
  end.

(** The same for the first argument alone. *)
Definition is_derivative (I : Operation) (x y : R) : Prop :=
  match DerBinaryOpertion_derf I with
  | Some derf =>
      derivable_pt_lim (fun t => fst (derf t y)) x (fst (snd (derf x y)))
  | None => False
  end.

(** [l] is the derivative of the function in its first argument, and in
    its second. *)
Definition partial_x (I : Operation) (x y l : R) : Prop :=
  match DerBinaryOpertion_derf I with
  | Some derf => derivable_pt_lim (fun t => fst (derf t y)) x l
  | None => False
  end.

Definition partial_y (I : Operation) (x y l : R) : Prop :=
  match DerBinaryOpertion_derf I with
  | Some derf => derivable_pt_lim (fun t => fst (derf x t)) y l
  | None => False
  end.

(** The values that [derf] leaves in [d[0]] and [d[1]]. *)
Definition derf_d (I : Operation) (x y : R) : option (R * R) :=
  match DerBinaryOpertion_derf I with
  | Some derf => Some (snd (derf x y))
  | None => None
  end.

End RealScalar.

End casadiR.

(** * Properties *)

(** ** Rational arithmetic is exact *)

Module RationalLaws.
Import Rational.

Lemma Q2R_Qred (q : Q) : Q2R (Qred q) = Q2R q.
Proof. apply Qeq_eqR, Qred_correct. Qed.

Lemma Qltb_Rlt (a b : Q) : Qltb a b = true <-> (Q2R a < Q2R b)%R.
Proof.
  unfold Qltb. rewrite negb_true_iff. split; intros H.
  - apply Qlt_Rlt. apply Qnot_le_lt. intros Hle.
    apply Qle_bool_iff in Hle. congruence.
  - destruct (Qle_bool b a) eqn:E; [|reflexivity].
    apply Qle_bool_iff, Qle_Rle in E. lra.
Qed.

Lemma Qle_bool_Rle (a b : Q) : Qle_bool a b = true <-> (Q2R a <= Q2R b)%R.
Proof.
  rewrite Qle_bool_iff. split; [apply Qle_Rle | apply Rle_Qle].
Qed.

Lemma Q2R_Qabs (a : Q) : Q2R (Qabs a) = Rabs (Q2R a).
Proof.
  apply Qabs_case; intros H; apply Qle_Rle in H.
  - rewrite Rabs_right; [reflexivity|]. change (Q2R 0) with (0 * / 1)%R in H. lra.
  - rewrite Q2R_opp, Rabs_left1; [reflexivity|].
    change (Q2R 0) with (0 * / 1)%R in H. lra.
Qed.

Lemma Q2R_nonzero (b : Q) : Q2R b <> 0%R -> ~ (b == 0)%Q.
Proof.
  intros H E. apply H. rewrite (Qeq_eqR _ _ E). unfold Q2R. simpl. lra.
Qed.

(** Rational arithmetic is exact, with [Q2R] as the denotation. *)
Lemma exact : ExactArith rational.
Proof.
  refine {| toR := Q2R : @real_t rational -> R |}.
  - unfold Q2R; simpl; lra.
  - unfold Q2R; simpl; lra.
  - unfold Q2R; simpl; lra.
  - unfold Q2R; simpl; lra.
  - unfold Q2R. cbn [r_epsilon rational Qnum Qden].
    apply Rmult_lt_0_compat; [lra|].
    apply Rinv_0_lt_compat, IZR_lt. reflexivity.
  - intros a b. change (Q2R (Qred (a + b)) = (Q2R a + Q2R b)%R).
    rewrite Q2R_Qred; apply Q2R_plus.
  - intros a b. change (Q2R (Qred (a - b)) = (Q2R a - Q2R b)%R).
    rewrite Q2R_Qred; apply Q2R_minus.
  - intros a b. change (Q2R (Qred (a * b)) = (Q2R a * Q2R b)%R).
    rewrite Q2R_Qred; apply Q2R_mult.
  - intros a b H. change (Q2R (Qred (a / b)) = (Q2R a / Q2R b)%R).
    rewrite Q2R_Qred; apply Q2R_div, Q2R_nonzero, H.
  - apply Q2R_opp.
  - apply Q2R_Qabs.
  - intros a b. change (Q2R (if Qltb a b then b else a) = Rmax (Q2R a) (Q2R b)).
    destruct (Qltb a b) eqn:E.
    + apply Qltb_Rlt in E. rewrite Rmax_right; lra.
    + rewrite Rmax_left; [reflexivity|].
      destruct (Rle_or_lt (Q2R b) (Q2R a)) as [H|H]; [exact H|].
      apply Qltb_Rlt in H. congruence.
  - intros a b. change (Q2R (if Qltb b a then b else a) = Rmin (Q2R a) (Q2R b)).
    destruct (Qltb b a) eqn:E.
    + apply Qltb_Rlt in E. rewrite Rmin_right; lra.
    + rewrite Rmin_left; [reflexivity|].
      destruct (Rle_or_lt (Q2R a) (Q2R b)) as [H|H]; [exact H|].
      apply Qltb_Rlt in H. congruence.
  - apply Qltb_Rlt.
  - apply Qle_bool_Rle.
  - reflexivity.
Defined.

End RationalLaws.

Section StageLemmas.
Context {RT : RealT}.
Variable LB : LBFGS_class.
Variable SLB : SpecializedLBFGS_class.
Variable params : PANOCParams.
Variable env : Environment.
Variable problem : Problem.
Variable Σ : vec.
Variable ε : real_t.

Local Notation State' := (State LB SLB).
Local Notation consistent' := (consistent problem Σ).
Local Notation shrinks' := (shrinks problem Σ).
Local Notation qub_pass' := (qub_pass problem Σ).
Local Notation qub_loop' := (qub_loop LB problem Σ).

(** *** The quadratic upper bound loop *)

Lemma qub_loop_shrinks (fuel : nat) (flush : bool) (y : vec) :
  forall (it it' : iterate) (lb lb' : lbfgs_t LB),
    qub_loop' fuel flush y it lb = Some (it', lb') ->
    shrinks' y it it' /\ qub_violated it' = false.
Proof.
  induction fuel as [|fuel IH]; intros it it' lb lb' H; simpl in H.
  - destruct (qub_violated it) eqn:V; [discriminate|].
    inversion H; subst. split; [constructor | exact V].
  - destruct (qub_violated it) eqn:V.
    + apply IH in H. destruct H as [Hs Hv]. split; [|exact Hv].
      now apply shrinks_pass.
    + inversion H; subst. split; [constructor | exact V].
Qed.

Lemma shrinks_ind_inv (P : iterate -> Prop) (y : vec) :
  (forall it, P it -> P (qub_pass' y it)) ->
  forall it it', shrinks' y it it' -> P it -> P it'.
Proof.
  intros Hpass it it' Hs. induction Hs; intros HP; [exact HP|].
  apply IHHs, Hpass, HP.
Qed.

Lemma qub_pass_consistent (y : vec) (it : iterate) :
  calc_ψ_grad_ψ problem (it_x it) y Σ = (it_ψ it, it_grad_ψ it) ->
  consistent' y (qub_pass' y it).
Proof.
  intros H. unfold qub_pass.
  destruct (calc_x_hat problem (it_γ it / r_two)%rt (it_x it) (it_grad_ψ it))
    as [[xh p] b] eqn:Ex.
  destruct (calc_ψ_ŷ problem xh y Σ) as [ψh ŷ] eqn:Ey.
  unfold consistent. cbn [it_x it_x_hat it_ŷ_x_hat it_p it_grad_ψ it_ψ
    it_ψ_hat_x it_γ it_grad_ψᵀp it_norm_sq_p].
  rewrite Ex, Ey. repeat split; auto.
Qed.

Lemma shrinks_consistent (y : vec) (it it' : iterate) :
  shrinks' y it it' -> consistent' y it -> consistent' y it'.
Proof.
  apply shrinks_ind_inv. intros it0 H. apply qub_pass_consistent, H.
Qed.

(** The loop as a number of passes: every pass but the last state is entered
    on a violated bound, each pass resets the buffer when [flush] is set, and
    the bound test fails on exit. *)
Lemma qub_loop_passes (fuel : nat) (flush : bool) (y : vec) :
  forall (it it' : iterate) (lb lb' : lbfgs_t LB),
    qub_loop' fuel flush y it lb = Some (it', lb') ->
    exists n : nat,
      (n <= fuel)%nat
      /\ it' = Nat.iter n (qub_pass' y) it
      /\ (forall j, (j < n)%nat ->
                    qub_violated (Nat.iter j (qub_pass' y) it) = true)
      /\ lb' = Nat.iter n (fun b => if flush then lbfgs_reset LB b else b) lb
      /\ qub_violated it' = false.
Proof.
  induction fuel as [|fuel IH]; intros it it' lb lb' H; simpl in H.
  - destruct (qub_violated it) eqn:V; [discriminate|].
    inversion H; subst. exists 0%nat.
    repeat split; auto; try lia; intros j Hj; lia.
  - destruct (qub_violated it) eqn:V.
    + apply IH in H. destruct H as (n & Hn & Hit & Hj & Hlb & Hv).
      exists (S n). rewrite !Nat.iter_succ_r.
      split; [lia|]. split; [exact Hit|]. split; [|split; assumption].
      intros [|j] Hlt; [exact V|]. rewrite Nat.iter_succ_r. apply Hj. lia.
    + inversion H; subst. exists 0%nat.
      repeat split; auto; try lia; intros j Hj; lia.
Qed.

(** With fuel for its passes the loop returns. *)
Lemma qub_loop_returns (flush : bool) (y : vec) (n : nat) :
  forall (fuel : nat) (it : iterate) (lb : lbfgs_t LB),
    (n <= fuel)%nat ->
    (forall j, (j < n)%nat ->
               qub_violated (Nat.iter j (qub_pass' y) it) = true) ->
    qub_violated (Nat.iter n (qub_pass' y) it) = false ->
    qub_loop' fuel flush y it lb
    = Some (Nat.iter n (qub_pass' y) it,
            Nat.iter n (fun b => if flush then lbfgs_reset LB b else b) lb).
Proof.
  induction n as [|n IH]; intros fuel it lb Hn Hj Hv.
  - simpl in Hv. destruct fuel; simpl; rewrite Hv; reflexivity.
  - destruct fuel as [|fuel]; [lia|]. simpl qub_loop.
    pose proof (Hj 0%nat ltac:(lia)) as H0. simpl in H0. rewrite H0.
    rewrite !Nat.iter_succ_r.
    apply IH; [lia| |rewrite <- Nat.iter_succ_r; exact Hv].
    intros j Hlt. rewrite <- Nat.iter_succ_r. apply Hj. lia.
Qed.

Lemma set_φ_consistent (y : vec) (it : iterate) (φ : real_t) :
  consistent' y it -> consistent' y (set_φ it φ).
Proof. intros H. exact H. Qed.

Lemma evaluate_candidate_consistent (y : vec) (c old : iterate) (x_next : vec) :
  consistent' y (evaluate_candidate problem Σ y c old x_next).
Proof.
  unfold evaluate_candidate.
  destruct (calc_ψ_grad_ψ problem x_next y Σ) as [ψn gn] eqn:Eg.
  destruct (calc_x_hat problem (it_γ c) x_next gn) as [[xh p] b] eqn:Ex.
  destruct (calc_ψ_ŷ problem xh y Σ) as [ψh ŷ] eqn:Ey.
  unfold consistent. cbn [it_x it_x_hat it_ŷ_x_hat it_p it_grad_ψ it_ψ
    it_ψ_hat_x it_γ it_grad_ψᵀp it_norm_sq_p].
  rewrite Eg, Ex, Ey. repeat split; auto.
Qed.

(** *** The line search *)

(** The result of one pass of the line search, in terms of the state it
    started from. *)
Lemma ls_pass_spec (fuel : nat) (st st' : State') (τ τ' lc : real_t) :
  ls_pass params problem Σ fuel st τ = Some (st', τ', lc) ->
  exists (n1 : iterate) (lb : lbfgs_t LB),
    let y := out_y (caller st) in
    let n0 := evaluate_candidate problem Σ y (cur st) (nxt st)
                (fst (candidate params st τ)) in
    shrinks' y n0 n1
    /\ (if update_lipschitz_in_linesearch params
        then qub_violated n1 = false else n1 = n0)
    /\ st' = set_lbfgs
               (set_iterates st
                  (set_x_hat (cur st) (snd (candidate params st τ)))
                  (set_φ n1 (fbe n1))) lb
    /\ τ' = (τ / r_two)%rt
    /\ lc = (fbe n1 - (it_φ (cur st) - σ_norm_γ_inv_p (cur st)))%rt.
Proof.
  unfold ls_pass. destruct (candidate params st τ) as [x_next xh] eqn:Ec.
  destruct (update_lipschitz_in_linesearch params) eqn:Eu.
  - destruct (qub_loop' fuel (negb (specialized_lbfgs params))
                (out_y (caller st))
                (evaluate_candidate problem Σ (out_y (caller st)) (cur st)
                   (nxt st) x_next) (lbfgs st)) as [[n1 lb]|] eqn:Eq;
      [|discriminate].
    intros H. inversion H; subst. exists n1, lb. cbn [fst snd].
    apply qub_loop_shrinks in Eq. destruct Eq as [Hs Hv].
    repeat split; auto.
  - intros H. inversion H; subst.
    exists (evaluate_candidate problem Σ (out_y (caller st)) (cur st)
              (nxt st) x_next), (lbfgs st).
    cbn [fst snd]. repeat split; auto. constructor.
Qed.

(** The accepted candidate of the whole [do ... while] loop, in terms of the
    state the loop started from. *)
Lemma ls_loop_spec (fuel : nat) :
  forall (passes : nat) (st st' : State') (τ τ' lc : real_t),
    ls_loop params problem Σ passes fuel st τ = Some (st', τ', lc) ->
    exists (n1 old : iterate) (x_next xh : vec) (lb : lbfgs_t LB) (τ0 : real_t),
      let y := out_y (caller st) in
      let n0 := evaluate_candidate problem Σ y (cur st) old x_next in
      shrinks' y n0 n1
      /\ (if update_lipschitz_in_linesearch params
          then qub_violated n1 = false else n1 = n0)
      /\ st' = set_lbfgs
                 (set_iterates st (set_x_hat (cur st) xh) (set_φ n1 (fbe n1))) lb
      /\ τ' = (τ0 / r_two)%rt
      /\ lc = (fbe n1 - (it_φ (cur st) - σ_norm_γ_inv_p (cur st)))%rt
      /\ ls_again params lc τ' = false.
Proof.
  induction passes as [|passes IH]; intros st st' τ τ' lc H; [discriminate|].
  simpl in H.
  destruct (ls_pass params problem Σ fuel st τ) as [[[st1 τ1] lc1]|] eqn:Ep;
    [|discriminate].
  apply ls_pass_spec in Ep.
  destruct Ep as (n1 & lb & Hs & Hq & Hst & Hτ & Hlc). cbn zeta in *.
  destruct (ls_again params lc1 τ1) eqn:Ea.
  - apply IH in H.
    destruct H as (n2 & old & x_next & xh & lb2 & τ0 & Hs2 & Hq2 & Hst2 & Hτ2 & Hlc2 & Ha2).
    cbn zeta in *. subst st1.
    exists n2, old, x_next, xh, lb2, τ0. cbn zeta.
    repeat split; auto.
  - inversion H; subst st' τ' lc.
    exists n1, (nxt st), (fst (candidate params st τ)),
      (snd (candidate params st τ)), lb, τ.
    cbn zeta. subst. repeat split; auto.
Qed.


(** *** Frame facts: what each stage leaves alone *)

Ltac break_match :=
  repeat match goal with
         | |- context [match ?x with _ => _ end] => destruct x eqn:?
         | |- context [if ?b then _ else _] => destruct b eqn:?
         end.

Lemma quasi_newton_frame (k : nat) (st : State') :
  let st1 := quasi_newton params k st in
  cur st1 = cur st /\ nxt st1 = nxt st
  /\ world st1 = world st /\ s st1 = s st.
Proof. unfold quasi_newton. break_match; repeat split. Qed.

Lemma initial_τ_frame (k : nat) (st : State') :
  let st1 := fst (initial_τ params k st) in
  cur st1 = cur st /\ nxt st1 = nxt st
  /\ world st1 = world st
  /\ linesearch_failures (s st1) = linesearch_failures (s st).
Proof. unfold initial_τ. break_match; repeat split. Qed.

Lemma count_linesearch_failure_frame (k : nat) (τ : real_t) (st : State') :
  let st1 := count_linesearch_failure params k τ st in
  cur st1 = cur st /\ nxt st1 = nxt st
  /\ world st1 = world st
  /\ linesearch_failures (s st1)
     = (linesearch_failures (s st)
        + (if r_ltb τ (τ_min params) && negb (k =? 0)%nat then 1 else 0))%nat.
Proof.
  unfold count_linesearch_failure.
  destruct (r_ltb τ (τ_min params) && negb (k =? 0)%nat); simpl;
    repeat split; lia.
Qed.

Lemma update_lbfgs_frame (st : State') :
  let st1 := update_lbfgs params problem st in
  cur st1 = cur st /\ nxt st1 = nxt st
  /\ world st1 = world st
  /\ linesearch_failures (s st1) = linesearch_failures (s st).
Proof. unfold update_lbfgs. break_match; repeat split. Qed.

(** *** An accepted step *)

(** What [accept_step] does to the iterates: the new current iterate is the
    accepted candidate, evaluated with the scalars of the old one and shrunk
    by the loop at lines 432-450, with its envelope stored. *)
Lemma accept_step_spec (fuel k : nat) (st st' : State') :
  accept_step params problem Σ fuel k st = Some st' ->
  exists (n1 old : iterate) (x_next xh : vec) (τ' lc : real_t),
    let y := out_y (caller st) in
    let n0 := evaluate_candidate problem Σ y (cur st) old x_next in
    shrinks' y n0 n1
    /\ (if update_lipschitz_in_linesearch params
        then qub_violated n1 = false else n1 = n0)
    /\ cur st' = set_φ n1 (fbe n1)
    /\ nxt st' = set_x_hat (cur st) xh
    /\ world st' = world st
    /\ lc = (fbe n1 - (it_φ (cur st) - σ_norm_γ_inv_p (cur st)))%rt
    /\ ls_again params lc τ' = false
    /\ linesearch_failures (s st')
       = (linesearch_failures (s st)
          + (if r_ltb τ' (τ_min params) && negb (k =? 0)%nat then 1 else 0))%nat.
Proof.
  unfold accept_step.
  pose proof (quasi_newton_frame k st) as Hq.
  pose proof (initial_τ_frame k (quasi_newton params k st)) as Hi.
  destruct (initial_τ params k (quasi_newton params k st)) as [st1 τ0] eqn:E0.
  cbn zeta in Hq, Hi. cbn [fst] in Hi.
  destruct Hq as (Hq1 & Hq2 & Hq3 & Hq4).
  destruct Hi as (Hi1 & Hi2 & Hi3 & Hi4).
  destruct (ls_loop params problem Σ fuel fuel st1 τ0) as [[[st2 τ'] lc]|] eqn:El;
    [|discriminate].
  intros H. inversion H; subst st'; clear H.
  apply ls_loop_spec in El.
  destruct El as (n1 & old & x_next & xh & lb & τ1 & Hs & Hf & Hst & Hτ & Hlc & Ha).
  cbn zeta in *.
  pose proof (count_linesearch_failure_frame k τ' st2) as Hc.
  pose proof (update_lbfgs_frame (count_linesearch_failure params k τ' st2)) as Hu.
  cbn zeta in Hc, Hu.
  destruct Hc as (Hc1 & Hc2 & Hc3 & Hc4).
  destruct Hu as (Hu1 & Hu2 & Hu3 & Hu4).
  assert (Hy : out_y (caller st1) = out_y (caller st)).
  { unfold world in Hi3, Hq3. congruence. }
  assert (Hcur : cur st1 = cur st) by congruence.
  rewrite Hy, Hcur in Hs, Hf. rewrite Hcur in Hst, Hlc.
  exists n1, old, x_next, xh, τ', lc. cbn zeta.
  split; [exact Hs|]. split; [exact Hf|].
  split.
  { unfold advance. cbn [cur set_iterates]. rewrite Hu2, Hc2, Hst. reflexivity. }
  split.
  { unfold advance. cbn [nxt set_iterates]. rewrite Hu1, Hc1, Hst. reflexivity. }
  split.
  { transitivity (world (update_lbfgs params problem
                           (count_linesearch_failure params k τ' st2)));
      [reflexivity|].
    rewrite Hu3, Hc3, Hst. transitivity (world st1); [reflexivity|].
    congruence. }
  split; [exact Hlc|]. split; [exact Ha|].
  unfold advance. cbn [s set_iterates]. rewrite Hu4, Hc4, Hst.
  cbn [s set_lbfgs set_iterates]. rewrite Hi4, Hq4. reflexivity.
Qed.

(** *** The stopping test *)

(** The nested [if] of lines 303-379 as one cascade, in the order in which the
    code classifies an exit. *)
Lemma check_stop_cascade (k : nat) (εₖ : real_t) (st : State') :
  check_stop params env problem Σ ε k εₖ st =
  if r_leb εₖ ε then Exit (exit_state env problem Σ k εₖ st true false Converged)
  else if (max_time params <? time_elapsed env st)%Z
       then Exit (exit_state env problem Σ k εₖ st true false MaxTime)
  else if (k =? max_iter params)%nat
       then Exit (exit_state env problem Σ k εₖ st true false MaxIter)
  else if negb (r_isfinite εₖ)
       then Exit (exit_state env problem Σ k εₖ st false false NotFinite)
  else if stop_signal_load env (stop_loads st)
       then Exit (exit_state env problem Σ k εₖ st true true Interrupted)
  else Continue (tick_stop (tick_clock st)).
Proof.
  unfold check_stop, exit_state, time_elapsed.
  cbn [start_time clock_reads stop_loads tick_clock].
  destruct (r_leb εₖ ε); [reflexivity|].
  destruct (max_time params <? _)%Z.
  - rewrite orb_true_r. reflexivity.
  - destruct (k =? max_iter params)%nat; [reflexivity|].
    cbn [orb]. destruct (r_isfinite εₖ); cbn [negb]; [|reflexivity].
    destruct (stop_signal_load env (stop_loads st)); reflexivity.
Qed.

(** *** One iteration *)

(** The state at the stopping test of an iteration and what follows it. *)
Lemma iteration_spec (fuel k : nat) (st : State') (fl : Flow LB SLB) :
  iteration params env problem Σ ε fuel k st = Some fl ->
  exists (it : iterate) (st3 : State'),
    shrinks' (out_y (caller st)) (cur st) it
    /\ (if (k =? 0)%nat || negb (update_lipschitz_in_linesearch params)
        then qub_violated it = false else it = cur st)
    /\ cur st3 = it /\ nxt st3 = nxt st
    /\ world st3 = world st /\ s st3 = s st
    /\ grad_hat_ψₖ st3
       = calc_grad_ψ_from_ŷ problem (it_x_hat it) (it_ŷ_x_hat it)
    /\ match check_stop params env problem Σ ε k
               (calc_error_stop_crit (it_p it) (it_γ it) (grad_hat_ψₖ st3)
                  (it_grad_ψ it)) st3 with
       | Exit r => fl = Exit r
       | Continue st4 =>
           exists st', accept_step params problem Σ fuel k st4 = Some st'
                       /\ fl = Continue st'
       end.
Proof.
  unfold iteration. intros H.
  destruct (upper_bound_fit params problem Σ fuel k st) as [st1|] eqn:Eu;
    [|discriminate].
  assert (Hfit : shrinks' (out_y (caller st)) (cur st) (cur st1)
                 /\ (if (k =? 0)%nat || negb (update_lipschitz_in_linesearch params)
                     then qub_violated (cur st1) = false else cur st1 = cur st)
                 /\ nxt st1 = nxt st /\ world st1 = world st /\ s st1 = s st).
  { unfold upper_bound_fit in Eu.
    destruct ((k =? 0)%nat || negb (update_lipschitz_in_linesearch params)).
    - destruct (qub_loop' fuel ((0 <? k)%nat && negb (specialized_lbfgs params))
                  (out_y (caller st)) (cur st) (lbfgs st)) as [[it lb]|] eqn:Eq;
        [|discriminate].
      apply qub_loop_shrinks in Eq. destruct Eq as [Hs Hv].
      inversion Eu; subst st1. repeat split; assumption.
    - inversion Eu; subst st1. repeat split. constructor. }
  destruct Hfit as (Hs & Hv & Hn & Hw & Hss).
  destruct (stop_crit problem (initialize_slbfgs params k st1)) as [st3 εₖ] eqn:Ec.
  assert (Hst3 : cur st3 = cur st1 /\ nxt st3 = nxt st1
                 /\ world st3 = world st1 /\ s st3 = s st1
                 /\ grad_hat_ψₖ st3
                    = calc_grad_ψ_from_ŷ problem (it_x_hat (cur st1))
                        (it_ŷ_x_hat (cur st1))
                 /\ εₖ = calc_error_stop_crit (it_p (cur st1)) (it_γ (cur st1))
                           (grad_hat_ψₖ st3) (it_grad_ψ (cur st1))).
  { unfold stop_crit, initialize_slbfgs in Ec.
    destruct (specialized_lbfgs params && (k =? 0)%nat);
      inversion Ec; subst; repeat split. }
  destruct Hst3 as (H1 & H2 & H3 & H4 & H5 & H6).
  exists (cur st1), st3.
  split; [exact Hs|]. split; [exact Hv|]. split; [exact H1|].
  split; [congruence|]. split; [congruence|]. split; [congruence|].
  split; [exact H5|]. rewrite <- H6.
  destruct (check_stop params env problem Σ ε k εₖ st3) as [r|st4].
  - now inversion H.
  - destruct (accept_step params problem Σ fuel k st4) as [st'|];
      [|discriminate].
    inversion H. eauto.
Qed.

(** The stages of an iteration by name: the state the upper bound fit
    returns, the state at the stopping test and what follows it. *)
Lemma iteration_stages (fuel k : nat) (st : State') (fl : Flow LB SLB) :
  iteration params env problem Σ ε fuel k st = Some fl ->
  exists (st1 st3 : State'),
    upper_bound_fit params problem Σ fuel k st = Some st1
    /\ world st1 = world st
    /\ cur st3 = cur st1
    /\ world st3 = world st
    /\ s st3 = s st
    /\ grad_hat_ψₖ st3
       = calc_grad_ψ_from_ŷ problem (it_x_hat (cur st1)) (it_ŷ_x_hat (cur st1))
    /\ match check_stop params env problem Σ ε k
               (calc_error_stop_crit (it_p (cur st1)) (it_γ (cur st1))
                  (calc_grad_ψ_from_ŷ problem (it_x_hat (cur st1))
                     (it_ŷ_x_hat (cur st1)))
                  (it_grad_ψ (cur st1))) st3 with
       | Exit r => fl = Exit r
       | Continue st4 =>
           exists st', accept_step params problem Σ fuel k st4 = Some st'
                       /\ fl = Continue st'
       end.
Proof.
  unfold iteration. intros H.
  destruct (upper_bound_fit params problem Σ fuel k st) as [st1|] eqn:Eu;
    [|discriminate].
  assert (Hfit : world st1 = world st /\ s st1 = s st).
  { unfold upper_bound_fit in Eu.
    destruct ((k =? 0)%nat || negb (update_lipschitz_in_linesearch params)).
    - destruct (qub_loop' fuel ((0 <? k)%nat && negb (specialized_lbfgs params))
                  (out_y (caller st)) (cur st) (lbfgs st)) as [[it lb]|];
        [|discriminate].
      inversion Eu; subst st1. split; reflexivity.
    - inversion Eu; subst st1. split; reflexivity. }
  destruct Hfit as (Hw & Hss).
  destruct (stop_crit problem (initialize_slbfgs params k st1)) as [st3 εₖ] eqn:Ec.
  assert (Hst3 : cur st3 = cur st1
                 /\ world st3 = world st1 /\ s st3 = s st1
                 /\ grad_hat_ψₖ st3
                    = calc_grad_ψ_from_ŷ problem (it_x_hat (cur st1))
                        (it_ŷ_x_hat (cur st1))
                 /\ εₖ = calc_error_stop_crit (it_p (cur st1)) (it_γ (cur st1))
                           (calc_grad_ψ_from_ŷ problem (it_x_hat (cur st1))
                              (it_ŷ_x_hat (cur st1)))
                           (it_grad_ψ (cur st1))).
  { unfold stop_crit, initialize_slbfgs in Ec.
    destruct (specialized_lbfgs params && (k =? 0)%nat);
      inversion Ec; subst; repeat split. }
  destruct Hst3 as (H1 & H3 & H4 & H5 & H6).
  exists st1, st3.
  split; [reflexivity|]. split; [exact Hw|]. split; [exact H1|].
  split; [congruence|]. split; [congruence|]. split; [exact H5|].
  rewrite <- H6.
  destruct (check_stop params env problem Σ ε k εₖ st3) as [r|st4].
  - now inversion H.
  - destruct (accept_step params problem Σ fuel k st4) as [st'|];
      [|discriminate].
    inversion H. eauto.
Qed.

Lemma check_stop_continue (k : nat) (εₖ : real_t) (st st4 : State') :
  check_stop params env problem Σ ε k εₖ st = Continue st4 ->
  st4 = tick_stop (tick_clock st)
  /\ r_leb εₖ ε = false
  /\ (max_time params <? time_elapsed env st)%Z = false
  /\ (k =? max_iter params)%nat = false
  /\ r_isfinite εₖ = true
  /\ stop_signal_load env (stop_loads st) = false.
Proof.
  rewrite check_stop_cascade.
  destruct (r_leb εₖ ε); [discriminate|].
  destruct (max_time params <? _)%Z; [discriminate|].
  destruct (k =? max_iter params)%nat; [discriminate|].
  destruct (r_isfinite εₖ); cbn [negb]; [|discriminate].
  destruct (stop_signal_load env (stop_loads st)); [discriminate|].
  intros H. inversion H. repeat split.
Qed.

(** *** The main loop *)

Lemma main_loop_returns (fuel : nat) (st0 : State') (r : State') :
  forall (remaining k : nat) (st : State'),
    reach params env problem Σ ε fuel st0 k st ->
    main_loop params env problem Σ ε fuel remaining k st = Returned r ->
    exists (k' : nat) (st' : State'),
      reach params env problem Σ ε fuel st0 k' st'
      /\ (k <= k' < k + remaining)%nat
      /\ iteration params env problem Σ ε fuel k' st' = Some (Exit r).
Proof.
  induction remaining as [|remaining IH]; intros k st Hr H; simpl in H;
    [discriminate|].
  destruct (iteration params env problem Σ ε fuel k st) as [[r'|st']|] eqn:Ei;
    [| |discriminate].
  - inversion H; subst r'. exists k, st. repeat split; auto; lia.
  - apply IH in H; [|econstructor; eassumption].
    destruct H as (k' & st'' & H1 & H2 & H3).
    exists k', st''. repeat split; auto; lia.
Qed.

(** The last value of [k] always returns: the [throw] after the loop is
    never reached. *)
Lemma main_loop_no_throw (fuel : nat) :
  forall (remaining k : nat) (st : State'),
    (k + remaining = max_iter params)%nat ->
    main_loop params env problem Σ ε fuel (S remaining) k st <> LogicError.
Proof.
  induction remaining as [|remaining IH]; intros k st Hk; simpl;
    destruct (iteration params env problem Σ ε fuel k st) as [[r'|st']|] eqn:Ei;
    try discriminate.
  - exfalso. apply iteration_spec in Ei.
    destruct Ei as (it & st3 & _ & _ & _ & _ & _ & _ & _ & Hc).
    destruct (check_stop params env problem Σ ε k _ st3) as [r|st4] eqn:Ec.
    + discriminate.
    + apply check_stop_continue in Ec. destruct Ec as (_ & _ & _ & Hk' & _).
      apply Nat.eqb_neq in Hk'. lia.
  - apply (IH (S k) st'). lia.
Qed.

(** *** The invariant at the head of the loop *)

Lemma initialize_head (x z y err_z : vec) (st0 : State') :
  initialize LB SLB params env problem Σ x z y err_z = Continue st0 ->
  head_inv params env problem Σ x z y err_z 0 st0.
Proof.
  unfold initialize.
  destruct (calc_ψ_grad_ψ problem x y Σ) as [ψ0 g0] eqn:Eg.
  destruct (clamp_L _) as [L|]; [|discriminate].
  destruct (calc_x_hat problem _ x g0) as [[xh p] b] eqn:Ex.
  destruct (calc_ψ_ŷ problem xh y Σ) as [ψh ŷ] eqn:Ey.
  intros H. inversion H; subst st0; clear H.
  unfold head_inv, consistent.
  cbn [caller start_time clock_reads stop_loads cur it_x it_x_hat it_ŷ_x_hat
       it_p it_grad_ψ it_ψ it_ψ_hat_x it_γ it_grad_ψᵀp it_norm_sq_p].
  rewrite Eg, Ex, Ey. repeat split.
Qed.

Lemma iteration_head (x z y err_z : vec) (fuel k : nat) (st st' : State') :
  head_inv params env problem Σ x z y err_z k st ->
  iteration params env problem Σ ε fuel k st = Some (Continue st') ->
  head_inv params env problem Σ x z y err_z (S k) st'.
Proof.
  intros (Hc & Ht & Hr & Hl & Hcons) Hi.
  apply iteration_spec in Hi.
  destruct Hi as (it & st3 & Hs & _ & Hcur & _ & Hw & _ & _ & Hm).
  destruct (check_stop params env problem Σ ε k _ st3) as [r|st4] eqn:Ec;
    [discriminate|].
  destruct Hm as (st'' & Ha & Heq). inversion Heq; subst st''; clear Heq.
  apply check_stop_continue in Ec. destruct Ec as (E4 & _).
  apply accept_step_spec in Ha.
  destruct Ha as (n1 & old & x_next & xh & τ' & lc & Hs1 & _ & Hc1 & _ & Hw1 & _).
  cbn zeta in Hs1.
  unfold world in Hw. injection Hw as Hwa Hwb Hwc Hwd.
  assert (Hw4 : world st4
                = (caller st, start_time st, S (clock_reads st), S (stop_loads st))).
  { subst st4. unfold world. cbn. congruence. }
  rewrite Hw4 in Hw1. unfold world in Hw1. injection Hw1 as H1 H2 H3 H4.
  assert (Hy : out_y (caller st4) = y).
  { subst st4. cbn. rewrite Hwa, Hc. reflexivity. }
  rewrite Hy in Hs1.
  unfold head_inv. rewrite H1, H2, H3, H4, Hc1.
  split; [congruence|]. split; [congruence|]. split; [congruence|].
  split; [congruence|].
  apply set_φ_consistent.
  eapply shrinks_consistent; [exact Hs1|].
  apply evaluate_candidate_consistent.
Qed.

Lemma reach_head (x z y err_z : vec) (fuel : nat) (st0 : State') :
  initialize LB SLB params env problem Σ x z y err_z = Continue st0 ->
  forall (k : nat) (st : State'),
    reach params env problem Σ ε fuel st0 k st ->
    head_inv params env problem Σ x z y err_z k st.
Proof.
  intros H0 k st Hr. induction Hr.
  - now apply initialize_head.
  - eapply iteration_head; eassumption.
Qed.

Lemma check_stop_exit (k : nat) (εₖ : real_t) (st r : State') :
  check_stop params env problem Σ ε k εₖ st = Exit r ->
  exists (written polled : bool) (status : SolverStatus),
    r = exit_state env problem Σ k εₖ st written polled status
    /\ code_status (r_leb εₖ ε) (k =? max_iter params)%nat
         (max_time params <? time_elapsed env st)%Z (negb (r_isfinite εₖ))
         (stop_signal_load env (stop_loads st)) = Some status
    /\ written = match status with NotFinite => false | _ => true end
    /\ polled = match status with Interrupted => true | _ => false end.
Proof.
  rewrite check_stop_cascade. unfold code_status.
  destruct (r_leb εₖ ε).
  { intros H; inversion H. exists true, false, Converged. repeat split. }
  destruct (max_time params <? _)%Z.
  { intros H; inversion H. exists true, false, MaxTime. repeat split. }
  destruct (k =? max_iter params)%nat.
  { intros H; inversion H. exists true, false, MaxIter. repeat split. }
  destruct (r_isfinite εₖ); cbn [negb].
  2:{ intros H; inversion H. exists false, false, NotFinite. repeat split. }
  destruct (stop_signal_load env (stop_loads st)); [|discriminate].
  intros H; inversion H. exists true, true, Interrupted. repeat split.
Qed.

Lemma exit_state_proj (k : nat) (εₖ : real_t) (st : State')
  (written polled : bool) (status : SolverStatus) :
  let r := exit_state env problem Σ k εₖ st written polled status in
  cur r = cur st /\ grad_hat_ψₖ r = grad_hat_ψₖ st
  /\ s r = set_exit (s st) k εₖ
             (duration_cast_microseconds env (time_elapsed env st)) status
  /\ caller r = (if written
                 then written_outputs problem Σ (out_y (caller st)) (cur st)
                 else caller st)
  /\ stop_loads r = (if polled then S (stop_loads st) else stop_loads st)
  /\ clock_reads r = S (clock_reads st).
Proof. destruct written, polled; repeat split. Qed.

(** The stopping test of a reachable iteration. *)
Lemma iteration_at_stop (x z y err_z : vec) (fuel k : nat) (st0 st : State')
  (fl : Flow LB SLB) :
  initialize LB SLB params env problem Σ x z y err_z = Continue st0 ->
  reach params env problem Σ ε fuel st0 k st ->
  iteration params env problem Σ ε fuel k st = Some fl ->
  exists (st3 : State'),
    at_stop_test params env problem Σ x z y err_z k st3
    /\ match check_stop params env problem Σ ε k
               (calc_error_stop_crit (it_p (cur st3)) (it_γ (cur st3))
                  (grad_hat_ψₖ st3) (it_grad_ψ (cur st3))) st3 with
       | Exit r => fl = Exit r
       | Continue st4 =>
           exists st', accept_step params problem Σ fuel k st4 = Some st'
                       /\ fl = Continue st'
       end.
Proof.
  intros H0 Hr Hi.
  apply (reach_head _ _ _ _ H0) in Hr.
  destruct Hr as (Hc & Ht & Hcr & Hl & Hcons).
  apply iteration_spec in Hi.
  destruct Hi as (it & st3 & Hs & _ & Hcur & _ & Hw & _ & Hg & Hm).
  unfold world in Hw. injection Hw as Hwa Hwb Hwc Hwd.
  exists st3. rewrite Hcur. split; [|exact Hm].
  split; [|rewrite Hcur; exact Hg].
  unfold head_inv. rewrite Hwa, Hwb, Hwc, Hwd, Hcur.
  split; [exact Hc|]. split; [exact Ht|]. split; [exact Hcr|].
  split; [exact Hl|].
  eapply shrinks_consistent; [|exact Hcons].
  rewrite Hc in Hs. exact Hs.
Qed.

(** Every return from the main loop happens at the stopping test of some
    iteration [k <= max_iter], in the exit state of one of the five
    statuses. *)
Lemma loop_exit (x z y err_z : vec) (fuel : nat) (st0 r : State') :
  initialize LB SLB params env problem Σ x z y err_z = Continue st0 ->
  main_loop params env problem Σ ε fuel (S (max_iter params)) 0 st0 = Returned r ->
  exists (k : nat) (st3 : State') (εₖ : real_t) (written polled : bool)
         (status : SolverStatus),
    (k <= max_iter params)%nat
    /\ at_stop_test params env problem Σ x z y err_z k st3
    /\ εₖ = calc_error_stop_crit (it_p (cur st3)) (it_γ (cur st3))
              (grad_hat_ψₖ st3) (it_grad_ψ (cur st3))
    /\ r = exit_state env problem Σ k εₖ st3 written polled status
    /\ code_status (r_leb εₖ ε) (k =? max_iter params)%nat
         (max_time params <? time_elapsed env st3)%Z (negb (r_isfinite εₖ))
         (stop_signal_load env (stop_loads st3)) = Some status
    /\ written = match status with NotFinite => false | _ => true end
    /\ polled = match status with Interrupted => true | _ => false end.
Proof.
  intros H0 Hm.
  apply (main_loop_returns (st0 := st0)) in Hm; [|constructor].
  destruct Hm as (k & st & Hr & Hk & Hi).
  destruct (iteration_at_stop _ _ _ _ H0 Hr Hi) as (st3 & Hat & Hm).
  destruct (check_stop params env problem Σ ε k _ st3) as [r'|st4] eqn:Ec.
  2:{ destruct Hm as (? & _ & ?). discriminate. }
  inversion Hm; subst r'; clear Hm.
  apply check_stop_exit in Ec.
  destruct Ec as (w & p & stt & Hr' & Hcode & Hw' & Hp').
  exists k, st3, (calc_error_stop_crit (it_p (cur st3)) (it_γ (cur st3))
                    (grad_hat_ψₖ st3) (it_grad_ψ (cur st3))), w, p, stt.
  split; [lia|]. repeat split; try assumption; apply Hat.
Qed.

(** Once the upper bound fit of an iteration is done, a set stop flag ends
    the call there, with no further loop to run, if none of the earlier tests
    fires. *)
Lemma iteration_interrupts (fuel k : nat) (st st1 : State') :
  upper_bound_fit params problem Σ fuel k st = Some st1 ->
  let εₖ := calc_error_stop_crit (it_p (cur st1)) (it_γ (cur st1))
              (calc_grad_ψ_from_ŷ problem (it_x_hat (cur st1))
                 (it_ŷ_x_hat (cur st1)))
              (it_grad_ψ (cur st1)) in
  r_leb εₖ ε = false ->
  (k =? max_iter params)%nat = false ->
  (max_time params <? time_elapsed env st)%Z = false ->
  r_isfinite εₖ = true ->
  stop_signal_load env (stop_loads st) = true ->
  exists r : State',
    iteration params env problem Σ ε fuel k st = Some (Exit r)
    /\ status (s r) = Interrupted.
Proof.
  intros Hfit εₖ H1 H2 H3 H4 H5.
  assert (Hw : world st1 = world st).
  { unfold upper_bound_fit in Hfit.
    destruct ((k =? 0)%nat || negb (update_lipschitz_in_linesearch params)).
    - destruct (qub_loop' fuel _ (out_y (caller st)) (cur st) (lbfgs st))
        as [[it lb]|]; [|discriminate].
      inversion Hfit. reflexivity.
    - inversion Hfit. reflexivity. }
  unfold world in Hw. injection Hw as Hwa Hwb Hwc Hwd.
  unfold iteration. rewrite Hfit.
  unfold stop_crit, initialize_slbfgs.
  destruct (specialized_lbfgs params && (k =? 0)%nat);
    cbn [cur set_slbfgs]; fold εₖ;
    rewrite check_stop_cascade; unfold time_elapsed in *;
    cbn [start_time clock_reads stop_loads set_grad_hat_ψₖ set_slbfgs];
    rewrite Hwb, Hwc, Hwd, H1, H2, H3, H4, H5; cbn [negb];
    eexists; (split; [reflexivity|]);
    match goal with
    | |- status (s (exit_state ?e ?p ?S ?k ?x ?t ?w ?q ?u)) = _ =>
        destruct (exit_state_proj k x t w q u)
          as (_ & _ & Hs & _); rewrite Hs; reflexivity
    end.
Qed.

(** *** The scalars along the passes, in any scalar type *)

Lemma qub_pass_doubles (y : vec) (it : iterate) :
  let it' := qub_pass' y it in
  it_L it' = (it_L it * r_two)%rt
  /\ it_γ it' = (it_γ it / r_two)%rt
  /\ it_σ it' = (it_σ it / r_two)%rt.
Proof.
  unfold qub_pass.
  destruct (calc_x_hat problem _ (it_x it) (it_grad_ψ it)) as [[xh p] b].
  destruct (calc_ψ_ŷ problem xh y Σ) as [ψh ŷ].
  cbn [it_L it_γ it_σ]. repeat split.
Qed.

Lemma qub_pass_passes_from (c0 : iterate) (y : vec) (it : iterate) :
  (exists n, passes_from n c0 it) ->
  exists n, passes_from n c0 (qub_pass' y it).
Proof.
  intros (n & HL & Hγ & Hσ). exists (S n).
  destruct (qub_pass_doubles y it) as (EL & Eγ & Eσ).
  unfold passes_from. rewrite EL, Eγ, Eσ, HL, Hγ, Hσ. repeat split.
Qed.

Lemma shrinks_passes_from (c0 : iterate) (y : vec) (it it' : iterate) :
  shrinks' y it it' ->
  (exists n, passes_from n c0 it) -> exists n, passes_from n c0 it'.
Proof.
  apply (shrinks_ind_inv (fun c => exists n, passes_from n c0 c)).
  intros c. apply qub_pass_passes_from.
Qed.

Lemma evaluate_candidate_passes_from (c0 : iterate) (y : vec)
  (c old : iterate) (x_next : vec) :
  (exists n, passes_from n c0 c) ->
  exists n, passes_from n c0 (evaluate_candidate problem Σ y c old x_next).
Proof.
  unfold evaluate_candidate.
  destruct (calc_ψ_grad_ψ problem x_next y Σ) as [ψn gn].
  destruct (calc_x_hat problem (it_γ c) x_next gn) as [[xh p] b].
  destruct (calc_ψ_ŷ problem xh y Σ) as [ψh ŷ].
  intros H. exact H.
Qed.

Lemma iteration_passes_from (c0 : iterate) (fuel k : nat) (st st' : State') :
  (exists n, passes_from n c0 (cur st)) ->
  iteration params env problem Σ ε fuel k st = Some (Continue st') ->
  exists n, passes_from n c0 (cur st').
Proof.
  intros Hok Hi. apply iteration_spec in Hi.
  destruct Hi as (it & st3 & Hs & _ & Hcur & _ & _ & _ & _ & Hm).
  destruct (check_stop params env problem Σ ε k _ st3) as [r|st4] eqn:Ec;
    [discriminate|].
  destruct Hm as (st'' & Ha & Heq). inversion Heq; subst st''; clear Heq.
  apply check_stop_continue in Ec. destruct Ec as (E4 & _).
  apply accept_step_spec in Ha.
  destruct Ha as (n1 & old & x_next & xh & τ' & lc & Hs1 & _ & Hc1 & _).
  cbn zeta in Hs1. rewrite Hc1.
  change (exists n, passes_from n c0 n1).
  eapply shrinks_passes_from; [exact Hs1|].
  apply evaluate_candidate_passes_from.
  subst st4. cbn [cur tick_stop tick_clock]. rewrite Hcur.
  eapply shrinks_passes_from; eassumption.
Qed.

(** *** The projected step, coefficient by coefficient *)

Lemma binaryExpr_nth_error (op : real_t -> real_t -> real_t) (a b : vec)
  (i : nat) :
  nth_error (binaryExpr op a b) i
  = match nth_error a i, nth_error b i with
    | Some u, Some v => Some (op u v)
    | _, _ => None
    end.
Proof.
  revert b i. induction a as [|ai a IH]; intros b i.
  - destruct i; reflexivity.
  - destruct b as [|bi b].
    + destruct i; cbn; [reflexivity|]. destruct (nth_error a i); reflexivity.
    + destruct i; cbn; [reflexivity|apply IH].
Qed.

Lemma calc_x_hat_coefficient (γ : real_t) (x g : vec) (i : nat)
  (xi gi li ui : real_t) :
  nth_error x i = Some xi ->
  nth_error g i = Some gi ->
  nth_error (lowerbound (p_C problem)) i = Some li ->
  nth_error (upperbound (p_C problem)) i = Some ui ->
  let pi := (r_fmin (r_fmax (- γ * gi) (li - xi)) (ui - xi))%rt in
  nth_error (snd (fst (calc_x_hat problem γ x g))) i = Some pi
  /\ nth_error (fst (fst (calc_x_hat problem γ x g))) i = Some (xi + pi)%rt.
Proof.
  intros Hx Hg Hl Hu. unfold calc_x_hat, vadd, vsub, scale. cbn [fst snd].
  rewrite !binaryExpr_nth_error, nth_error_map, Hx, Hg, Hl, Hu.
  cbn. split; reflexivity.
Qed.

End StageLemmas.

(** ** Lemmas over exact arithmetic *)

Section ExactLemmas.
Context {RT : RealT}.
Variable E : ExactArith RT.
Variable LB : LBFGS_class.
Variable SLB : SpecializedLBFGS_class.
Variable params : PANOCParams.
Variable env : Environment.
Variable problem : Problem.
Variable Σ : vec.
Variable ε : real_t.

Local Notation State' := (State LB SLB).
Local Notation "⟦ a ⟧" := (toR E a) (at level 0, format "⟦ a ⟧").

Lemma ltb_false_toR (a b : real_t) : r_ltb a b = false <-> (⟦b⟧ <= ⟦a⟧)%R.
Proof.
  split; intros H.
  - destruct (Rle_or_lt ⟦b⟧ ⟦a⟧) as [Hle|Hlt]; [exact Hle|].
    apply (ltb_toR E) in Hlt. congruence.
  - destruct (r_ltb a b) eqn:El; [|reflexivity].
    apply (ltb_toR E) in El. lra.
Qed.

Lemma leb_false_toR (a b : real_t) : r_leb a b = false <-> (⟦b⟧ < ⟦a⟧)%R.
Proof.
  split; intros H.
  - destruct (Rle_or_lt ⟦a⟧ ⟦b⟧) as [Hle|Hlt]; [|exact Hlt].
    apply (leb_toR E) in Hle. congruence.
  - destruct (r_leb a b) eqn:El; [|reflexivity].
    apply (leb_toR E) in El. lra.
Qed.

Lemma qub_violated_false (it : iterate) :
  qub_violated it = false <-> upper_bound_holds E it.
Proof.
  unfold qub_violated, upper_bound_holds. rewrite ltb_false_toR.
  rewrite !(toR_add E), !(toR_mul E), (toR_zero E), (toR_half E).
  split; intros H; lra.
Qed.

(** One pass of the shrink loop on the three scalars. *)
Lemma qub_pass_scalars (y : vec) (it : iterate) :
  let it' := qub_pass problem Σ y it in
  ⟦it_L it'⟧ = (2 * ⟦it_L it⟧)%R
  /\ ⟦it_γ it'⟧ = (⟦it_γ it⟧ / 2)%R
  /\ ⟦it_σ it'⟧ = (⟦it_σ it⟧ / 2)%R.
Proof.
  unfold qub_pass.
  destruct (calc_x_hat problem _ (it_x it) (it_grad_ψ it)) as [[xh p] b].
  destruct (calc_ψ_ŷ problem xh y Σ) as [ψh ŷ].
  cbn [it_L it_γ it_σ].
  assert (H2 : ⟦r_two⟧ <> 0%R) by (rewrite (toR_two E); lra).
  rewrite (toR_mul E), !(toR_div E) by exact H2.
  rewrite (toR_two E). repeat split; lra.
Qed.

Lemma qub_pass_scalars_ok (α γ0 : R) (y : vec) (it : iterate) :
  scalars_ok E α γ0 it -> scalars_ok E α γ0 (qub_pass problem Σ y it).
Proof.
  intros (Hγ & HL & Hfin & HγL & Hdef & Hσ & Hpos).
  destruct (qub_pass_scalars y it) as (EL & Eγ & Eσ).
  unfold scalars_ok. cbn zeta. rewrite EL, Eγ, Eσ.
  split; [lra|]. split; [lra|]. split; [apply (all_isfinite E)|].
  assert (Hprod : (⟦it_γ it⟧ / 2 * (2 * ⟦it_L it⟧) = ⟦it_γ it⟧ * ⟦it_L it⟧)%R)
    by (field; lra).
  split; [lra|]. split.
  { rewrite Hdef. field. lra. }
  split; [|lra].
  rewrite Hprod, Hσ. field.
Qed.

Lemma shrinks_scalars_ok (α γ0 : R) (y : vec) (it it' : iterate) :
  shrinks problem Σ y it it' -> scalars_ok E α γ0 it -> scalars_ok E α γ0 it'.
Proof.
  apply shrinks_ind_inv. intros c. apply qub_pass_scalars_ok.
Qed.

Lemma evaluate_candidate_scalars_ok (α γ0 : R) (y : vec) (c old : iterate)
  (x_next : vec) :
  scalars_ok E α γ0 c ->
  scalars_ok E α γ0 (evaluate_candidate problem Σ y c old x_next).
Proof.
  unfold evaluate_candidate.
  destruct (calc_ψ_grad_ψ problem x_next y Σ) as [ψn gn].
  destruct (calc_x_hat problem (it_γ c) x_next gn) as [[xh p] b].
  destruct (calc_ψ_ŷ problem xh y Σ) as [ψh ŷ].
  intros H. exact H.
Qed.

Lemma initialize_scalars_ok (x z y err_z : vec) (st0 : State') :
  (0 < ⟦Lipschitz_Lγ_factor params⟧ < 1)%R ->
  initialize LB SLB params env problem Σ x z y err_z = Continue st0 ->
  scalars_ok E ⟦Lipschitz_Lγ_factor params⟧ ⟦it_γ (cur st0)⟧ (cur st0).
Proof.
  intros Hα. unfold initialize.
  destruct (calc_ψ_grad_ψ problem x y Σ) as [ψ0 g0].
  set (L0 := (norm _ / norm _)%rt).
  destruct (clamp_L L0) as [L|] eqn:Ec; [|discriminate].
  assert (HL : (0 < ⟦L⟧)%R).
  { unfold clamp_L in Ec. pose proof (toR_epsilon E) as He.
    destruct (r_ltb L0 r_epsilon) eqn:El.
    - inversion Ec; subst. exact He.
    - destruct (r_isfinite L0); cbn [negb] in Ec; [|discriminate].
      inversion Ec; subst. apply ltb_false_toR in El. lra. }
  destruct (calc_x_hat problem _ x g0) as [[xh p] b].
  destruct (calc_ψ_ŷ problem xh y Σ) as [ψh ŷ].
  intros H. inversion H; subst st0; clear H.
  unfold scalars_ok. cbn [cur it_L it_γ it_σ]. cbn zeta.
  assert (H2 : ⟦r_two⟧ <> 0%R) by (rewrite (toR_two E); lra).
  assert (Hγ : ⟦(Lipschitz_Lγ_factor params / L)%rt⟧
               = (⟦Lipschitz_Lγ_factor params⟧ / ⟦L⟧)%R)
    by (apply (toR_div E); lra).
  rewrite (toR_div E _ r_two H2).
  rewrite !(toR_mul E), (toR_sub E), (toR_mul E), (toR_one E), (toR_two E).
  rewrite Hγ.
  set (α := ⟦Lipschitz_Lγ_factor params⟧) in *.
  assert (Hq : (0 < α / ⟦L⟧)%R) by (apply Rdiv_lt_0_compat; lra).
  assert (Hprod : (α / ⟦L⟧ * ⟦L⟧ = α)%R) by (field; lra).
  split; [lra|]. split; [exact HL|]. split; [apply (all_isfinite E)|].
  split; [lra|]. split; [reflexivity|]. split; [reflexivity|].
  rewrite Hprod. apply Rmult_lt_0_compat; [|lra]. nra.
Qed.

Lemma iteration_scalars_ok (α γ0 : R) (fuel k : nat) (st st' : State') :
  scalars_ok E α γ0 (cur st) ->
  iteration params env problem Σ ε fuel k st = Some (Continue st') ->
  scalars_ok E α γ0 (cur st').
Proof.
  intros Hok Hi. apply iteration_spec in Hi.
  destruct Hi as (it & st3 & Hs & _ & Hcur & _ & _ & _ & _ & Hm).
  destruct (check_stop params env problem Σ ε k _ st3) as [r|st4] eqn:Ec;
    [discriminate|].
  destruct Hm as (st'' & Ha & Heq). inversion Heq; subst st''; clear Heq.
  apply check_stop_continue in Ec. destruct Ec as (E4 & _).
  apply accept_step_spec in Ha.
  destruct Ha as (n1 & old & x_next & xh & τ' & lc & Hs1 & _ & Hc1 & _).
  cbn zeta in Hs1. rewrite Hc1.
  change (scalars_ok E α γ0 n1).
  eapply shrinks_scalars_ok; [exact Hs1|].
  apply evaluate_candidate_scalars_ok.
  subst st4. cbn [cur tick_stop tick_clock]. rewrite Hcur.
  eapply shrinks_scalars_ok; eassumption.
Qed.

(** The projected step stays in the box. *)
Lemma calc_x_hat_in_box (γ : real_t) (x g : vec) :
  ordered_box E (p_C problem) ->
  in_box E (lowerbound (p_C problem)) (upperbound (p_C problem))
    (fst (fst (calc_x_hat problem γ x g))).
Proof.
  unfold calc_x_hat, ordered_box. cbn [fst].
  generalize (lowerbound (p_C problem)) (upperbound (p_C problem)).
  intros lb ub Hord. revert x g.
  induction Hord as [|l u lb ub Hlu Hord IH]; intros x g.
  - destruct x as [|xi x]; [exact I|]. destruct g; cbn; exact I.
  - destruct x as [|xi x]; [exact I|]. destruct g as [|gi g]; [exact I|].
    cbn. split; [|apply IH].
    rewrite (toR_add E), (toR_fmin E), (toR_fmax E), !(toR_sub E).
    unfold Rmin, Rmax.
    destruct (Rle_dec _ _); destruct (Rle_dec _ _); lra.
Qed.

(** In exact arithmetic the step that is compiled and the naive one under
    [if (0)], which is the formula of the function's documentation, compute
    the same [x̂] and the same [p]. *)
Lemma calc_x_hat_naive_agrees (γ : real_t) (x g : vec) :
  Forall2 (fun a b => ⟦a⟧ = ⟦b⟧)
    (fst (fst (calc_x_hat problem γ x g))) (fst (calc_x_hat_naive problem γ x g))
  /\ Forall2 (fun a b => ⟦a⟧ = ⟦b⟧)
       (snd (fst (calc_x_hat problem γ x g)))
       (snd (calc_x_hat_naive problem γ x g)).
Proof.
  unfold calc_x_hat, calc_x_hat_naive, project. cbn [fst snd].
  generalize (lowerbound (p_C problem)) (upperbound (p_C problem)).
  revert g. induction x as [|xi x IH]; intros g lb ub.
  - destruct g, lb, ub; cbn; split; constructor.
  - destruct g as [|gi g]; [cbn; split; constructor|].
    destruct lb as [|li lb]; [cbn; split; constructor|].
    destruct ub as [|ui ub]; [cbn; split; constructor|].
    destruct (IH g lb ub) as [IH1 IH2].
    assert (Hv : (⟦xi⟧ + Rmin (Rmax (- ⟦γ⟧ * ⟦gi⟧) (⟦li⟧ - ⟦xi⟧)) (⟦ui⟧ - ⟦xi⟧)
                  = Rmin (Rmax (⟦xi⟧ - ⟦γ⟧ * ⟦gi⟧) ⟦li⟧) ⟦ui⟧)%R).
    { unfold Rmax.
      destruct (Rle_dec (- ⟦γ⟧ * ⟦gi⟧) (⟦li⟧ - ⟦xi⟧)),
               (Rle_dec (⟦xi⟧ - ⟦γ⟧ * ⟦gi⟧) ⟦li⟧);
        unfold Rmin;
        repeat match goal with
               | |- context [Rle_dec ?a ?b] => destruct (Rle_dec a b)
               end; lra. }
    cbn. split; constructor; try assumption.
    + rewrite (toR_add E), !(toR_fmin E), !(toR_fmax E), !(toR_sub E),
        !(toR_mul E), (toR_neg E). exact Hv.
    + rewrite (toR_sub E), !(toR_fmin E), !(toR_fmax E), !(toR_sub E),
        !(toR_mul E), (toR_neg E). lra.
Qed.

(** With ordered bounds the order of the minimum and the maximum in the fused
    step does not matter in exact arithmetic. *)
Lemma calc_x_hat_listed_agrees (γ : real_t) (x g : vec) :
  ordered_box E (p_C problem) ->
  Forall2 (fun a b => ⟦a⟧ = ⟦b⟧)
    (snd (fst (calc_x_hat problem γ x g))) (fused_step_listed problem γ x g).
Proof.
  unfold calc_x_hat, fused_step_listed, ordered_box. cbn [fst snd].
  generalize (lowerbound (p_C problem)) (upperbound (p_C problem)).
  intros lb ub Hord. revert x g.
  induction Hord as [|l u lb ub Hlu Hord IH]; intros x g.
  - destruct g; cbn; constructor.
  - destruct x as [|xi x]; [destruct g; cbn; constructor|].
    destruct g as [|gi g]; [cbn; constructor|].
    cbn. constructor; [|apply IH].
    rewrite (toR_fmin E), !(toR_fmax E), (toR_fmin E), !(toR_sub E).
    set (a := ⟦_⟧).
    destruct (Rle_dec a (⟦l⟧ - ⟦xi⟧)) as [Hl|Hl];
      destruct (Rle_dec a (⟦u⟧ - ⟦xi⟧)) as [Hu|Hu].
    + rewrite (Rmax_right _ _ Hl), (Rmin_left _ _ Hu).
      rewrite Rmin_left, Rmax_left; lra.
    + lra.
    + rewrite (Rmax_left a) by lra. rewrite (Rmin_left _ _ Hu).
      rewrite Rmax_right; lra.
    + rewrite (Rmax_left a) by lra. rewrite (Rmin_right a) by lra.
      rewrite Rmax_right; lra.
Qed.

End ExactLemmas.

(** ** Properties of the solver *)

Section SolverProperties.
Context {RT : RealT}.
Variable LB : LBFGS_class.
Variable SLB : SpecializedLBFGS_class.
Variable params : PANOCParams.
Variable env : Environment.
Variable problem : Problem.
Variable Σ : vec.
Variable ε : real_t.

Local Notation State' := (State LB SLB).

(** C2.  In every iteration [k] the residual [εₖ] is taken at the iterate
    that the upper bound fit returns, and the exit is classified with it in
    the order: residual within tolerance ([Converged]), time budget exceeded
    ([MaxTime]), [k = max_iter] ([MaxIter]), residual not finite
    ([NotFinite]), stop flag set ([Interrupted]); the loop goes on exactly
    when none of the five holds.  [MaxTime] comes before [MaxIter].  A return
    reports this [k] and this [εₖ], at that iterate. *)
Theorem C2_status_priority (fuel k : nat) (st : State') (fl : Flow LB SLB) :
  iteration params env problem Σ ε fuel k st = Some fl ->
  exists st1 : State',
    upper_bound_fit params problem Σ fuel k st = Some st1
    /\ let c := cur st1 in
       let εₖ := calc_error_stop_crit (it_p c) (it_γ c)
                   (calc_grad_ψ_from_ŷ problem (it_x_hat c) (it_ŷ_x_hat c))
                   (it_grad_ψ c) in
       exit_status fl
       = code_status (r_leb εₖ ε) (k =? max_iter params)%nat
           (max_time params <? time_elapsed env st)%Z
           (negb (r_isfinite εₖ))
           (stop_signal_load env (stop_loads st))
       /\ forall r : State',
            fl = Exit r ->
            cur r = c /\ iterations (s r) = k /\ final_ε (s r) = εₖ.
Proof.
  intros H. apply iteration_stages in H.
  destruct H as (st1 & st3 & Hfit & _ & Hcur & Hw & _ & _ & Hm).
  exists st1. split; [exact Hfit|]. cbn zeta.
  set (εₖ := calc_error_stop_crit _ _ _ _) in *.
  assert (Ht : time_elapsed env st3 = time_elapsed env st).
  { unfold time_elapsed. unfold world in Hw. injection Hw as _ Hb Hc _.
    rewrite Hb, Hc. reflexivity. }
  assert (Hl : stop_loads st3 = stop_loads st).
  { unfold world in Hw. injection Hw as _ _ _ Hd. exact Hd. }
  destruct (check_stop params env problem Σ ε k εₖ st3) as [r|st4] eqn:Ec.
  - subst fl. apply check_stop_exit in Ec.
    destruct Ec as (w & p & stt & Hr & Hcode & _).
    rewrite Ht, Hl in Hcode. rewrite Hcode.
    pose proof (exit_state_proj env problem Σ k εₖ st3 w p stt) as Hp.
    cbn zeta in Hp. rewrite <- Hr in Hp. destruct Hp as (P1 & _ & P3 & _).
    split.
    + cbn [exit_status]. rewrite P3. reflexivity.
    + intros r' Hr'. inversion Hr'; subst r'.
      rewrite P1, P3, Hcur. repeat split.
  - destruct Hm as (st' & _ & Hfl). subst fl.
    apply check_stop_continue in Ec.
    destruct Ec as (_ & E1 & E2 & E3 & E4 & E5).
    rewrite Ht in E2. rewrite Hl in E5.
    rewrite E1, E2, E3, E4, E5. split; [reflexivity|].
    intros r Hr. discriminate Hr.
Qed.

(** C1.  When the main loop returns, at some iteration
    [k <= max_iter], the [Stats] fields [iterations], [ε], [elapsed_time] and
    [status] are filled, whatever the status.  With status [Converged],
    [MaxIter], [MaxTime] or [Interrupted] the solver has computed [(ẑ, err_z)]
    from [x̂ₖ] by [calc_ẑ] and written [x ← x̂ₖ] and [y ← ŷ(x̂ₖ)].  With status
    [NotFinite] it writes none of [x], [y], [z], [err_z]: they are left as
    they were when the loop was entered. *)
Theorem C1_outputs_on_termination (x z y err_z : vec) (fuel : nat)
  (st0 r : State') :
  initialize LB SLB params env problem Σ x z y err_z = Continue st0 ->
  main_loop params env problem Σ ε fuel (S (max_iter params)) 0 st0 = Returned r ->
  let k := iterations (s r) in
  (k <= max_iter params)%nat
  /\ final_ε (s r)
     = calc_error_stop_crit (it_p (cur r)) (it_γ (cur r)) (grad_hat_ψₖ r)
         (it_grad_ψ (cur r))
  /\ elapsed_time (s r)
     = duration_cast_microseconds env
         (steady_clock_now env (S k) - steady_clock_now env 0)%Z
  /\ consistent problem Σ y (cur r)
  /\ match status (s r) with
     | NotFinite => caller r = caller st0
     | _ => caller r = written_outputs problem Σ y (cur r)
     end.
Proof.
  intros H0 Hm.
  pose proof H0 as Hh. apply initialize_head in Hh. destruct Hh as (Hc0 & _).
  eapply loop_exit in Hm; [|exact H0].
  destruct Hm as (k & st3 & εₖ & w & p & stt & Hk & Hat & Hε & Hr & _ & Hw & _).
  destruct Hat as ((Hc & Ht & Hcr & Hl & Hcons) & Hg).
  pose proof (exit_state_proj env problem Σ k εₖ st3 w p stt) as Hp. cbn zeta in Hp.
  rewrite <- Hr in Hp. destruct Hp as (P1 & P2 & P3 & P4 & _).
  rewrite P3, P1, P2, P4. cbn [iterations final_ε elapsed_time status set_exit].
  split; [exact Hk|]. split; [exact Hε|].
  split. { unfold time_elapsed. rewrite Hcr, Ht. reflexivity. }
  split; [exact Hcons|].
  rewrite Hc. cbn [out_y]. rewrite Hc0.
  subst w. destruct stt; reflexivity.
Qed.

(** C8.  In every iteration the residual is taken at the iterate [c] that
    the upper bound fit returns, whose [x̂], [p], [∇ψ] and inner products are
    the ones computed from its [x] and [γ]; it is
    [‖(1/γₖ)·pₖ + (∇ψ(x̂ₖ) − ∇ψ(xₖ))‖∞], the scaled step and the difference of
    the gradients formed first and then added.  A return happens at that
    iterate and reports this value, with status [Converged] exactly when
    [εₖ <= ε], so the residual reported with [Converged] is within the
    tolerance; otherwise [εₖ <= ε] is false and the step is taken from that
    iterate. *)
Theorem C8_stopping_residual (x z y err_z : vec) (fuel k : nat)
  (st0 st : State') (fl : Flow LB SLB) :
  initialize LB SLB params env problem Σ x z y err_z = Continue st0 ->
  reach params env problem Σ ε fuel st0 k st ->
  iteration params env problem Σ ε fuel k st = Some fl ->
  exists st1 : State',
    upper_bound_fit params problem Σ fuel k st = Some st1
    /\ let c := cur st1 in
       let εₖ := norm_inf
                   (vadd (scale (r_one / it_γ c)%rt (it_p c))
                      (vsub (snd (calc_ψ_grad_ψ problem (it_x_hat c) y Σ))
                         (snd (calc_ψ_grad_ψ problem (it_x c) y Σ)))) in
       consistent problem Σ y c
       /\ εₖ = calc_error_stop_crit (it_p c) (it_γ c)
                 (calc_grad_ψ_from_ŷ problem (it_x_hat c) (it_ŷ_x_hat c))
                 (it_grad_ψ c)
       /\ match fl with
          | Exit r =>
              cur r = c
              /\ final_ε (s r) = εₖ
              /\ (status (s r) = Converged <-> r_leb εₖ ε = true)
              /\ (status (s r) = Converged -> r_leb (final_ε (s r)) ε = true)
          | Continue st' =>
              r_leb εₖ ε = false
              /\ exists st4 : State',
                   cur st4 = c
                   /\ accept_step params problem Σ fuel k st4 = Some st'
          end.
Proof.
  intros H0 Hr Hi.
  apply (reach_head _ _ _ _ H0) in Hr.
  destruct Hr as (Hc & _ & _ & _ & Hcons).
  apply iteration_stages in Hi.
  destruct Hi as (st1 & st3 & Hfit & Hw1 & Hcur & Hw & _ & _ & Hm).
  exists st1. split; [exact Hfit|]. cbn zeta.
  assert (Hcons1 : consistent problem Σ y (cur st1)).
  { unfold upper_bound_fit in Hfit.
    destruct ((k =? 0)%nat || negb (update_lipschitz_in_linesearch params)).
    - destruct (qub_loop LB problem Σ fuel _ (out_y (caller st)) (cur st)
                  (lbfgs st)) as [[it lb]|] eqn:Eq; [|discriminate].
      inversion Hfit; subst st1. cbn [cur set_lbfgs set_iterates].
      apply qub_loop_shrinks in Eq. destruct Eq as [Hs _].
      rewrite Hc in Hs. cbn [out_y] in Hs.
      eapply shrinks_consistent; eassumption.
    - inversion Hfit; subst st1. exact Hcons. }
  split; [exact Hcons1|].
  assert (Hε : norm_inf
                 (vadd (scale (r_one / it_γ (cur st1))%rt (it_p (cur st1)))
                    (vsub (snd (calc_ψ_grad_ψ problem (it_x_hat (cur st1)) y Σ))
                       (snd (calc_ψ_grad_ψ problem (it_x (cur st1)) y Σ))))
               = calc_error_stop_crit (it_p (cur st1)) (it_γ (cur st1))
                   (calc_grad_ψ_from_ŷ problem (it_x_hat (cur st1))
                      (it_ŷ_x_hat (cur st1)))
                   (it_grad_ψ (cur st1))).
  { unfold calc_error_stop_crit.
    destruct Hcons1 as (C1 & _ & C3 & _).
    rewrite C1. unfold calc_ψ_grad_ψ. rewrite C3. reflexivity. }
  split; [exact Hε|]. rewrite Hε.
  set (εₖ := calc_error_stop_crit _ _ _ _) in *.
  destruct (check_stop params env problem Σ ε k εₖ st3) as [r|st4] eqn:Ec.
  - subst fl. apply check_stop_exit in Ec.
    destruct Ec as (w & p & stt & Hr' & Hcode & _).
    pose proof (exit_state_proj env problem Σ k εₖ st3 w p stt) as Hp.
    cbn zeta in Hp. rewrite <- Hr' in Hp. destruct Hp as (P1 & _ & P3 & _).
    rewrite P1, P3. cbn [final_ε status set_exit].
    split; [exact Hcur|]. split; [reflexivity|].
    assert (Hiff : stt = Converged <-> r_leb εₖ ε = true).
    { unfold code_status in Hcode.
      destruct (r_leb εₖ ε).
      + inversion Hcode. tauto.
      + split; [|discriminate]. intros ->.
        destruct (max_time params <? _)%Z;
          [|destruct (k =? max_iter params)%nat;
            [|destruct (negb (r_isfinite _));
              [|destruct (stop_signal_load env (stop_loads st3))]]];
          discriminate. }
    split; [exact Hiff|apply Hiff].
  - destruct Hm as (st' & Ha & Hfl). subst fl.
    apply check_stop_continue in Ec. destruct Ec as (E0 & E1 & _).
    split; [exact E1|].
    exists st4. split; [|exact Ha].
    subst st4. cbn [cur tick_stop tick_clock]. exact Hcur.
Qed.

(** C9.  The stop flag is loaded at one place of the loop body, after the
    tests on the residual and the budgets: at the head of iteration [k] it has
    been loaded [k] times, an iteration that one of those tests ends does not
    load it, and every other iteration loads it exactly once.  When that load
    returns [true] the solver returns with status [Interrupted] after writing
    [x ← x̂ₖ], [y ← ŷ(x̂ₖ)], [z ← Π_D(g(x̂ₖ) + Σ⁻¹ y)] and [err_z ← g(x̂ₖ) − z],
    for [x̂ₖ] of the iterate that the upper bound fit returns and the [y]
    passed in, and reports the residual [εₖ] of that iterate; for [k = 0]
    these are [x̂₀], [ŷ₀] and [ε₀].  The return needs no more than the upper
    bound fit of that iteration to have finished. *)
Theorem C9_stop_flag (x z y err_z : vec) (fuel k : nat) (st0 st : State') :
  initialize LB SLB params env problem Σ x z y err_z = Continue st0 ->
  reach params env problem Σ ε fuel st0 k st ->
  stop_loads st = k
  /\ (forall fl : Flow LB SLB,
        iteration params env problem Σ ε fuel k st = Some fl ->
        exists st1 : State',
          upper_bound_fit params problem Σ fuel k st = Some st1
          /\ let it := cur st1 in
             let εₖ := calc_error_stop_crit (it_p it) (it_γ it)
                         (calc_grad_ψ_from_ŷ problem (it_x_hat it)
                            (it_ŷ_x_hat it))
                         (it_grad_ψ it) in
             let earlier :=
               r_leb εₖ ε || (k =? max_iter params)%nat
               || (max_time params
                   <? steady_clock_now env (S k) - steady_clock_now env 0)%Z
               || negb (r_isfinite εₖ) in
             consistent problem Σ y it
             /\ match fl with
                | Continue st' =>
                    earlier = false /\ stop_signal_load env k = false
                    /\ stop_loads st' = S k
                | Exit r =>
                    cur r = it /\ iterations (s r) = k /\ final_ε (s r) = εₖ
                    /\ if earlier
                       then status (s r) <> Interrupted /\ stop_loads r = k
                       else stop_signal_load env k = true
                            /\ status (s r) = Interrupted
                            /\ stop_loads r = S k
                            /\ out_x (caller r) = it_x_hat it
                            /\ out_y (caller r) = it_ŷ_x_hat it
                            /\ it_ŷ_x_hat it
                               = snd (calc_ψ_ŷ problem (it_x_hat it) y Σ)
                            /\ out_z (caller r)
                               = project
                                   (vadd (p_g problem (it_x_hat it)) (vdiv y Σ))
                                   (p_D problem)
                            /\ out_err_z (caller r)
                               = vsub (p_g problem (it_x_hat it))
                                   (out_z (caller r))
                end)
  /\ (forall st1 : State',
        upper_bound_fit params problem Σ fuel k st = Some st1 ->
        let εₖ := calc_error_stop_crit (it_p (cur st1)) (it_γ (cur st1))
                    (calc_grad_ψ_from_ŷ problem (it_x_hat (cur st1))
                       (it_ŷ_x_hat (cur st1)))
                    (it_grad_ψ (cur st1)) in
        r_leb εₖ ε = false ->
        (k =? max_iter params)%nat = false ->
        (max_time params
         <? steady_clock_now env (S k) - steady_clock_now env 0)%Z = false ->
        r_isfinite εₖ = true ->
        stop_signal_load env k = true ->
        exists r : State',
          iteration params env problem Σ ε fuel k st = Some (Exit r)
          /\ status (s r) = Interrupted).
Proof.
  intros H0 Hr.
  pose proof Hr as Hh. eapply reach_head in Hh; [|exact H0].
  split; [apply Hh|]. split.
  2:{ intros st1 Hfit εₖ H1 H2 H3 H4 H5.
      destruct Hh as (_ & Ht & Hcr & Hl & _).
      eapply iteration_interrupts; try eassumption.
      - unfold time_elapsed. rewrite Hcr, Ht. exact H3.
      - rewrite Hl. exact H5. }
  intros fl Hi.
  pose proof Hi as Hi'.
  destruct Hh as (Hc & Ht & Hcr & Hl & Hcons).
  apply iteration_stages in Hi.
  destruct Hi as (st1 & st3 & Hfit & Hw1 & Hcur & Hw & _ & _ & Hm).
  exists st1. split; [exact Hfit|]. cbn zeta.
  assert (Hcons1 : consistent problem Σ y (cur st1)).
  { unfold upper_bound_fit in Hfit.
    destruct ((k =? 0)%nat || negb (update_lipschitz_in_linesearch params)).
    - destruct (qub_loop LB problem Σ fuel _ (out_y (caller st)) (cur st)
                  (lbfgs st)) as [[it lb]|] eqn:Eq; [|discriminate].
      inversion Hfit; subst st1. cbn [cur set_lbfgs set_iterates].
      apply qub_loop_shrinks in Eq. destruct Eq as [Hs _].
      rewrite Hc in Hs. cbn [out_y] in Hs.
      eapply shrinks_consistent; eassumption.
    - inversion Hfit; subst st1. exact Hcons. }
  split; [exact Hcons1|].
  set (εₖ := calc_error_stop_crit _ _ _ _) in *.
  unfold world in Hw. injection Hw as Hwa Hwb Hwc Hwd.
  assert (Htime : time_elapsed env st3
                  = (steady_clock_now env (S k) - steady_clock_now env 0)%Z).
  { unfold time_elapsed. rewrite Hwb, Hwc, Hcr, Ht. reflexivity. }
  assert (Hl3 : stop_loads st3 = k) by congruence.
  destruct (check_stop params env problem Σ ε k εₖ st3) as [r|st4] eqn:Ec.
  - subst fl. apply check_stop_exit in Ec.
    destruct Ec as (w & p & stt & Hr' & Hcode & Hw' & Hp).
    pose proof (exit_state_proj env problem Σ k εₖ st3 w p stt) as Hpr.
    cbn zeta in Hpr. rewrite <- Hr' in Hpr.
    destruct Hpr as (P1 & _ & P3 & P4 & P5 & _).
    rewrite P1, P3, P4, P5. cbn [iterations final_ε status set_exit].
    rewrite Hwa, Hc, Hl3, Hcur in *. cbn [out_y]. rewrite Htime in Hcode.
    split; [reflexivity|]. split; [reflexivity|]. split; [reflexivity|].
    unfold code_status in Hcode.
    destruct (r_leb εₖ ε); cbn [orb].
    { inversion Hcode; subst. split; [discriminate|reflexivity]. }
    destruct (k =? max_iter params)%nat eqn:Ek; cbn [orb].
    { destruct (max_time params <? _)%Z; inversion Hcode; subst;
        (split; [discriminate|reflexivity]). }
    destruct (max_time params <? _)%Z; cbn [orb].
    { inversion Hcode; subst. split; [discriminate|reflexivity]. }
    destruct (negb (r_isfinite εₖ)).
    { inversion Hcode; subst. split; [discriminate|reflexivity]. }
    destruct (stop_signal_load env k); [|discriminate].
    inversion Hcode; subst.
    unfold written_outputs, calc_ẑ. cbn [out_x out_y out_z out_err_z fst snd].
    destruct Hcons1 as (_ & _ & C3 & _). rewrite C3.
    repeat split.
  - destruct Hm as (st' & Ha & Hfl). subst fl.
    apply check_stop_continue in Ec.
    destruct Ec as (E0 & E1 & E2 & E3 & E4 & E5).
    rewrite Htime in E2. rewrite Hl3 in E5.
    rewrite E1, E2, E3, E4. cbn.
    split; [reflexivity|]. split; [exact E5|].
    assert (Hhead : head_inv params env problem Σ x z y err_z k st)
      by exact (conj Hc (conj Ht (conj Hcr (conj Hl Hcons)))).
    eapply iteration_head in Hi'; [|exact Hhead]. apply Hi'.
Qed.

(** C10.  When the finite-difference estimate [L₀] is not finite (and so not
    below machine epsilon), the solver returns with status [NotFinite]; the
    caller's [x] is left at [x₀ + h], [y], [z] and [err_z] are not written,
    and the [Stats] fields [iterations], [ε] and [elapsed_time] (and the three
    counters) keep the values of a default-constructed [Stats]. *)
Theorem C10_nonfinite_L0_frame (x z y err_z : vec) (fuel : nat) :
  r_isfinite (estimate_L params problem Σ x y) = false ->
  r_ltb (estimate_L params problem Σ x y) r_epsilon = false ->
  exists r : State',
    solve LB SLB params env problem Σ ε fuel x z y err_z = Returned r
    /\ status (s r) = NotFinite
    /\ caller r = {| out_x := vadd x (perturbation params x); out_z := z;
                     out_y := y; out_err_z := err_z |}
    /\ iterations (s r) = iterations (default_Stats env)
    /\ final_ε (s r) = final_ε (default_Stats env)
    /\ elapsed_time (s r) = elapsed_time (default_Stats env)
    /\ linesearch_failures (s r) = linesearch_failures (default_Stats env)
    /\ lbfgs_failures (s r) = lbfgs_failures (default_Stats env)
    /\ lbfgs_rejected (s r) = lbfgs_rejected (default_Stats env).
Proof.
  unfold solve, initialize, estimate_L.
  destruct (calc_ψ_grad_ψ problem x y Σ) as [ψ0 g0].
  intros Hfin Hlt. unfold clamp_L. rewrite Hlt, Hfin. cbn [negb].
  eexists. split; [reflexivity|]. repeat split.
Qed.


(** C4.  The shrink loop runs before the stopping test at [k = 0] and, at
    later [k], only when [update_lipschitz_in_linesearch] is false; inside the
    line search it runs only when the flag is true.  A run of the loop is a
    number of passes, each entered on a violated bound; a pass doubles [L],
    halves [γ] and [σ], and recomputes [(x̂, p)], the two inner products and
    [ψ̂], [ŷ] at the new [x̂]; each pass resets the non-specialized buffer (at
    lines 263-264 only for [k > 0]).  When the loop exits the loop test
    [ψ̂ > ψ + ⟨∇ψ, p⟩ + ½ L ‖p‖²] is false, which over exact arithmetic is
    [ψ(x̂) ≤ ψ(x) + ⟨∇ψ(x), p⟩ + ½ L ‖p‖²]; in binary64 the test is also
    false when a side is NaN, and the inequality need not hold then. *)
Theorem C4_upper_bound_loop (fuel : nat) (flush : bool) (y : vec)
  (it it' : iterate) (lb lb' : lbfgs_t LB) :
  qub_loop LB problem Σ fuel flush y it lb = Some (it', lb') ->
  (exists n : nat,
      it' = Nat.iter n (qub_pass problem Σ y) it
      /\ (forall j, (j < n)%nat ->
                    qub_violated (Nat.iter j (qub_pass problem Σ y) it) = true)
      /\ lb' = Nat.iter n (fun b => if flush then lbfgs_reset LB b else b) lb)
  /\ (forall c : iterate,
        let c' := qub_pass problem Σ y c in
        it_L c' = (it_L c * r_two)%rt
        /\ it_γ c' = (it_γ c / r_two)%rt
        /\ it_σ c' = (it_σ c / r_two)%rt
        /\ (it_x_hat c', it_p c')
           = fst (calc_x_hat problem (it_γ c') (it_x c) (it_grad_ψ c))
        /\ (it_ψ_hat_x c', it_ŷ_x_hat c') = calc_ψ_ŷ problem (it_x_hat c') y Σ
        /\ it_grad_ψᵀp c' = dot (it_grad_ψ c) (it_p c')
        /\ it_norm_sq_p c' = squaredNorm (it_p c')
        /\ (it_x c', it_grad_ψ c', it_ψ c') = (it_x c, it_grad_ψ c, it_ψ c))
  /\ qub_violated it' = false
  /\ (forall E : ExactArith RT, upper_bound_holds E it')
  /\ (consistent problem Σ y it -> consistent problem Σ y it')
  /\ (forall (fuel' k : nat) (st : State'),
        upper_bound_fit params problem Σ fuel' k st
        = if (k =? 0)%nat || negb (update_lipschitz_in_linesearch params)
          then match qub_loop LB problem Σ fuel'
                       ((0 <? k)%nat && negb (specialized_lbfgs params))
                       (out_y (caller st)) (cur st) (lbfgs st) with
               | Some (c, b) => Some (set_lbfgs (set_iterates st c (nxt st)) b)
               | None => None
               end
          else Some st)
  /\ (forall (fuel' : nat) (st st1 : State') (τ τ1 lc : real_t),
        ls_pass params problem Σ fuel' st τ = Some (st1, τ1, lc) ->
        let n0 := evaluate_candidate problem Σ (out_y (caller st)) (cur st)
                    (nxt st) (fst (candidate params st τ)) in
        if update_lipschitz_in_linesearch params
        then exists n1 b,
               qub_loop LB problem Σ fuel' (negb (specialized_lbfgs params))
                 (out_y (caller st)) n0 (lbfgs st) = Some (n1, b)
               /\ nxt st1 = set_φ n1 (fbe n1) /\ lbfgs st1 = b
        else nxt st1 = set_φ n0 (fbe n0) /\ lbfgs st1 = lbfgs st).
Proof.
  intros H.
  pose proof H as Hp. apply qub_loop_passes in Hp.
  destruct Hp as (n & _ & Hit & Hj & Hlb & Hv).
  split; [exists n; auto|].
  split.
  { intros c. unfold qub_pass.
    destruct (calc_x_hat problem (it_γ c / r_two)%rt (it_x c) (it_grad_ψ c))
      as [[xh p] b] eqn:Ex.
    destruct (calc_ψ_ŷ problem xh y Σ) as [ψh ŷ] eqn:Ey.
    cbn [it_L it_γ it_σ it_x_hat it_p it_ψ_hat_x it_ŷ_x_hat it_grad_ψᵀp
         it_norm_sq_p it_x it_grad_ψ it_ψ].
    rewrite Ex, Ey. repeat split. }
  split; [exact Hv|].
  split; [intros E; apply qub_violated_false, Hv|].
  split.
  { apply shrinks_consistent. apply qub_loop_shrinks in H. apply H. }
  split; [reflexivity|].
  intros fuel' st st1 τ τ1 lc Hpass. cbn zeta.
  unfold ls_pass in Hpass.
  destruct (candidate params st τ) as [x_next xh] eqn:Ec. cbn [fst].
  destruct (update_lipschitz_in_linesearch params).
  - destruct (qub_loop LB problem Σ fuel' _ _ _ (lbfgs st)) as [[n1 b]|] eqn:Eq;
      [|discriminate].
    inversion Hpass; subst. exists n1, b. repeat split.
  - inversion Hpass; subst. repeat split.
Qed.

(** C5.  Initialisation sets [γ₀ = Lγ_factor / L₀] and
    [σ₀ = γ₀ (1 − γ₀ L₀) / 2]; every pass of the shrink loop doubles [L] and
    halves [γ] and [σ], and nothing else changes them, so at the head of
    every iteration the three scalars are those of the entry after some
    number of passes.  Over exact arithmetic and with [0 < Lγ_factor < 1],
    after initialisation and at the head of every later iteration (after
    every accepted step) they satisfy [0 < γₖ ≤ γ₀], [Lₖ > 0] finite,
    [γₖ Lₖ ≤ α = Lγ_factor < 1], [γₖ = α / Lₖ] and
    [σₖ = γₖ (1 − γₖ Lₖ) / 2 > 0], and a pass of the shrink loop keeps these
    relations.  In binary64 the doubling can overflow [L] and the relations
    are lost. *)
Theorem C5_step_size_invariants (x z y err_z : vec) (fuel k : nat)
  (st0 st : State') :
  initialize LB SLB params env problem Σ x z y err_z = Continue st0 ->
  reach params env problem Σ ε fuel st0 k st ->
  (it_γ (cur st0) = (Lipschitz_Lγ_factor params / it_L (cur st0))%rt
   /\ it_σ (cur st0)
      = (it_γ (cur st0) * (r_one - it_γ (cur st0) * it_L (cur st0))
         / r_two)%rt)
  /\ (exists n : nat, passes_from n (cur st0) (cur st))
  /\ (forall (y' : vec) (c : iterate),
        let c' := qub_pass problem Σ y' c in
        it_L c' = (it_L c * r_two)%rt
        /\ it_γ c' = (it_γ c / r_two)%rt
        /\ it_σ c' = (it_σ c / r_two)%rt)
  /\ forall E : ExactArith RT,
       (0 < toR E (Lipschitz_Lγ_factor params) < 1)%R ->
       let α := toR E (Lipschitz_Lγ_factor params) in
       let γ0 := toR E (it_γ (cur st0)) in
       scalars_ok E α γ0 (cur st)
       /\ forall (y' : vec) (c : iterate),
            scalars_ok E α γ0 c ->
            let c' := qub_pass problem Σ y' c in
            scalars_ok E α γ0 c'
            /\ toR E (it_L c') = (2 * toR E (it_L c))%R
            /\ toR E (it_γ c') = (toR E (it_γ c) / 2)%R
            /\ toR E (it_σ c') = (toR E (it_σ c) / 2)%R.
Proof.
  intros H0 Hr. split.
  { unfold initialize in H0.
    destruct (calc_ψ_grad_ψ problem x y Σ) as [ψ0 g0].
    destruct (clamp_L _) as [L|] eqn:Ec; [|discriminate].
    destruct (calc_x_hat problem _ x g0) as [[xh p] b].
    destruct (calc_ψ_ŷ problem xh y Σ) as [ψh ŷ].
    inversion H0; subst st0. cbn [cur it_L it_γ it_σ]. split; reflexivity. }
  split.
  { induction Hr.
    - exists 0%nat. repeat split.
    - eapply iteration_passes_from; eassumption. }
  split; [intros y' c; apply qub_pass_doubles|].
  intros E Hα. cbn zeta. split.
  - induction Hr.
    + eapply initialize_scalars_ok; eassumption.
    + eapply iteration_scalars_ok; eassumption.
  - intros y' c Hc. split; [apply qub_pass_scalars_ok, Hc|].
    apply qub_pass_scalars.
Qed.

(** C7.  [calc_x̂] computes the step coefficient by coefficient as
    [pᵢ = fmin (fmax (−γ ∇ψᵢ) (xₗᵢ − xᵢ)) (xᵤᵢ − xᵢ)] and sets [x̂ᵢ = xᵢ + pᵢ],
    not [x̂ = Π_C(x − γ∇ψ)] followed by [p = x̂ − x]; the iterate at the head
    of every iteration carries the [(x̂ₖ, pₖ)] so computed from its [xₖ],
    [γₖ] and [∇ψ(xₖ)].  Over exact arithmetic the two forms have the same
    values, with [xₗ ≤ xᵤ] so has [max (xₗ − x) (min (−γ ∇ψ) (xᵤ − x))], and
    every such [x̂] lies in the box [C], component by component.  In binary64
    the rounding of [xᵤ − x] and of [x + p] can leave [x̂] outside [C]. *)
Theorem C7_projected_step (x z y err_z : vec) (fuel k : nat)
  (st0 st : State') :
  initialize LB SLB params env problem Σ x z y err_z = Continue st0 ->
  reach params env problem Σ ε fuel st0 k st ->
  (forall (γ : real_t) (v grad_ψ : vec) (i : nat) (xi gi li ui : real_t),
      nth_error v i = Some xi ->
      nth_error grad_ψ i = Some gi ->
      nth_error (lowerbound (p_C problem)) i = Some li ->
      nth_error (upperbound (p_C problem)) i = Some ui ->
      let pi := (r_fmin (r_fmax (- γ * gi) (li - xi)) (ui - xi))%rt in
      nth_error (snd (fst (calc_x_hat problem γ v grad_ψ))) i = Some pi
      /\ nth_error (fst (fst (calc_x_hat problem γ v grad_ψ))) i
         = Some (xi + pi)%rt)
  /\ (forall (i : nat) (xi gi li ui : real_t),
        nth_error (it_x (cur st)) i = Some xi ->
        nth_error (it_grad_ψ (cur st)) i = Some gi ->
        nth_error (lowerbound (p_C problem)) i = Some li ->
        nth_error (upperbound (p_C problem)) i = Some ui ->
        let pi := (r_fmin (r_fmax (- it_γ (cur st) * gi) (li - xi))
                     (ui - xi))%rt in
        nth_error (it_p (cur st)) i = Some pi
        /\ nth_error (it_x_hat (cur st)) i = Some (xi + pi)%rt)
  /\ (forall (γ : real_t) (v grad_ψ : vec),
        let p := binaryExpr r_fmin
                   (binaryExpr r_fmax (scale (- γ)%rt grad_ψ)
                      (vsub (lowerbound (p_C problem)) v))
                   (vsub (upperbound (p_C problem)) v) in
        fst (calc_x_hat problem γ v grad_ψ) = (vadd v p, p))
  /\ fst (calc_x_hat problem (it_γ (cur st)) (it_x (cur st)) (it_grad_ψ (cur st)))
     = (it_x_hat (cur st), it_p (cur st))
  /\ forall E : ExactArith RT,
       (forall (γ : real_t) (v grad_ψ : vec),
           Forall2 (fun a b => toR E a = toR E b)
             (fst (fst (calc_x_hat problem γ v grad_ψ)))
             (fst (calc_x_hat_naive problem γ v grad_ψ))
           /\ Forall2 (fun a b => toR E a = toR E b)
                (snd (fst (calc_x_hat problem γ v grad_ψ)))
                (snd (calc_x_hat_naive problem γ v grad_ψ)))
       /\ (ordered_box E (p_C problem) ->
           (forall (γ : real_t) (v grad_ψ : vec),
               Forall2 (fun a b => toR E a = toR E b)
                 (snd (fst (calc_x_hat problem γ v grad_ψ)))
                 (fused_step_listed problem γ v grad_ψ)
               /\ in_box E (lowerbound (p_C problem))
                    (upperbound (p_C problem))
                    (fst (fst (calc_x_hat problem γ v grad_ψ))))
           /\ in_box E (lowerbound (p_C problem)) (upperbound (p_C problem))
                (it_x_hat (cur st))).
Proof.
  intros H0 Hr.
  eapply reach_head in Hr; [|exact H0].
  destruct Hr as (_ & _ & _ & _ & (_ & Hx & _)).
  split; [intros γ v g i xi gi li ui; apply calc_x_hat_coefficient|].
  split.
  { intros i xi gi li ui Hxi Hgi Hli Hui.
    pose proof (calc_x_hat_coefficient problem (it_γ (cur st)) _ _ _
                  Hxi Hgi Hli Hui) as Hc.
    rewrite Hx in Hc. exact Hc. }
  split; [intros γ v g; reflexivity|].
  split; [exact Hx|].
  intros E. split; [intros γ v g; apply calc_x_hat_naive_agrees|].
  intros Hord. split.
  - intros γ v g. split.
    + exact (@calc_x_hat_listed_agrees _ E problem γ v g Hord).
    + exact (@calc_x_hat_in_box _ E problem γ v g Hord).
  - pose proof (@calc_x_hat_in_box _ E problem (it_γ (cur st)) (it_x (cur st))
                  (it_grad_ψ (cur st)) Hord) as Hb.
    rewrite Hx in Hb. exact Hb.
Qed.


End SolverProperties.

(** * Further properties of [panoc.cpp] *)

(** ** Bookkeeping: counters, buffers, clock *)

Section BookkeepingLemmas.
Context {RT : RealT}.
Variable LB : LBFGS_class.
Variable SLB : SpecializedLBFGS_class.
Variable params : PANOCParams.
Variable env : Environment.
Variable problem : Problem.
Variable Σ : vec.
Variable ε : real_t.
Local Notation State' := (State LB SLB).
Local Notation idle := (@idle_buffer RT LB SLB params).

Lemma counters_step_refl (a : Stats) : counters_step 0 0 0 a a.
Proof. unfold counters_step. repeat split; lia. Qed.

Lemma counters_step_trans (l1 f1 r1 l2 f2 r2 : nat) (a b c : Stats) :
  counters_step l1 f1 r1 a b -> counters_step l2 f2 r2 b c ->
  counters_step (l1 + l2) (f1 + f2) (r1 + r2) a c.
Proof.
  unfold counters_step.
  intros (A1 & A2 & A3 & A4 & A5 & A6 & A7) (B1 & B2 & B3 & B4 & B5 & B6 & B7).
  repeat split; try congruence; lia.
Qed.

Lemma counters_step_weaken (l f r l' f' r' : nat) (a b : Stats) :
  counters_step l f r a b -> (l <= l')%nat -> (f <= f')%nat -> (r <= r')%nat ->
  counters_step l' f' r' a b.
Proof.
  unfold counters_step. intros (A1 & A2 & A3 & A4 & A5 & A6 & A7) Hl Hf Hr.
  repeat split; try congruence; lia.
Qed.

Lemma idle_refl (st : State') : idle st st.
Proof. split; reflexivity. Qed.

Lemma idle_trans (a b c : State') : idle a b -> idle b c -> idle a c.
Proof.
  intros [A1 A2] [B1 B2]. split; intros H.
  - rewrite (B1 H). exact (A1 H).
  - rewrite (B2 H). exact (A2 H).
Qed.

Lemma iter_keep (n : nat) (lb : lbfgs_t LB) :
  Nat.iter n (fun b => if false then lbfgs_reset LB b else b) lb = lb.
Proof. induction n as [|n IH]; simpl; auto. Qed.

Lemma qub_loop_no_flush (fuel : nat) (y : vec) (it it' : iterate)
  (lb lb' : lbfgs_t LB) :
  qub_loop LB problem Σ fuel false y it lb = Some (it', lb') -> lb' = lb.
Proof.
  intros H. apply qub_loop_passes in H.
  destruct H as (n & _ & _ & _ & Hlb & _). rewrite Hlb. apply iter_keep.
Qed.

Lemma upper_bound_fit_keeps (fuel k : nat) (st st1 : State') :
  upper_bound_fit params problem Σ fuel k st = Some st1 ->
  s st1 = s st /\ idle st st1.
Proof.
  unfold upper_bound_fit, idle_buffer.
  destruct ((k =? 0)%nat || negb (update_lipschitz_in_linesearch params)).
  - destruct (qub_loop LB problem Σ fuel _ _ _ _) as [[it lb]|] eqn:Eq;
      [|discriminate].
    intros H. inversion H; subst st1; clear H. cbn.
    split; [reflexivity|]. split; [|reflexivity].
    intros Hs. rewrite Hs, andb_false_r in Eq.
    apply qub_loop_no_flush in Eq. exact Eq.
  - intros H. inversion H. repeat split.
Qed.

Lemma initialize_slbfgs_keeps (k : nat) (st : State') :
  s (initialize_slbfgs params k st) = s st
  /\ idle st (initialize_slbfgs params k st).
Proof.
  unfold initialize_slbfgs, idle_buffer.
  destruct (specialized_lbfgs params) eqn:Es; cbn [andb].
  - destruct (k =? 0)%nat; cbn; repeat split; intros; congruence.
  - repeat split.
Qed.

Lemma quasi_newton_keeps (k : nat) (st : State') :
  s (quasi_newton params k st) = s st /\ idle st (quasi_newton params k st).
Proof.
  unfold quasi_newton, idle_buffer.
  destruct (0 <? k)%nat; [|repeat split].
  destruct (specialized_lbfgs params) eqn:Es.
  - destruct (slbfgs_apply SLB (slbfgs st) (it_p (cur st))) as [sl q].
    cbn. repeat split; intros; congruence.
  - destruct (lbfgs_apply LB (lbfgs st) (it_p (cur st))) as [lb q].
    cbn. repeat split; intros; congruence.
Qed.

Lemma initial_τ_keeps (k : nat) (st : State') :
  let st1 := fst (initial_τ params k st) in
  counters_step 0 (if (k =? 0)%nat then 0 else 1) 0 (s st) (s st1)
  /\ idle st st1.
Proof.
  unfold initial_τ, idle_buffer, counters_step. cbn zeta.
  destruct (k =? 0)%nat; cbn [fst]; [repeat split; lia|].
  destruct (hasNaN (qₖ st)); cbn [fst]; [|repeat split; lia].
  destruct (specialized_lbfgs params) eqn:Es; cbn;
    repeat split; intros; try congruence; lia.
Qed.

Lemma ls_pass_keeps (fuel : nat) (st st' : State') (τ τ' lc : real_t) :
  ls_pass params problem Σ fuel st τ = Some (st', τ', lc) ->
  s st' = s st /\ idle st st'.
Proof.
  unfold ls_pass, idle_buffer.
  destruct (candidate params st τ) as [x_next xh].
  destruct (update_lipschitz_in_linesearch params).
  - destruct (qub_loop LB problem Σ fuel _ _ _ _) as [[n1 lb]|] eqn:Eq;
      [|discriminate].
    intros H. inversion H; subst; clear H. cbn.
    split; [reflexivity|]. split; [|reflexivity].
    intros Hs. rewrite Hs in Eq. apply qub_loop_no_flush in Eq. exact Eq.
  - intros H. inversion H; subst; clear H. cbn. repeat split.
Qed.

Lemma ls_loop_keeps (fuel : nat) :
  forall (passes : nat) (st st' : State') (τ τ' lc : real_t),
    ls_loop params problem Σ passes fuel st τ = Some (st', τ', lc) ->
    s st' = s st /\ idle st st'.
Proof.
  induction passes as [|passes IH]; intros st st' τ τ' lc H; [discriminate|].
  simpl in H.
  destruct (ls_pass params problem Σ fuel st τ) as [[[st1 τ1] lc1]|] eqn:Ep;
    [|discriminate].
  apply ls_pass_keeps in Ep. destruct Ep as [Hs Hi].
  destruct (ls_again params lc1 τ1).
  - apply IH in H. destruct H as [Hs' Hi'].
    split; [congruence|]. eapply idle_trans; eassumption.
  - inversion H; subst. split; assumption.
Qed.

Lemma count_linesearch_failure_keeps (k : nat) (τ : real_t) (st : State') :
  let st1 := count_linesearch_failure params k τ st in
  counters_step (if (k =? 0)%nat then 0 else 1) 0 0 (s st) (s st1)
  /\ idle st st1.
Proof.
  unfold count_linesearch_failure, idle_buffer, counters_step. cbn zeta.
  destruct (k =? 0)%nat; cbn [negb]; rewrite ?andb_false_r;
    [repeat split; lia|].
  rewrite andb_true_r. destruct (r_ltb τ (τ_min params)); cbn;
    repeat split; lia.
Qed.

Lemma update_lbfgs_keeps (st : State') :
  let st1 := update_lbfgs params problem st in
  counters_step 0 0 1 (s st) (s st1) /\ idle st st1.
Proof.
  unfold update_lbfgs, idle_buffer, counters_step. cbn zeta.
  destruct (specialized_lbfgs params) eqn:Es.
  - destruct (slbfgs_update SLB _ _ _ _ _ _) as [sl ok].
    destruct ok; cbn; repeat split; intros; try congruence; lia.
  - destruct (lbfgs_update LB _ _ _) as [lb ok].
    destruct ok; cbn; repeat split; intros; try congruence; lia.
Qed.

Lemma accept_step_keeps (fuel k : nat) (st st' : State') :
  accept_step params problem Σ fuel k st = Some st' ->
  counters_step (if (k =? 0)%nat then 0 else 1) (if (k =? 0)%nat then 0 else 1) 1
    (s st) (s st')
  /\ idle st st'.
Proof.
  unfold accept_step.
  pose proof (quasi_newton_keeps k st) as [Hq1 Hq2].
  pose proof (initial_τ_keeps k (quasi_newton params k st)) as Hi.
  destruct (initial_τ params k (quasi_newton params k st)) as [st1 τ0] eqn:E0.
  cbn zeta in Hi. cbn [fst] in Hi. destruct Hi as [Hi1 Hi2].
  destruct (ls_loop params problem Σ fuel fuel st1 τ0) as [[[st2 τ'] lc]|] eqn:El;
    [|discriminate].
  intros H. inversion H; subst st'; clear H.
  apply ls_loop_keeps in El. destruct El as [Hl1 Hl2].
  pose proof (count_linesearch_failure_keeps k τ' st2) as [Hc1 Hc2].
  pose proof (update_lbfgs_keeps (count_linesearch_failure params k τ' st2))
    as [Hu1 Hu2].
  split.
  - unfold advance. cbn [s set_iterates].
    rewrite Hq1 in Hi1. rewrite <- Hl1 in Hi1.
    pose proof (counters_step_trans (counters_step_trans Hi1 Hc1) Hu1) as Ht.
    eapply counters_step_weaken; [exact Ht| | |]; lia.
  - apply idle_trans with (b := update_lbfgs params problem
                                  (count_linesearch_failure params k τ' st2));
      [|split; reflexivity].
    exact (idle_trans (idle_trans (idle_trans (idle_trans Hq2 Hi2) Hl2) Hc2) Hu2).
Qed.

Lemma iteration_keeps (fuel k : nat) (st st' : State') :
  iteration params env problem Σ ε fuel k st = Some (Continue st') ->
  counters_step (if (k =? 0)%nat then 0 else 1) (if (k =? 0)%nat then 0 else 1) 1
    (s st) (s st')
  /\ idle st st'.
Proof.
  unfold iteration. intros H.
  destruct (upper_bound_fit params problem Σ fuel k st) as [st1|] eqn:Eu;
    [|discriminate].
  apply upper_bound_fit_keeps in Eu. destruct Eu as [Hu1 Hu2].
  pose proof (initialize_slbfgs_keeps k st1) as [Hs1 Hs2].
  destruct (stop_crit problem (initialize_slbfgs params k st1)) as [st3 εₖ] eqn:Ec.
  assert (H3 : s st3 = s st /\ idle st st3).
  { unfold stop_crit in Ec. inversion Ec; subst st3. cbn [s set_grad_hat_ψₖ].
    split; [congruence|].
    eapply idle_trans; [exact Hu2|]. eapply idle_trans; [exact Hs2|].
    split; reflexivity. }
  destruct H3 as [H31 H32].
  destruct (check_stop params env problem Σ ε k εₖ st3) as [r|st4] eqn:Ek;
    [discriminate|].
  apply check_stop_continue in Ek. destruct Ek as [E4 _].
  destruct (accept_step params problem Σ fuel k st4) as [st5|] eqn:Ea;
    [|discriminate].
  inversion H; subst st5; clear H.
  apply accept_step_keeps in Ea. destruct Ea as [Ha1 Ha2].
  subst st4. cbn [s tick_stop tick_clock] in Ha1. rewrite H31 in Ha1.
  split; [exact Ha1|].
  eapply idle_trans; [exact H32|]. eapply idle_trans; [|exact Ha2].
  split; reflexivity.
Qed.

Lemma iteration_exit_keeps (fuel k : nat) (st r : State') :
  iteration params env problem Σ ε fuel k st = Some (Exit r) ->
  linesearch_failures (s r) = linesearch_failures (s st)
  /\ lbfgs_failures (s r) = lbfgs_failures (s st)
  /\ lbfgs_rejected (s r) = lbfgs_rejected (s st)
  /\ iterations (s r) = k
  /\ idle st r.
Proof.
  unfold iteration. intros H.
  destruct (upper_bound_fit params problem Σ fuel k st) as [st1|] eqn:Eu;
    [|discriminate].
  apply upper_bound_fit_keeps in Eu. destruct Eu as [Hu1 Hu2].
  pose proof (initialize_slbfgs_keeps k st1) as [Hs1 Hs2].
  destruct (stop_crit problem (initialize_slbfgs params k st1)) as [st3 εₖ] eqn:Ec.
  assert (H3 : s st3 = s st /\ idle st st3).
  { unfold stop_crit in Ec. inversion Ec; subst st3. cbn [s set_grad_hat_ψₖ].
    split; [congruence|].
    eapply idle_trans; [exact Hu2|]. eapply idle_trans; [exact Hs2|].
    split; reflexivity. }
  destruct H3 as [H31 H32].
  destruct (check_stop params env problem Σ ε k εₖ st3) as [r'|st4] eqn:Ek.
  - inversion H; subst r'; clear H.
    apply check_stop_exit in Ek.
    destruct Ek as (written & polled & status & Hr & _).
    subst r. unfold exit_state. cbn [s set_s set_exit linesearch_failures
      lbfgs_failures lbfgs_rejected iterations].
    rewrite H31. repeat split.
    + intros Hsp. destruct written, polled; unfold write_outputs;
        try destruct (calc_ẑ _ _ _ _); cbn; apply H32; exact Hsp.
    + intros Hsp. destruct written, polled; unfold write_outputs;
        try destruct (calc_ẑ _ _ _ _); cbn; apply H32; exact Hsp.
  - destruct (accept_step params problem Σ fuel k st4); discriminate.
Qed.

(** At the head of iteration [k] the counters have moved at most once per
    earlier iteration, the line-search and the quasi-Newton failures not in
    iteration 0, and the idle buffer is the one of the entry state. *)
Lemma reach_keeps (fuel : nat) (st0 : State') :
  forall (k : nat) (st : State'),
    reach params env problem Σ ε fuel st0 k st ->
    counters_step (k - 1) (k - 1) k (s st0) (s st) /\ idle st0 st.
Proof.
  induction 1 as [|k st st' Hr [IH1 IH2] Hi].
  - split; [apply counters_step_refl|apply idle_refl].
  - apply iteration_keeps in Hi. destruct Hi as [Hi1 Hi2].
    split; [|eapply idle_trans; eassumption].
    pose proof (counters_step_trans IH1 Hi1) as Ht.
    eapply counters_step_weaken; [exact Ht| | |];
      destruct k; simpl; lia.
Qed.

End BookkeepingLemmas.

(** ** The kernels, for every scalar type *)

Section KernelLemmas.
Context {RT : RealT}.
Local Open Scope rt_scope.

Lemma assign_app (done rest : vec) (r a : real_t) :
  assign (done ++ r :: rest) (length done) a = done ++ a :: rest.
Proof. induction done as [|d done IH]; simpl; [reflexivity|]. now rewrite IH. Qed.

Lemma nth_error_middle (done rest : vec) :
  nth_error (done ++ rest) (length done) = nth_error rest 0.
Proof. induction done as [|d done IH]; simpl; auto. Qed.

Lemma weigh_loop_spec :
  forall (count : nat) (done rest Σd Σr : vec) (acc : real_t),
    length done = length Σd ->
    weigh_loop count (length done) (Σd ++ Σr) (done ++ rest) acc
    = if (count <=? Nat.min (length rest) (length Σr))%nat
      then Some (fold_left r_add
                   (firstn count (binaryExpr (fun di Σi => di * Σi * di) rest Σr))
                   acc,
                 done
                 ++ firstn count (binaryExpr (fun di Σi => Σi * di) rest Σr)
                 ++ skipn count rest)
      else None.
Proof.
  induction count as [|count IH]; intros done rest Σd Σr acc Hlen.
  - reflexivity.
  - cbn [weigh_loop]. rewrite nth_error_middle.
    assert (HΣ : nth_error (Σd ++ Σr) (length done) = nth_error Σr 0)
      by (rewrite Hlen; apply nth_error_middle).
    rewrite HΣ. clear HΣ.
    destruct rest as [|r rest]; [reflexivity|].
    destruct Σr as [|σ Σr]; [reflexivity|].
    cbn [nth_error]. rewrite assign_app.
    replace (done ++ (σ * r) :: rest) with ((done ++ [σ * r]) ++ rest)
      by (rewrite <- app_assoc; reflexivity).
    replace (Σd ++ σ :: Σr) with ((Σd ++ [σ]) ++ Σr)
      by (rewrite <- app_assoc; reflexivity).
    replace (S (length done)) with (length (done ++ [σ * r]))
      by (rewrite length_app; simpl; lia).
    rewrite IH by (rewrite !length_app; simpl; lia).
    cbn [length binaryExpr firstn skipn fold_left].
    rewrite <- Nat.succ_min_distr.
    change (S count <=? S (Nat.min (length rest) (length Σr)))%nat
      with (count <=? Nat.min (length rest) (length Σr))%nat.
    destruct (count <=? Nat.min (length rest) (length Σr))%nat; [|reflexivity].
    rewrite <- app_assoc. reflexivity.
Qed.

Lemma binaryExpr_length (op : real_t -> real_t -> real_t) (a b : vec) :
  length (binaryExpr op a b) = Nat.min (length a) (length b).
Proof.
  revert b. induction a as [|ai a IH]; intros [|bi b]; simpl; auto.
Qed.

(** The loop of [calc_ψ_ŷ]: it weighs the first [m] coefficients and leaves
    the later ones. *)
Lemma weigh_spec :
  forall (m : nat) (d Σ : vec) (acc : real_t),
    (m <= Nat.min (length d) (length Σ))%nat ->
    weigh m d Σ acc
    = (fold_left r_add
         (firstn m (binaryExpr (fun di Σi => di * Σi * di) d Σ)) acc,
       firstn m (binaryExpr (fun di Σi => Σi * di) d Σ) ++ skipn m d).
Proof.
  induction m as [|m IH]; intros d Σ acc Hm.
  - destruct d, Σ; reflexivity.
  - destruct d as [|di d]; [simpl in Hm; lia|].
    destruct Σ as [|Σi Σ]; [simpl in Hm; lia|].
    cbn [weigh]. rewrite IH by (simpl in Hm; lia). reflexivity.
Qed.

(** With [p.m] the size of both vectors every coefficient is weighed. *)
Lemma weigh_full (m : nat) (d Σ : vec) (acc : real_t) :
  length d = m -> length Σ = m ->
  weigh m d Σ acc
  = (fold_left r_add (binaryExpr (fun di Σi => di * Σi * di) d Σ) acc,
     binaryExpr (fun di Σi => Σi * di) d Σ).
Proof.
  intros Hd HΣ. rewrite weigh_spec by (rewrite Hd, HΣ, Nat.min_id; lia).
  rewrite !firstn_all2 by (rewrite binaryExpr_length; lia).
  rewrite skipn_all2 by lia. rewrite app_nil_r. reflexivity.
Qed.

Lemma binaryExpr_flip (op : real_t -> real_t -> real_t) (a b : vec) :
  binaryExpr (fun x y => op y x) a b = binaryExpr op b a.
Proof.
  revert b. induction a as [|ai a IH]; intros [|bi b]; simpl; auto.
  now rewrite IH.
Qed.

Lemma constraint_sizes_difference (p : Problem) (x y Σ : vec) :
  constraint_sizes p y Σ ->
  length (projecting_difference (vadd (p_g p x) (vdiv y Σ)) (p_D p)) = p_m p.
Proof.
  intros (Hg & Hy & HΣ & Hl & Hu).
  unfold projecting_difference, project, vsub, vadd, vdiv.
  rewrite !binaryExpr_length, Hg, Hy, HΣ, Hl, Hu, !Nat.min_id. reflexivity.
Qed.

End KernelLemmas.

(** ** The kernels over exact arithmetic *)

Section ExactKernelLemmas.
Context {RT : RealT}.
Variable E : ExactArith RT.
Local Notation "⟦ a ⟧" := (toR E a) (at level 0, format "⟦ a ⟧").

Lemma toR_fold_add (l : vec) (acc : real_t) :
  ⟦fold_left r_add l acc⟧ = (⟦acc⟧ + fold_right (fun a r => ⟦a⟧ + r) 0 l)%R.
Proof.
  revert acc. induction l as [|a l IH]; intros acc; simpl; [lra|].
  rewrite IH, (toR_add E). lra.
Qed.

Lemma toR_dot (a b : vec) : ⟦dot a b⟧ = Rdot E a b.
Proof.
  unfold dot. rewrite toR_fold_add, (toR_zero E), Rplus_0_l.
  revert b. induction a as [|ai a IH]; intros [|bi b]; simpl; try reflexivity.
  rewrite IH, (toR_mul E). reflexivity.
Qed.

Lemma Rdot_self_nonneg (a : vec) : (0 <= Rdot E a a)%R.
Proof. induction a as [|ai a IH]; simpl; [lra|]. nra. Qed.

Lemma squaredNorm_nonneg (a : vec) : (0 <= ⟦squaredNorm a⟧)%R.
Proof. unfold squaredNorm. rewrite toR_dot. apply Rdot_self_nonneg. Qed.

(** The projected step from a point of the box: every coefficient of [p]
    lies between [0] and [−γ ∇ψᵢ]. *)
Lemma step_descends (γ : real_t) :
  (0 < ⟦γ⟧)%R ->
  forall (lb ub x g : vec),
    in_box E lb ub x ->
    let p := binaryExpr r_fmin
               (binaryExpr r_fmax (scale (r_neg γ) g) (vsub lb x)) (vsub ub x) in
    (Rdot E g p <= - Rdot E p p / ⟦γ⟧)%R.
Proof.
  intros Hγ lb ub x. revert lb ub.
  induction x as [|xi x IH]; intros lb ub g Hin; cbn zeta.
  - destruct g; cbn; try (destruct lb; cbn); try (destruct ub; cbn); lra.
  - destruct lb as [|l lb]; [destruct Hin|].
    destruct ub as [|u ub]; [destruct Hin|].
    destruct Hin as [Hx Hin].
    destruct g as [|gi g]; [cbn; lra|].
    specialize (IH lb ub g Hin). cbn zeta in IH. cbn.
    fold (scale (r_neg γ) g).
    set (p' := binaryExpr r_fmin
                 (binaryExpr r_fmax (scale (r_neg γ) g) (vsub lb x)) (vsub ub x))
      in *.
    rewrite (toR_fmin E), (toR_fmax E), !(toR_sub E), (toR_mul E), (toR_neg E).
    set (v := (- ⟦γ⟧ * ⟦gi⟧)%R).
    set (q := Rmin (Rmax v (⟦l⟧ - ⟦xi⟧)) (⟦u⟧ - ⟦xi⟧)).
    assert (Hq : (0 <= q <= v \/ v <= q <= 0)%R).
    { unfold q, Rmin, Rmax.
      destruct (Rle_dec v (⟦l⟧ - ⟦xi⟧));
        repeat match goal with
               | |- context [Rle_dec ?a ?b] => destruct (Rle_dec a b)
               end; lra. }
    assert (Hg : (⟦gi⟧ = - v / ⟦γ⟧)%R) by (unfold v; field; lra).
    assert (Hc : (⟦gi⟧ * q <= - (q * q) / ⟦γ⟧)%R).
    { rewrite Hg.
      replace (- v / ⟦γ⟧ * q)%R with (- (v * q) / ⟦γ⟧)%R by (field; lra).
      apply Rmult_le_compat_r; [left; apply Rinv_0_lt_compat; exact Hγ|].
      apply Ropp_le_contravar. nra. }
    replace (- (q * q + Rdot E p' p') / ⟦γ⟧)%R
      with (- (q * q) / ⟦γ⟧ + - Rdot E p' p' / ⟦γ⟧)%R by (field; lra).
    lra.
Qed.

(** [calc_ẑ] and [calc_ψ_ŷ] at the same point: with non-zero weights the
    multiplier estimate is [y + Σ (g(x̂) − ẑ)]. *)
Lemma multiplier_update_holds :
  forall (gx y Σ lb ub : vec),
    Forall (fun σ => ⟦σ⟧ <> 0%R) Σ ->
    let ζ := vadd gx (vdiv y Σ) in
    let box := {| lowerbound := lb; upperbound := ub |} in
    multiplier_update E y Σ (vsub gx (project ζ box))
      (binaryExpr (fun di Σi => r_mul Σi di) (projecting_difference ζ box) Σ).
Proof.
  unfold projecting_difference, project. cbn [lowerbound upperbound].
  induction gx as [|gi gx IH]; intros y Σ lb ub HΣ; cbn zeta; [exact I|].
  destruct y as [|yi y]; [exact I|].
  destruct Σ as [|σ Σ]; [exact I|].
  destruct lb as [|l lb]; [exact I|].
  destruct ub as [|u ub]; [exact I|].
  inversion HΣ as [|? ? Hσ HΣ']; subst.
  cbn. split; [|apply (IH y Σ lb ub HΣ')].
  rewrite (toR_mul E), !(toR_sub E), (toR_add E), (toR_div E _ _ Hσ).
  field. exact Hσ.
Qed.

Lemma project_in_box (v : vec) (box : Box) :
  ordered_box E box ->
  in_box E (lowerbound box) (upperbound box) (project v box).
Proof.
  unfold project, ordered_box.
  generalize (lowerbound box) (upperbound box). intros lb ub Hord. revert v.
  induction Hord as [|l u lb ub Hlu Hord IH]; intros v.
  - destruct v; exact I.
  - destruct v as [|vi v]; [exact I|]. cbn. split; [|apply IH].
    rewrite (toR_fmin E), (toR_fmax E). unfold Rmin, Rmax.
    destruct (Rle_dec _ _); destruct (Rle_dec _ _); lra.
Qed.

End ExactKernelLemmas.

(** ** Termination of the inner loops *)

Section TerminationLemmas.
Context {RT : RealT}.
Variable E : ExactArith RT.
Variable LB : LBFGS_class.
Variable SLB : SpecializedLBFGS_class.
Variable params : PANOCParams.
Variable env : Environment.
Variable problem : Problem.
Variable Σ : vec.
Variable ε : real_t.
Local Notation State' := (State LB SLB).
Local Notation "⟦ a ⟧" := (toR E a) (at level 0, format "⟦ a ⟧").
Local Notation ready := (@ready RT E LB SLB).
Local Notation head_ready := (@head_ready RT E LB SLB params env problem Σ).

Lemma qub_pass_it_x (y : vec) (it : iterate) :
  it_x (qub_pass problem Σ y it) = it_x it.
Proof.
  unfold qub_pass.
  destruct (calc_x_hat problem _ (it_x it) (it_grad_ψ it)) as [[xh p] b].
  destruct (calc_ψ_ŷ problem xh y Σ) as [ψh ŷ]. reflexivity.
Qed.

Lemma shrinks_it_x (y : vec) (it it' : iterate) :
  shrinks problem Σ y it it' -> it_x it' = it_x it.
Proof.
  intros H.
  refine (@shrinks_ind_inv _ problem Σ (fun i => it_x i = it_x it) y _ it it' H
            eq_refl).
  intros i Hi. now rewrite qub_pass_it_x.
Qed.

Lemma qub_pass_L_lower (b : R) (y : vec) (it : iterate) :
  (0 < b)%R -> (b <= ⟦it_L it⟧)%R -> (b <= ⟦it_L (qub_pass problem Σ y it)⟧)%R.
Proof.
  intros Hb H.
  pose proof (qub_pass_scalars E problem Σ y it) as (HL & _). cbn zeta in HL.
  rewrite HL. lra.
Qed.

Lemma shrinks_L_lower (b : R) (y : vec) (it it' : iterate) :
  (0 < b)%R -> shrinks problem Σ y it it' ->
  (b <= ⟦it_L it⟧)%R -> (b <= ⟦it_L it'⟧)%R.
Proof.
  intros Hb H.
  refine (@shrinks_ind_inv _ problem Σ (fun i => (b <= ⟦it_L i⟧)%R) y _ it it' H).
  intros i Hi. now apply qub_pass_L_lower.
Qed.

(** A violated bound at a consistent iterate means that the estimate is
    below the constant of the quadratic upper bound. *)
Lemma violated_below (y : vec) (Lbar : R) (it : iterate) :
  consistent problem Σ y it ->
  quadratic_upper_bound E problem Σ y Lbar (it_x it) ->
  qub_violated it = true ->
  (⟦it_L it⟧ < Lbar)%R.
Proof.
  intros (H1 & H2 & H3 & H4 & H5) Hq Hv.
  specialize (Hq (it_γ it)). cbn zeta in Hq.
  rewrite H1 in Hq. cbn [fst snd] in Hq. rewrite H2 in Hq. cbn [fst snd] in Hq.
  rewrite H3, <- H4, <- H5 in Hq. cbn [fst] in Hq.
  unfold qub_violated in Hv. apply (ltb_toR E) in Hv.
  rewrite !(toR_add E), !(toR_mul E), (toR_zero E), (toR_half E) in Hv.
  assert (Hn : (0 <= ⟦it_norm_sq_p it⟧)%R)
    by (rewrite H5; apply squaredNorm_nonneg).
  destruct (Rlt_dec ⟦it_L it⟧ Lbar) as [Hl|Hl]; [exact Hl|]. exfalso.
  assert (Lbar / 2 * ⟦it_norm_sq_p it⟧ <= / 2 * ⟦it_L it⟧ * ⟦it_norm_sq_p it⟧)%R;
    [|lra].
  apply Rmult_le_compat_r; [exact Hn|]. lra.
Qed.

Lemma qub_loop_terminates_aux (flush : bool) (y : vec) (Lbar : R) :
  forall (n fuel : nat) (it : iterate) (lb : lbfgs_t LB),
    consistent problem Σ y it ->
    quadratic_upper_bound E problem Σ y Lbar (it_x it) ->
    (0 < ⟦it_L it⟧)%R ->
    (Lbar <= 2 ^ n * ⟦it_L it⟧)%R ->
    (n <= fuel)%nat ->
    exists (it' : iterate) (lb' : lbfgs_t LB),
      qub_loop LB problem Σ fuel flush y it lb = Some (it', lb')
      /\ (⟦it_L it⟧ <= ⟦it_L it'⟧ <= Rmax ⟦it_L it⟧ (2 * Lbar))%R.
Proof.
  induction n as [|n IH]; intros fuel it lb Hc Hq HL Hn Hf.
  - destruct (qub_violated it) eqn:Ev.
    + exfalso. pose proof (violated_below Hc Hq Ev). simpl in Hn. lra.
    + exists it, lb. split; [destruct fuel; simpl; rewrite Ev; reflexivity|].
      split; [lra|apply Rmax_l].
  - destruct (qub_violated it) eqn:Ev.
    + pose proof (violated_below Hc Hq Ev) as Hlow.
      destruct fuel as [|fuel]; [lia|].
      pose proof (qub_pass_scalars E problem Σ y it) as (HL2 & _).
      cbn zeta in HL2.
      destruct (IH fuel (qub_pass problem Σ y it)
                  (if flush then lbfgs_reset LB lb else lb)) as (it' & lb' & Hr & Hb).
      * apply qub_pass_consistent. apply Hc.
      * rewrite qub_pass_it_x. exact Hq.
      * rewrite HL2. lra.
      * rewrite HL2. simpl in Hn. lra.
      * lia.
      * exists it', lb'. split; [simpl; rewrite Ev; exact Hr|].
        rewrite HL2 in Hb. destruct Hb as [Hb1 Hb2].
        split; [lra|].
        eapply Rle_trans; [exact Hb2|].
        apply Rmax_lub; [|apply Rmax_r].
        eapply Rle_trans; [|apply Rmax_r]. lra.
    + exists it, lb. split; [destruct fuel; simpl; rewrite Ev; reflexivity|].
      split; [lra|apply Rmax_l].
Qed.


Lemma evaluate_candidate_L (y : vec) (c old : iterate) (x_next : vec) :
  it_L (evaluate_candidate problem Σ y c old x_next) = it_L c
  /\ it_x (evaluate_candidate problem Σ y c old x_next) = x_next.
Proof.
  unfold evaluate_candidate.
  destruct (calc_ψ_grad_ψ problem x_next y Σ) as [ψ g].
  destruct (calc_x_hat problem (it_γ c) x_next g) as [[xh p] b].
  destruct (calc_ψ_ŷ problem xh y Σ) as [ψh ŷ]. split; reflexivity.
Qed.

Lemma ls_pass_returns (y : vec) (Lbar : R) (N fuel : nat) (st : State')
  (τ : real_t) :
  (forall x', quadratic_upper_bound E problem Σ y Lbar x') ->
  (Lbar <= 2 ^ N * ⟦r_epsilon⟧)%R ->
  (N <= fuel)%nat ->
  ready y st ->
  exists (st' : State') (lc : real_t),
    ls_pass params problem Σ fuel st τ = Some (st', (τ / r_two)%rt, lc)
    /\ ready y st'.
Proof.
  intros Hq HN Hf [Hy HL]. unfold ls_pass.
  destruct (candidate params st τ) as [x_next xh].
  pose proof (toR_epsilon E) as He.
  destruct (update_lipschitz_in_linesearch params).
  - set (n0 := evaluate_candidate problem Σ (out_y (caller st)) (cur st)
                 (nxt st) x_next).
    destruct (evaluate_candidate_L (out_y (caller st)) (cur st) (nxt st) x_next)
      as [HL0 Hx0]. fold n0 in HL0, Hx0.
    destruct (@qub_loop_terminates_aux (negb (specialized_lbfgs params))
                (out_y (caller st)) Lbar N fuel n0 (lbfgs st))
      as (n1 & lb & Hr & _).
    + apply evaluate_candidate_consistent.
    + rewrite Hy. apply Hq.
    + rewrite HL0. lra.
    + rewrite HL0. eapply Rle_trans; [exact HN|].
      apply Rmult_le_compat_l; [apply pow_le; lra|exact HL].
    + exact Hf.
    + rewrite Hr. eexists _, _. split; [reflexivity|].
      split; [exact Hy|exact HL].
  - eexists _, _. split; [reflexivity|]. split; [exact Hy|exact HL].
Qed.

Lemma ls_loop_returns (y : vec) (Lbar : R) (N fuel : nat) :
  (forall x', quadratic_upper_bound E problem Σ y Lbar x') ->
  (Lbar <= 2 ^ N * ⟦r_epsilon⟧)%R ->
  (N <= fuel)%nat ->
  forall (passes : nat) (st : State') (τ : real_t),
    ready y st ->
    (⟦τ⟧ / 2 ^ S passes < ⟦τ_min params⟧)%R ->
    exists (st' : State') (τ' lc : real_t),
      ls_loop params problem Σ (S passes) fuel st τ = Some (st', τ', lc).
Proof.
  intros Hq HN Hf.
  assert (H2 : ⟦r_two⟧ <> 0%R) by (rewrite (toR_two E); lra).
  induction passes as [|passes IH]; intros st τ Hr Hτ.
  - destruct (ls_pass_returns τ Hq HN Hf Hr) as (st1 & lc & Hp & Hr1).
    cbn [ls_loop]. rewrite Hp.
    destruct (ls_again params lc (τ / r_two)%rt) eqn:Ea.
    + exfalso. unfold ls_again in Ea. apply andb_true_iff in Ea.
      destruct Ea as [_ Ea]. apply (leb_toR E) in Ea.
      rewrite (toR_div E _ _ H2), (toR_two E) in Ea. simpl in Hτ.
      rewrite Rmult_1_r in Hτ. lra.
    + eauto.
  - destruct (ls_pass_returns τ Hq HN Hf Hr) as (st1 & lc & Hp & Hr1).
    cbn [ls_loop]. rewrite Hp.
    destruct (ls_again params lc (τ / r_two)%rt) eqn:Ea; [|eauto].
    apply (IH st1 (τ / r_two)%rt Hr1).
    rewrite (toR_div E _ _ H2), (toR_two E).
    replace (⟦τ⟧ / 2 / 2 ^ S passes)%R with (⟦τ⟧ / 2 ^ S (S passes))%R; [exact Hτ|].
    simpl. field. apply pow_nonzero. lra.
Qed.

Lemma initial_τ_range (k : nat) (st : State') :
  snd (initial_τ params k st) = r_zero \/ snd (initial_τ params k st) = r_one.
Proof.
  unfold initial_τ. destruct (k =? 0)%nat; [left; reflexivity|].
  destruct (hasNaN (qₖ st)); [left|right]; reflexivity.
Qed.

Lemma accept_step_returns (y : vec) (Lbar : R) (N fuel k : nat) (st : State') :
  (forall x', quadratic_upper_bound E problem Σ y Lbar x') ->
  (Lbar <= 2 ^ N * ⟦r_epsilon⟧)%R ->
  (/ 2 ^ N < ⟦τ_min params⟧)%R ->
  (1 <= N <= fuel)%nat ->
  ready y st ->
  exists st' : State', accept_step params problem Σ fuel k st = Some st'.
Proof.
  intros Hq HN Hτ Hf Hr. unfold accept_step.
  pose proof (quasi_newton_frame params k st) as (Q1 & _ & Q3 & _).
  pose proof (initial_τ_frame params k (quasi_newton params k st)) as (I1 & _ & I3 & _).
  pose proof (initial_τ_range k (quasi_newton params k st)) as Hrange.
  destruct (initial_τ params k (quasi_newton params k st)) as [st1 τ0] eqn:E0.
  cbn [fst snd] in *.
  assert (Hr1 : ready y st1).
  { destruct Hr as [Hy HL]. split.
    - unfold world in Q3, I3. congruence.
    - rewrite I1, Q1. exact HL. }
  destruct fuel as [|passes]; [lia|].
  destruct (@ls_loop_returns y Lbar N (S passes) Hq HN ltac:(lia) passes st1 τ0 Hr1)
    as (st2 & τ' & lc & Hl).
  - assert (Hpow : (/ 2 ^ S passes <= / 2 ^ N)%R).
    { apply Rinv_le_contravar; [apply pow_lt; lra|].
      apply Rle_pow; [lra|lia]. }
    assert (Hp : (0 < / 2 ^ S passes)%R)
      by (apply Rinv_0_lt_compat, pow_lt; lra).
    destruct Hrange as [H0|H1]; subst τ0.
    + rewrite (toR_zero E). unfold Rdiv. rewrite Rmult_0_l. lra.
    + rewrite (toR_one E). unfold Rdiv. rewrite Rmult_1_l. lra.
  - rewrite Hl. eauto.
Qed.

Lemma iteration_returns (x z y err_z : vec) (Lbar : R) (N fuel k : nat)
  (st : State') :
  (forall x', quadratic_upper_bound E problem Σ y Lbar x') ->
  (Lbar <= 2 ^ N * ⟦r_epsilon⟧)%R ->
  (/ 2 ^ N < ⟦τ_min params⟧)%R ->
  (1 <= N <= fuel)%nat ->
  head_ready x z y err_z k st ->
  exists fl : Flow LB SLB,
    iteration params env problem Σ ε fuel k st = Some fl.
Proof.
  intros Hq HN Hτ Hf [(Hc & _ & _ & _ & Hcons) HL].
  pose proof (toR_epsilon E) as He.
  unfold iteration.
  assert (Hfit : exists st1,
             upper_bound_fit params problem Σ fuel k st = Some st1
             /\ caller st1 = caller st
             /\ (⟦r_epsilon⟧ <= ⟦it_L (cur st1)⟧)%R).
  { unfold upper_bound_fit.
    destruct ((k =? 0)%nat || negb (update_lipschitz_in_linesearch params));
      [|eauto].
    destruct (@qub_loop_terminates_aux
                ((0 <? k)%nat && negb (specialized_lbfgs params))
                (out_y (caller st)) Lbar N fuel (cur st) (lbfgs st))
      as (it & lb & Hr & Hb & _).
    - rewrite Hc. exact Hcons.
    - rewrite Hc. apply Hq.
    - lra.
    - eapply Rle_trans; [exact HN|].
      apply Rmult_le_compat_l; [apply pow_le; lra|exact HL].
    - lia.
    - rewrite Hr. eexists. split; [reflexivity|]. split; [reflexivity|].
      cbn. lra. }
  destruct Hfit as (st1 & Hu & Hc1 & HL1). rewrite Hu.
  destruct (stop_crit problem (initialize_slbfgs params k st1)) as [st3 εₖ] eqn:Ec.
  assert (H3 : caller st3 = caller st1 /\ cur st3 = cur st1).
  { unfold stop_crit, initialize_slbfgs in Ec.
    destruct (specialized_lbfgs params && (k =? 0)%nat);
      inversion Ec; subst; split; reflexivity. }
  destruct H3 as [H31 H32].
  destruct (check_stop params env problem Σ ε k εₖ st3) as [r|st4] eqn:Ek;
    [eauto|].
  apply check_stop_continue in Ek. destruct Ek as (E4 & _).
  destruct (@accept_step_returns y Lbar N fuel k st4 Hq HN Hτ Hf) as (st' & Ha).
  - subst st4. split; cbn.
    + rewrite H31, Hc1, Hc. reflexivity.
    + rewrite H32. exact HL1.
  - rewrite Ha. eauto.
Qed.

Lemma iteration_L_lower (fuel k : nat) (st st' : State') :
  iteration params env problem Σ ε fuel k st = Some (Continue st') ->
  (⟦r_epsilon⟧ <= ⟦it_L (cur st)⟧)%R ->
  (⟦r_epsilon⟧ <= ⟦it_L (cur st')⟧)%R.
Proof.
  intros Hi HL. pose proof (toR_epsilon E) as He.
  apply iteration_spec in Hi.
  destruct Hi as (it & st3 & Hs & _ & Hcur & _ & _ & _ & _ & Hm).
  destruct (check_stop params env problem Σ ε k _ st3) as [r|st4] eqn:Ec;
    [discriminate|].
  destruct Hm as (st'' & Ha & Heq). inversion Heq; subst st''; clear Heq.
  apply check_stop_continue in Ec. destruct Ec as (E4 & _).
  apply accept_step_spec in Ha.
  destruct Ha as (n1 & old & x_next & xh & τ' & lc & Hs1 & _ & Hc1 & _).
  cbn zeta in Hs1. rewrite Hc1. cbn [it_L set_φ].
  eapply shrinks_L_lower; [exact He|exact Hs1|].
  destruct (evaluate_candidate_L (out_y (caller st4)) (cur st4) old x_next)
    as [HL0 _].
  rewrite HL0. subst st4. cbn [cur tick_stop tick_clock]. rewrite Hcur.
  eapply shrinks_L_lower; [exact He|exact Hs|exact HL].
Qed.

Lemma main_loop_returns_some (x z y err_z : vec) (Lbar : R) (N fuel : nat) :
  (forall x', quadratic_upper_bound E problem Σ y Lbar x') ->
  (Lbar <= 2 ^ N * ⟦r_epsilon⟧)%R ->
  (/ 2 ^ N < ⟦τ_min params⟧)%R ->
  (1 <= N <= fuel)%nat ->
  forall (remaining k : nat) (st : State'),
    (k + remaining = max_iter params)%nat ->
    head_ready x z y err_z k st ->
    exists r : State',
      main_loop params env problem Σ ε fuel (S remaining) k st = Returned r.
Proof.
  intros Hq HN Hτ Hf.
  induction remaining as [|remaining IH]; intros k st Hk Hh.
  - pose proof (@main_loop_no_throw _ LB SLB params env problem Σ ε fuel 0 k st Hk)
      as Hno.
    destruct (iteration_returns Hq HN Hτ Hf Hh) as (fl & Hi).
    simpl in *. rewrite Hi in *. destruct fl as [r|st']; [eauto|].
    exfalso. apply Hno. reflexivity.
  - destruct (iteration_returns Hq HN Hτ Hf Hh) as (fl & Hi).
    cbn [main_loop]. rewrite Hi. destruct fl as [r|st']; [eauto|].
    apply (IH (S k) st'); [lia|].
    destruct Hh as [Hh HL]. split.
    + eapply iteration_head; eassumption.
    + eapply iteration_L_lower; eassumption.
Qed.

End TerminationLemmas.

(** ** The estimate of the Lipschitz constant *)

Section EstimateLemmas.
Context {RT : RealT}.
Variable E : ExactArith RT.
Variable LB : LBFGS_class.
Variable SLB : SpecializedLBFGS_class.
Variable params : PANOCParams.
Variable env : Environment.
Variable problem : Problem.
Variable Σ : vec.
Variable ε : real_t.
Local Notation State' := (State LB SLB).
Local Notation "⟦ a ⟧" := (toR E a) (at level 0, format "⟦ a ⟧").

Lemma shrinks_L_upper (y : vec) (Lbar : R) (it it' : iterate) :
  (forall x', quadratic_upper_bound E problem Σ y Lbar x') ->
  shrinks problem Σ y it it' ->
  consistent problem Σ y it ->
  (0 < ⟦it_L it⟧)%R ->
  (⟦it_L it'⟧ <= Rmax ⟦it_L it⟧ (2 * Lbar))%R.
Proof.
  intros Hq Hs. induction Hs as [it|it it' Hv Hs IH]; intros Hc HL.
  - apply Rmax_l.
  - pose proof (violated_below Hc (Hq (it_x it)) Hv) as Hlow.
    pose proof (qub_pass_scalars E problem Σ y it) as (HL2 & _).
    cbn zeta in HL2.
    assert (Hc' : consistent problem Σ y (qub_pass problem Σ y it))
      by (apply qub_pass_consistent; apply Hc).
    specialize (IH Hc'). rewrite HL2 in IH.
    eapply Rle_trans; [apply IH; lra|].
    apply Rmax_lub; [|apply Rmax_r].
    eapply Rle_trans; [|apply Rmax_r]. lra.
Qed.

Lemma iteration_L_upper (x z y err_z : vec) (Lbar B : R) (fuel k : nat)
  (st st' : State') :
  (forall x', quadratic_upper_bound E problem Σ y Lbar x') ->
  (2 * Lbar <= B)%R ->
  head_inv params env problem Σ x z y err_z k st ->
  (0 < ⟦it_L (cur st)⟧ <= B)%R ->
  iteration params env problem Σ ε fuel k st = Some (Continue st') ->
  (⟦it_L (cur st)⟧ <= ⟦it_L (cur st')⟧ <= B)%R.
Proof.
  intros Hq HB (Hc & _ & _ & _ & Hcons) HL Hi.
  apply iteration_spec in Hi.
  destruct Hi as (it & st3 & Hs & _ & Hcur & _ & Hw & _ & _ & Hm).
  destruct (check_stop params env problem Σ ε k _ st3) as [r|st4] eqn:Ec;
    [discriminate|].
  destruct Hm as (st'' & Ha & Heq). inversion Heq; subst st''; clear Heq.
  apply check_stop_continue in Ec. destruct Ec as (E4 & _).
  apply accept_step_spec in Ha.
  destruct Ha as (n1 & old & x_next & xh & τ' & lc & Hs1 & _ & Hc1 & _).
  cbn zeta in Hs1.
  assert (Hy : out_y (caller st) = y) by (rewrite Hc; reflexivity).
  assert (Hy4 : out_y (caller st4) = y).
  { subst st4. cbn. unfold world in Hw. congruence. }
  rewrite Hy in Hs. rewrite Hy4 in Hs1.
  assert (Hit : (⟦it_L (cur st)⟧ <= ⟦it_L it⟧ <= B)%R).
  { split.
    - apply (@shrinks_L_lower _ E problem Σ ⟦it_L (cur st)⟧ y (cur st) it);
        [apply HL|exact Hs|lra].
    - eapply Rle_trans; [apply (shrinks_L_upper Hq Hs Hcons); apply HL|].
      apply Rmax_lub; lra. }
  destruct (evaluate_candidate_L problem Σ y (cur st4) old x_next) as [HL0 _].
  assert (H4 : it_L (cur st4) = it_L it) by (subst st4; cbn; congruence).
  assert (Hpos : (0 < ⟦it_L it⟧)%R) by lra.
  rewrite Hc1. cbn [it_L set_φ]. split.
  - eapply Rle_trans; [apply Hit|].
    apply (@shrinks_L_lower _ E problem Σ ⟦it_L it⟧ y
             (evaluate_candidate problem Σ y (cur st4) old x_next) n1);
      [exact Hpos|exact Hs1|rewrite HL0, H4; lra].
  - eapply Rle_trans.
    + apply (shrinks_L_upper Hq Hs1);
        [apply evaluate_candidate_consistent|rewrite HL0, H4; exact Hpos].
    + rewrite HL0, H4. apply Rmax_lub; lra.
Qed.

End EstimateLemmas.

(** ** Properties of the kernels and of a call *)

Section BookkeepingProperties.
Context {RT : RealT}.
Variable LB : LBFGS_class.
Variable SLB : SpecializedLBFGS_class.
Variable params : PANOCParams.
Variable env : Environment.
Variable problem : Problem.
Variable Σ : vec.
Variable ε : real_t.
Local Notation State' := (State LB SLB).

Lemma initialize_bookkeeping (x z y err_z : vec) :
  let fresh (st : State') :=
    (specialized_lbfgs params = true -> lbfgs st = lbfgs_default LB)
    /\ (specialized_lbfgs params = false -> slbfgs st = slbfgs_default SLB) in
  match initialize LB SLB params env problem Σ x z y err_z with
  | Exit r => s r = set_status (default_Stats env) NotFinite /\ fresh r
  | Continue st => s st = default_Stats env /\ fresh st
  end.
Proof.
  cbn zeta. unfold initialize.
  destruct (calc_ψ_grad_ψ problem x y Σ) as [ψ g].
  destruct (clamp_L _) as [L|].
  - destruct (calc_x_hat problem _ x g) as [[xh p] b].
    destruct (calc_ψ_ŷ problem xh y Σ) as [ψh ŷ].
    cbn. destruct (specialized_lbfgs params); repeat split; congruence.
  - cbn. destruct (specialized_lbfgs params); repeat split; congruence.
Qed.

(** X1.  A call never reaches the [throw std::logic_error] after the main
    loop, because the iteration with [k = max_iter] always returns: a call
    returns its [Stats], unless one of its inner loops does not end. *)
Theorem solve_never_throws (fuel : nat) (x z y err_z : vec) :
  (exists r : State',
      solve LB SLB params env problem Σ ε fuel x z y err_z = Returned r)
  \/ solve LB SLB params env problem Σ ε fuel x z y err_z = OutOfFuel.
Proof.
  unfold solve.
  destruct (initialize LB SLB params env problem Σ x z y err_z) as [r|st0];
    [left; eauto|].
  pose proof (@main_loop_no_throw _ LB SLB params env problem Σ ε fuel
                (max_iter params) 0 st0 eq_refl) as H.
  destruct (main_loop params env problem Σ ε fuel (S (max_iter params)) 0 st0);
    [left; eauto|congruence|right; reflexivity].
Qed.

(** X2.  The three counters of [Stats] start from their default values and
    only grow: [linesearch_failures] and [lbfgs_failures] by at most one in
    every iteration but the first, [lbfgs_rejected] by at most one in every
    iteration; the iteration that returns counts nothing. *)
Theorem counters_bounded (fuel : nat) (x z y err_z : vec) (r : State') :
  solve LB SLB params env problem Σ ε fuel x z y err_z = Returned r ->
  let d := default_Stats env in
  let k := iterations (s r) in
  (linesearch_failures d <= linesearch_failures (s r)
   <= linesearch_failures d + (k - 1))%nat
  /\ (lbfgs_failures d <= lbfgs_failures (s r) <= lbfgs_failures d + (k - 1))%nat
  /\ (lbfgs_rejected d <= lbfgs_rejected (s r) <= lbfgs_rejected d + k)%nat.
Proof.
  unfold solve. intros H. cbn zeta.
  pose proof (initialize_bookkeeping x z y err_z) as Hb. cbn zeta in Hb.
  destruct (initialize LB SLB params env problem Σ x z y err_z) as [r0|st0] eqn:E0.
  - inversion H; subst r0. destruct Hb as [Hs _]. rewrite Hs.
    cbn. lia.
  - destruct Hb as [Hs0 _].
    eapply main_loop_returns in H; [|constructor].
    destruct H as (k & st & Hr & _ & Hi).
    apply reach_keeps in Hr. destruct Hr as [Hc _].
    apply iteration_exit_keeps in Hi.
    destruct Hi as (H1 & H2 & H3 & H4 & _).
    rewrite H1, H2, H3, H4. rewrite Hs0 in Hc.
    destruct Hc as (_ & _ & _ & _ & C1 & C2 & C3). lia.
Qed.

(** X3.  The L-BFGS object that [specialized_lbfgs] does not select is never
    resized, initialised, applied, updated or reset: on return it is still
    the default-constructed one. *)
Theorem idle_buffer_untouched (fuel : nat) (x z y err_z : vec) (r : State') :
  solve LB SLB params env problem Σ ε fuel x z y err_z = Returned r ->
  (specialized_lbfgs params = true -> lbfgs r = lbfgs_default LB)
  /\ (specialized_lbfgs params = false -> slbfgs r = slbfgs_default SLB).
Proof.
  unfold solve. intros H.
  pose proof (initialize_bookkeeping x z y err_z) as Hb. cbn zeta in Hb.
  destruct (initialize LB SLB params env problem Σ x z y err_z) as [r0|st0] eqn:E0.
  - inversion H; subst r0. apply Hb.
  - destruct Hb as [_ [Hb1 Hb2]].
    eapply main_loop_returns in H; [|constructor].
    destruct H as (k & st & Hr & _ & Hi).
    apply (reach_keeps) in Hr. destruct Hr as [_ [I1 I2]].
    apply iteration_exit_keeps in Hi.
    destruct Hi as (_ & _ & _ & _ & [J1 J2]).
    split; intros Hs.
    + rewrite (J1 Hs), (I1 Hs). exact (Hb1 Hs).
    + rewrite (J2 Hs), (I2 Hs). exact (Hb2 Hs).
Qed.

End BookkeepingProperties.

Section KernelProperties.
Context {RT : RealT}.
Local Open Scope rt_scope.

(** X4.  The loop of [calc_ψ_ŷ] over [i < p.m] weighs the first [p.m]
    coefficients of [d = ζ − Π_D(ζ)] by [Σ], leaves the later ones as they are
    and sums [dᵢ Σᵢ dᵢ] in index order; it indexes out of range when [p.m]
    exceeds the size of [d] or of [Σ].  When both sizes are [p.m] its result
    is the one of the coefficient-wise form. *)
Theorem psi_loop_vectorised (p : Problem) (x y Σ : vec) :
  let d := projecting_difference (vadd (p_g p x) (vdiv y Σ)) (p_D p) in
  calc_ψ_ŷ_indexed p x y Σ
  = (if (p_m p <=? Nat.min (length d) (length Σ))%nat
     then Some (p_f p x
                + r_half
                  * fold_left r_add
                      (firstn (p_m p)
                         (binaryExpr (fun di Σi => di * Σi * di) d Σ)) r_zero,
                firstn (p_m p) (binaryExpr (fun di Σi => Σi * di) d Σ)
                ++ skipn (p_m p) d)
     else None)
  /\ (length d = p_m p -> length Σ = p_m p ->
      calc_ψ_ŷ_indexed p x y Σ = Some (calc_ψ_ŷ p x y Σ)).
Proof.
  cbn zeta. unfold calc_ψ_ŷ_indexed.
  set (d := projecting_difference (vadd (p_g p x) (vdiv y Σ)) (p_D p)).
  pose proof (@weigh_loop_spec _ (p_m p) [] d [] Σ r_zero eq_refl) as H.
  cbn [app length] in H. rewrite H. clear H.
  split.
  - destruct (p_m p <=? Nat.min (length d) (length Σ))%nat; reflexivity.
  - intros Hd HΣ. rewrite Hd, HΣ, Nat.min_id, Nat.leb_refl.
    unfold calc_ψ_ŷ. fold d.
    rewrite weigh_spec by (rewrite Hd, HΣ, Nat.min_id; lia). reflexivity.
Qed.

(** X5.  When the difference [d = ζ − Π_D(ζ)] and [Σ] have [p.m]
    coefficients, [calc_grad_ψ] and [calc_ψ_grad_ψ] compute the same
    gradient: the multiplier estimate [Σ d] has the same coefficients on both
    paths, and so has [∇f(x) + ∇g(x) ŷ].  ([calc_grad_ψ] weighs every
    coefficient of [d], the loop of [calc_ψ_ŷ] the first [p.m] only.) *)
Theorem gradient_paths_agree (p : Problem) (x y Σ : vec) :
  let d := projecting_difference (vadd (p_g p x) (vdiv y Σ)) (p_D p) in
  length d = p_m p ->
  length Σ = p_m p ->
  calc_grad_ψ p x y Σ = snd (calc_ψ_grad_ψ p x y Σ)
  /\ calc_grad_ψ p x y Σ
     = calc_grad_ψ_from_ŷ p x (snd (calc_ψ_ŷ p x y Σ)).
Proof.
  cbn zeta. intros Hd HΣ.
  assert (H : calc_grad_ψ p x y Σ
              = calc_grad_ψ_from_ŷ p x (snd (calc_ψ_ŷ p x y Σ))).
  { unfold calc_grad_ψ, calc_grad_ψ_from_ŷ, calc_ψ_ŷ.
    rewrite (@weigh_full _ _ _ _ r_zero Hd HΣ). cbn [snd].
    rewrite (binaryExpr_flip r_mul). reflexivity. }
  split; [|exact H].
  rewrite H. unfold calc_ψ_grad_ψ.
  destruct (calc_ψ_ŷ p x y Σ) as [ψ ŷ]. reflexivity.
Qed.

End KernelProperties.

Section ExactKernelProperties.
Context {RT : RealT}.
Variable E : ExactArith RT.
Variable LB : LBFGS_class.
Variable SLB : SpecializedLBFGS_class.
Variable params : PANOCParams.
Variable env : Environment.
Variable problem : Problem.
Variable Σ : vec.
Variable ε : real_t.
Local Notation State' := (State LB SLB).
Local Notation "⟦ a ⟧" := (toR E a) (at level 0, format "⟦ a ⟧").

(** X6.  Over exact arithmetic, the projected gradient step taken from a
    point of the box with a positive step size is a descent direction,
    [⟨∇ψ, p⟩ ≤ −‖p‖² / γ]; so the forward-backward envelope of an iterate
    whose point lies in the box is at most [ψ(x) − ‖p‖² / (2γ)], and at most
    [ψ(x)]. *)
Theorem projected_step_descends (y : vec) (it : iterate) :
  consistent problem Σ y it ->
  in_box E (lowerbound (p_C problem)) (upperbound (p_C problem)) (it_x it) ->
  (0 < ⟦it_γ it⟧)%R ->
  (⟦it_grad_ψᵀp it⟧ <= - ⟦it_norm_sq_p it⟧ / ⟦it_γ it⟧)%R
  /\ (⟦fbe it⟧ <= ⟦it_ψ it⟧ - ⟦it_norm_sq_p it⟧ / (2 * ⟦it_γ it⟧))%R
  /\ (⟦fbe it⟧ <= ⟦it_ψ it⟧)%R.
Proof.
  intros (_ & Hx & _ & Hd & Hn) Hin Hγ.
  assert (Hp : it_p it
               = binaryExpr r_fmin
                   (binaryExpr r_fmax (scale (r_neg (it_γ it)) (it_grad_ψ it))
                      (vsub (lowerbound (p_C problem)) (it_x it)))
                   (vsub (upperbound (p_C problem)) (it_x it))).
  { unfold calc_x_hat in Hx. cbn [fst] in Hx. now inversion Hx. }
  pose proof (@step_descends _ E (it_γ it) Hγ _ _ _ (it_grad_ψ it) Hin) as H.
  cbn zeta in H. rewrite <- Hp in H.
  assert (H1 : (⟦it_grad_ψᵀp it⟧ <= - ⟦it_norm_sq_p it⟧ / ⟦it_γ it⟧)%R).
  { rewrite Hd, Hn. unfold squaredNorm. rewrite !toR_dot. exact H. }
  assert (Hnn : (0 <= ⟦it_norm_sq_p it⟧)%R)
    by (rewrite Hn; apply squaredNorm_nonneg).
  assert (H2 : (⟦fbe it⟧ <= ⟦it_ψ it⟧ - ⟦it_norm_sq_p it⟧ / (2 * ⟦it_γ it⟧))%R).
  { unfold fbe. rewrite !(toR_add E), (toR_mul E).
    rewrite (toR_div E).
    - rewrite (toR_mul E), (toR_one E), (toR_two E).
      replace (1 / (2 * ⟦it_γ it⟧) * ⟦it_norm_sq_p it⟧)%R
        with (⟦it_norm_sq_p it⟧ / (2 * ⟦it_γ it⟧))%R by (field; lra).
      replace (- ⟦it_norm_sq_p it⟧ / ⟦it_γ it⟧)%R
        with (- (2 * (⟦it_norm_sq_p it⟧ / (2 * ⟦it_γ it⟧))))%R in H1
        by (field; lra).
      lra.
    - rewrite (toR_mul E), (toR_two E). lra. }
  split; [exact H1|]. split; [exact H2|].
  assert (0 <= ⟦it_norm_sq_p it⟧ / (2 * ⟦it_γ it⟧))%R; [|lra].
  apply Rmult_le_pos; [exact Hnn|]. left. apply Rinv_0_lt_compat. lra.
Qed.

Lemma exact_initialize_continues (x z y err_z : vec) :
  exists st0 : State',
    initialize LB SLB params env problem Σ x z y err_z = Continue st0.
Proof.
  unfold initialize.
  destruct (calc_ψ_grad_ψ problem x y Σ) as [ψ g].
  unfold clamp_L. rewrite (all_isfinite E). cbn [negb].
  destruct (r_ltb _ r_epsilon);
    destruct (calc_x_hat problem _ x g) as [[xh p] b];
    destruct (calc_ψ_ŷ problem xh y Σ) as [ψh ŷ]; eauto.
Qed.

Lemma exact_never_not_finite (fuel : nat) (x z y err_z : vec) (r : State') :
  solve LB SLB params env problem Σ ε fuel x z y err_z = Returned r ->
  exists st0 : State',
    initialize LB SLB params env problem Σ x z y err_z = Continue st0
    /\ main_loop params env problem Σ ε fuel (S (max_iter params)) 0 st0
       = Returned r
    /\ status (s r) <> NotFinite.
Proof.
  unfold solve. intros H.
  destruct (exact_initialize_continues x z y err_z) as (st0 & E0).
  rewrite E0 in H.
  - exists st0. split; [exact E0|]. split; [exact H|].
    eapply loop_exit in H; [|exact E0].
    destruct H as (k & st3 & εₖ & written & polled & stat & _ & _ & _ & Hr
                   & Hc & _).
    pose proof (exit_state_proj env problem Σ k εₖ st3 written polled stat) as Hp.
    cbn zeta in Hp. rewrite <- Hr in Hp. destruct Hp as (_ & _ & Hs & _).
    rewrite Hs. cbn [status set_exit].
    unfold code_status in Hc. rewrite (all_isfinite E) in Hc. cbn [negb] in Hc.
    destruct (r_leb εₖ ε); [inversion Hc; discriminate|].
    destruct (max_time params <? _)%Z; [inversion Hc; discriminate|].
    destruct (k =? max_iter params)%nat; [inversion Hc; discriminate|].
    destruct (stop_signal_load env (stop_loads st3));
      [inversion Hc; discriminate|discriminate].
Qed.

(** X7.  Over exact arithmetic a call never reports [NotFinite], and the
    vectors it returns are feasible and consistent with one another: [x] lies
    in the box [C], [z = Π_D(g(x) + Σ⁻¹ y₀)] lies in the box [D],
    [err_z = g(x) − z], and, when [g(x)], [y₀], [Σ] and the bounds of [D]
    all have [p.m] coefficients, the returned multipliers are
    [y = y₀ + Σ err_z], where [y₀] is the [y] passed in and the weights are
    not zero.  (For a [p.m] below the size of [Σ] the loop of [calc_ψ_ŷ]
    leaves the later coefficients of [ŷ] unweighed.) *)
Theorem returned_point_feasible (fuel : nat) (x z y err_z : vec) (r : State') :
  ordered_box E (p_C problem) ->
  ordered_box E (p_D problem) ->
  Forall (fun σ => ⟦σ⟧ <> 0%R) Σ ->
  solve LB SLB params env problem Σ ε fuel x z y err_z = Returned r ->
  let o := caller r in
  status (s r) <> NotFinite
  /\ in_box E (lowerbound (p_C problem)) (upperbound (p_C problem)) (out_x o)
  /\ out_z o = project (vadd (p_g problem (out_x o)) (vdiv y Σ)) (p_D problem)
  /\ in_box E (lowerbound (p_D problem)) (upperbound (p_D problem)) (out_z o)
  /\ out_err_z o = vsub (p_g problem (out_x o)) (out_z o)
  /\ (constraint_sizes problem y Σ ->
      multiplier_update E y Σ (out_err_z o) (out_y o)).
Proof.
  intros HC HD HΣ H. cbn zeta.
  apply exact_never_not_finite in H. destruct H as (st0 & H0 & Hm & Hnf).
  pose proof H0 as Hh. apply initialize_head in Hh.
  eapply loop_exit in Hm; [|exact H0].
  destruct Hm as (k & st3 & εₖ & w & pl & stt & _ & Hat & _ & Hr & _ & Hwr & _).
  destruct Hat as ((Hc & _ & _ & _ & Hcons) & _).
  pose proof (exit_state_proj env problem Σ k εₖ st3 w pl stt) as Hp.
  cbn zeta in Hp. rewrite <- Hr in Hp. destruct Hp as (P1 & _ & P3 & P4 & _).
  assert (Hw : caller r = written_outputs problem Σ y (cur r)).
  { rewrite P4, P1, Hc. cbn [out_y]. subst w.
    rewrite P3 in Hnf. cbn [status set_exit] in Hnf.
    destruct stt; congruence. }
  rewrite <- P1 in Hcons.
  destruct Hcons as (_ & Hx & Hy & _).
  rewrite Hw. unfold written_outputs, calc_ẑ. cbn [out_x out_z out_y out_err_z fst snd].
  split; [exact Hnf|].
  split.
  { pose proof (@calc_x_hat_in_box _ E problem (it_γ (cur r)) (it_x (cur r))
                  (it_grad_ψ (cur r)) HC) as Hb.
    rewrite Hx in Hb. exact Hb. }
  split; [reflexivity|].
  split; [apply project_in_box; exact HD|].
  split; [reflexivity|].
  intros Hsz.
  assert (Hŷ : it_ŷ_x_hat (cur r) = snd (calc_ψ_ŷ problem (it_x_hat (cur r)) y Σ))
    by (rewrite Hy; reflexivity).
  rewrite Hŷ. unfold calc_ψ_ŷ.
  rewrite (@weigh_full _ _ _ _ r_zero
             (constraint_sizes_difference (it_x_hat (cur r)) Hsz)
             (proj1 (proj2 (proj2 Hsz)))).
  cbn [snd]. destruct (p_D problem) as [lb ub].
  apply multiplier_update_holds. exact HΣ.
Qed.

End ExactKernelProperties.

Section TerminationProperties.
Context {RT : RealT}.
Variable E : ExactArith RT.
Variable LB : LBFGS_class.
Variable SLB : SpecializedLBFGS_class.
Variable params : PANOCParams.
Variable env : Environment.
Variable problem : Problem.
Variable Σ : vec.
Variable ε : real_t.
Local Notation State' := (State LB SLB).
Local Notation "⟦ a ⟧" := (toR E a) (at level 0, format "⟦ a ⟧").

Lemma initialize_L_lower (x z y err_z : vec) (st0 : State') :
  initialize LB SLB params env problem Σ x z y err_z = Continue st0 ->
  (⟦r_epsilon⟧ <= ⟦it_L (cur st0)⟧)%R.
Proof.
  unfold initialize.
  destruct (calc_ψ_grad_ψ problem x y Σ) as [ψ0 g0].
  set (L0 := (norm _ / norm _)%rt).
  destruct (clamp_L L0) as [L|] eqn:Ec; [|discriminate].
  assert (HL : (⟦r_epsilon⟧ <= ⟦L⟧)%R).
  { unfold clamp_L in Ec.
    destruct (r_ltb L0 r_epsilon) eqn:El.
    - inversion Ec; subst. lra.
    - destruct (r_isfinite L0); cbn [negb] in Ec; [|discriminate].
      inversion Ec; subst. apply (ltb_false_toR E) in El. exact El. }
  destruct (calc_x_hat problem _ x g0) as [[xh p] b].
  destruct (calc_ψ_ŷ problem xh y Σ) as [ψh ŷ].
  intros H. inversion H; subst st0. exact HL.
Qed.

Lemma ls_loop_prox (fuel : nat) :
  forall (passes : nat) (st st' : State') (τ τ' lc : real_t),
    ls_loop params problem Σ passes fuel st τ = Some (st', τ', lc) ->
    r_ltb τ' (τ_min params) = true ->
    it_x (nxt st') = it_x_hat (cur st).
Proof.
  induction passes as [|passes IH]; intros st st' τ τ' lc H Hlt; [discriminate|].
  simpl in H.
  destruct (ls_pass params problem Σ fuel st τ) as [[[st1 τ1] lc1]|] eqn:Ep;
    [|discriminate].
  apply ls_pass_spec in Ep.
  destruct Ep as (n1 & lb & Hs & _ & Hst & Hτ & _). cbn zeta in Hs.
  destruct (ls_again params lc1 τ1) eqn:Ea.
  - eapply IH in H; [|exact Hlt]. rewrite H. subst st1. cbn [cur set_lbfgs set_iterates
      it_x_hat set_x_hat].
    unfold ls_again in Ea. apply andb_true_iff in Ea. destruct Ea as [_ Ea].
    apply (leb_toR E) in Ea.
    assert (Hf : r_ltb τ1 (τ_min params) = false)
      by (apply (ltb_false_toR E); exact Ea).
    unfold candidate. rewrite <- Hτ, Hf. reflexivity.
  - inversion H; subst st' τ' lc. subst st1.
    cbn [nxt set_lbfgs set_iterates it_x set_φ].
    rewrite (shrinks_it_x Hs).
    destruct (evaluate_candidate_L problem Σ (out_y (caller st)) (cur st) (nxt st)
                (fst (candidate params st τ))) as [_ Hx].
    rewrite Hx. unfold candidate. rewrite <- Hτ, Hlt. reflexivity.
Qed.

(** X8.  The shrink loop ends: at a consistent iterate whose [ψ] has the
    quadratic upper bound with constant [Lbar], the loop returns after at
    most [n] passes as soon as [2ⁿ L ≥ Lbar], and the estimate it leaves is
    at most [max (L, 2 Lbar)]. *)
Theorem shrink_loop_terminates (flush : bool) (y : vec) (Lbar : R)
  (n fuel : nat) (it : iterate) (lb : lbfgs_t LB) :
  consistent problem Σ y it ->
  quadratic_upper_bound E problem Σ y Lbar (it_x it) ->
  (0 < ⟦it_L it⟧)%R ->
  (Lbar <= 2 ^ n * ⟦it_L it⟧)%R ->
  (n <= fuel)%nat ->
  exists (it' : iterate) (lb' : lbfgs_t LB),
    qub_loop LB problem Σ fuel flush y it lb = Some (it', lb')
    /\ (⟦it_L it⟧ <= ⟦it_L it'⟧ <= Rmax ⟦it_L it⟧ (2 * Lbar))%R
    /\ qub_loop LB problem Σ n flush y it lb = Some (it', lb').
Proof.
  intros Hc Hq HL Hn Hf.
  destruct (@qub_loop_terminates_aux _ E LB problem Σ flush y Lbar n n it lb
              Hc Hq HL Hn (Nat.le_refl n)) as (it' & lb' & Hr & Hb).
  exists it', lb'. split; [|split; assumption].
  apply qub_loop_passes in Hr.
  destruct Hr as (m & Hm & Hit & Hj & Hlb & Hv). subst it' lb'.
  apply qub_loop_returns; [lia|exact Hj|exact Hv].
Qed.

Lemma solve_returns_aux (Lbar : R) (N fuel : nat) (x z y err_z : vec) :
  (forall x', quadratic_upper_bound E problem Σ y Lbar x') ->
  (Lbar <= 2 ^ N * ⟦r_epsilon⟧)%R ->
  (/ 2 ^ N < ⟦τ_min params⟧)%R ->
  (1 <= N <= fuel)%nat ->
  exists (st0 r : State'),
    initialize LB SLB params env problem Σ x z y err_z = Continue st0
    /\ ready E y st0
    /\ solve LB SLB params env problem Σ ε fuel x z y err_z = Returned r.
Proof.
  intros Hq HN Hτ Hf. unfold solve.
  destruct (@exact_initialize_continues _ E LB SLB params env problem Σ x z y err_z)
    as (st0 & E0).
  rewrite E0.
  assert (Hh : head_ready E params env problem Σ x z y err_z 0 st0).
  { split; [eapply initialize_head; exact E0
           |eapply initialize_L_lower; exact E0]. }
  destruct (@main_loop_returns_some _ E LB SLB params env problem Σ ε x z y err_z
              Lbar N fuel Hq HN Hτ Hf (max_iter params) 0 st0 eq_refl Hh)
    as (r & Hr).
  exists st0, r. split; [reflexivity|]. split; [|exact Hr].
  destruct Hh as [(Hc & _) HL]. split; [rewrite Hc; reflexivity|exact HL].
Qed.

(** X9.  A call returns: over exact arithmetic, when [ψ] has the quadratic
    upper bound with constant [Lbar] everywhere and [τ_min > 2⁻ᴺ], every
    inner loop ends within [N] passes once [2ᴺ ε_machine ≥ Lbar], so with
    fuel [N] the call returns a [Stats]; it neither throws nor loops. *)
Theorem solve_returns (Lbar : R) (N fuel : nat) (x z y err_z : vec) :
  (forall x', quadratic_upper_bound E problem Σ y Lbar x') ->
  (Lbar <= 2 ^ N * ⟦r_epsilon⟧)%R ->
  (/ 2 ^ N < ⟦τ_min params⟧)%R ->
  (1 <= N <= fuel)%nat ->
  exists r : State',
    solve LB SLB params env problem Σ ε fuel x z y err_z = Returned r.
Proof.
  intros Hq HN Hτ Hf.
  destruct (solve_returns_aux x z err_z Hq HN Hτ Hf) as (st0 & r & _ & _ & Hr).
  exists r. exact Hr.
Qed.

(** X10.  When the line search gives up, the step taken is the projected
    gradient step: after an accepted step that counted a line-search failure,
    and after the step of iteration 0 when [τ_min > 0], the new iterate
    [xₖ₊₁] is the old [x̂ₖ]. *)
Theorem failed_line_search_takes_prox_step (fuel k : nat) (st st' : State') :
  accept_step params problem Σ fuel k st = Some st' ->
  linesearch_failures (s st') <> linesearch_failures (s st)
  \/ (k = 0%nat /\ (0 < ⟦τ_min params⟧)%R) ->
  it_x (cur st') = it_x_hat (cur st).
Proof.
  unfold accept_step. intros H Hcase.
  pose proof (quasi_newton_frame params k st) as (Q1 & _ & _ & Q4).
  pose proof (initial_τ_frame params k (quasi_newton params k st))
    as (I1 & _ & _ & I4).
  destruct (initial_τ params k (quasi_newton params k st)) as [st1 τ0] eqn:E0.
  cbn [fst] in *.
  destruct (ls_loop params problem Σ fuel fuel st1 τ0) as [[[st2 τ'] lc]|] eqn:El;
    [|discriminate].
  inversion H; subst st'; clear H.
  pose proof (count_linesearch_failure_frame params k τ' st2) as (_ & C2 & _ & C4).
  pose proof (update_lbfgs_frame params problem
                (count_linesearch_failure params k τ' st2)) as (_ & U2 & _ & U4).
  cbn zeta in *.
  assert (Hcur : cur (advance (update_lbfgs params problem
                                 (count_linesearch_failure params k τ' st2)))
                 = nxt st2).
  { unfold advance. cbn [cur set_iterates]. congruence. }
  rewrite Hcur.
  assert (Hlt : r_ltb τ' (τ_min params) = true).
  { destruct Hcase as [Hne|[Hk Hpos]].
    - unfold advance in Hne. cbn [s set_iterates] in Hne.
      rewrite U4, C4 in Hne.
      pose proof El as El2. apply ls_loop_keeps in El2. destruct El2 as [Hs2 _].
      rewrite Hs2, I4, Q4 in Hne.
      destruct (r_ltb τ' (τ_min params)); [reflexivity|].
      cbn [andb] in Hne. exfalso. apply Hne. lia.
    - subst k. unfold initial_τ in E0. cbn in E0. inversion E0; subst st1 τ0.
      destruct fuel as [|passes]; [discriminate|]. cbn [ls_loop] in El.
      destruct (ls_pass params problem Σ (S passes) st r_zero)
        as [[[st1' τ1] lc1]|] eqn:Ep; [|discriminate].
      apply ls_pass_spec in Ep. destruct Ep as (_ & _ & _ & _ & _ & Hτ1 & _).
      assert (H2 : ⟦r_two⟧ <> 0%R) by (rewrite (toR_two E); lra).
      assert (Hz : ⟦τ1⟧ = 0%R).
      { rewrite Hτ1, (toR_div E _ _ H2), (toR_zero E). unfold Rdiv.
        apply Rmult_0_l. }
      assert (Ha : ls_again params lc1 τ1 = false).
      { unfold ls_again. apply andb_false_iff. right.
        apply (leb_false_toR E). lra. }
      rewrite Ha in El. inversion El; subst.
      apply (ltb_toR E). lra. }
  eapply ls_loop_prox in El; [|exact Hlt]. rewrite El, I1, Q1. reflexivity.
Qed.

End TerminationProperties.

Section SumOfSquaresLemmas.
Context {RT : RealT}.
Variable E : ExactArith RT.
Local Notation "⟦ a ⟧" := (toR E a) (at level 0, format "⟦ a ⟧").

Lemma square_expands (x p : vec) :
  (Rdot E (vadd x p) (vadd x p)
   <= Rdot E x x
      + Rdot E (vadd (scale r_two x) (map (fun _ => r_zero) x)) p
      + Rdot E p p)%R.
Proof.
  revert p. induction x as [|xi x IH]; intros p.
  - cbn. pose proof (Rdot_self_nonneg E p). lra.
  - destruct p as [|pi p].
    + cbn. pose proof (Rdot_self_nonneg E x).
      assert (0 <= ⟦xi⟧ * ⟦xi⟧)%R by nra. lra.
    + specialize (IH p). cbn. fold (scale r_two x).
      change (binaryExpr r_add x p) with (vadd x p).
      change (binaryExpr r_add (scale r_two x) (map (fun _ => r_zero) x))
        with (vadd (scale r_two x) (map (fun _ : real_t => r_zero) x)).
      rewrite !(toR_add E), (toR_mul E), (toR_two E), (toR_zero E). nra.
Qed.

(** [‖x‖²] has the quadratic upper bound with constant 2. *)
Lemma sum_of_squares_bound (lb ub Σ y x : vec) :
  quadratic_upper_bound E (sum_of_squares lb ub) Σ y 2 x.
Proof.
  unfold quadratic_upper_bound. intros γ. cbn zeta.
  unfold calc_ψ_grad_ψ, calc_ψ_ŷ, calc_grad_ψ_from_ŷ, calc_x_hat,
    projecting_difference, project.
  cbn [sum_of_squares p_m p_f p_g p_grad_f p_grad_g p_D p_C lowerbound
       upperbound fst snd vadd vsub binaryExpr fold_left weigh].
  set (g := binaryExpr r_add (scale r_two x) (map (fun _ => r_zero) x)).
  set (p := binaryExpr r_fmin _ _).
  rewrite !(toR_add E), !(toR_mul E), (toR_zero E), (toR_half E).
  unfold squaredNorm. rewrite !toR_dot.
  pose proof (square_expands x p) as H. fold g in H.
  change (binaryExpr r_add x p) with (vadd x p). lra.
Qed.

End SumOfSquaresLemmas.

Section EstimateProperties.
Context {RT : RealT}.
Variable E : ExactArith RT.
Variable LB : LBFGS_class.
Variable SLB : SpecializedLBFGS_class.
Variable params : PANOCParams.
Variable env : Environment.
Variable problem : Problem.
Variable Σ : vec.
Variable ε : real_t.
Local Notation State' := (State LB SLB).
Local Notation "⟦ a ⟧" := (toR E a) (at level 0, format "⟦ a ⟧").

(** X11.  The estimate does not overshoot: over exact arithmetic, when [ψ]
    has the quadratic upper bound with constant [Lbar] everywhere, the
    Lipschitz estimate at the head of every iteration is at most
    [max (L₀, 2 Lbar)], so with [0 < Lγ_factor < 1] the step size stays at
    least [Lγ_factor / max (L₀, 2 Lbar)]. *)
Theorem estimate_bounded (Lbar : R) (x z y err_z : vec) (fuel k : nat)
  (st0 st : State') :
  (forall x', quadratic_upper_bound E problem Σ y Lbar x') ->
  (0 < ⟦Lipschitz_Lγ_factor params⟧ < 1)%R ->
  initialize LB SLB params env problem Σ x z y err_z = Continue st0 ->
  reach params env problem Σ ε fuel st0 k st ->
  let B := Rmax ⟦it_L (cur st0)⟧ (2 * Lbar) in
  (⟦it_L (cur st0)⟧ <= ⟦it_L (cur st)⟧ <= B)%R
  /\ (⟦Lipschitz_Lγ_factor params⟧ / B <= ⟦it_γ (cur st)⟧)%R.
Proof.
  intros Hq Hα H0 Hr. cbn zeta.
  set (B := Rmax ⟦it_L (cur st0)⟧ (2 * Lbar)).
  pose proof (@initialize_scalars_ok _ E LB SLB params env problem Σ x z y err_z
                st0 Hα H0) as Hok0.
  assert (HL0 : (0 < ⟦it_L (cur st0)⟧)%R) by apply Hok0.
  assert (Hmain : (⟦it_L (cur st0)⟧ <= ⟦it_L (cur st)⟧)%R
                  /\ (0 < ⟦it_L (cur st)⟧ <= B)%R
                  /\ scalars_ok E ⟦Lipschitz_Lγ_factor params⟧ ⟦it_γ (cur st0)⟧
                       (cur st)).
  { induction Hr as [|k st st' Hr IH Hi].
    - split; [lra|]. split; [split; [exact HL0|apply Rmax_l]|exact Hok0].
    - destruct IH as (I1 & I2 & I3).
      pose proof Hr as Hh. eapply reach_head in Hh; [|exact H0].
      pose proof (@iteration_L_upper _ E LB SLB params env problem Σ ε x z y
                    err_z Lbar B fuel k st st' Hq (Rmax_r _ _) Hh I2 Hi) as Hup.
      split; [lra|]. split; [lra|].
      eapply iteration_scalars_ok; eassumption. }
  destruct Hmain as (M1 & M2 & M3).
  split; [split; [exact M1|apply M2]|].
  destruct M3 as (_ & _ & _ & _ & Hγ & _). rewrite Hγ.
  unfold Rdiv. apply Rmult_le_compat_l; [lra|].
  apply Rinv_le_contravar; [apply M2|apply M2].
Qed.

End EstimateProperties.

Section NaNStep.
Context {RT : RealT}.
Variable LB : LBFGS_class.
Variable SLB : SpecializedLBFGS_class.
Variable params : PANOCParams.
Variable problem : Problem.
Variable Σ : vec.
Local Notation State' := (State LB SLB).

(** X12.  A quasi-Newton step that holds a NaN is not used: in an iteration
    [k > 0] whose step [qₖ] holds a NaN the line search starts from [τ = 0],
    so (for a [τ_min] above [0 / 2]) the new iterate is the projected point
    [x̂ₖ] after one pass, and the iteration counts one L-BFGS failure and one
    line-search failure. *)
Theorem nan_step_is_discarded (fuel k : nat) (st st' : State') :
  k <> 0%nat ->
  hasNaN (qₖ (quasi_newton params k st)) = true ->
  r_ltb (r_div r_zero r_two) (τ_min params) = true ->
  r_leb (τ_min params) (r_div r_zero r_two) = false ->
  accept_step params problem Σ fuel k st = Some st' ->
  it_x (cur st') = it_x_hat (cur st)
  /\ lbfgs_failures (s st') = S (lbfgs_failures (s st))
  /\ linesearch_failures (s st') = S (linesearch_failures (s st)).
Proof.
  intros Hk Hnan Hlt Hle. unfold accept_step.
  pose proof (quasi_newton_frame params k st) as (Q1 & _ & _ & Q4).
  set (stq := quasi_newton params k st) in *.
  apply Nat.eqb_neq in Hk.
  assert (E0 : exists st1,
             initial_τ params k stq = (st1, r_zero)
             /\ cur st1 = cur stq
             /\ s st1 = incr_lbfgs_failures (s stq)).
  { unfold initial_τ. rewrite Hk, Hnan.
    destruct (specialized_lbfgs params); eexists; repeat split. }
  destruct E0 as (st1 & E0 & I1 & I4). rewrite E0.
  destruct fuel as [|passes]; [discriminate|]. cbn [ls_loop].
  destruct (ls_pass params problem Σ (S passes) st1 r_zero)
    as [[[st2 τ1] lc1]|] eqn:Ep; [|discriminate].
  pose proof Ep as Ek. apply ls_pass_keeps in Ek. destruct Ek as [Hs2 _].
  apply ls_pass_spec in Ep.
  destruct Ep as (n1 & lb & Hs & _ & Hst & Hτ1 & _). cbn zeta in Hs.
  assert (Ha : ls_again params lc1 τ1 = false).
  { unfold ls_again. rewrite Hτ1, Hle. apply andb_false_r. }
  rewrite Ha. intros H. inversion H; subst st'; clear H.
  pose proof (count_linesearch_failure_frame params k τ1 st2) as (_ & C2 & _ & C4).
  pose proof (count_linesearch_failure_keeps params k τ1 st2) as [C5 _].
  pose proof (update_lbfgs_frame params problem
                (count_linesearch_failure params k τ1 st2)) as (_ & U2 & _ & U4).
  pose proof (update_lbfgs_keeps params problem
                (count_linesearch_failure params k τ1 st2)) as [U5 _].
  cbn zeta in *. unfold advance. cbn [cur s set_iterates].
  split; [|split].
  - rewrite U2, C2, Hst. cbn [nxt set_lbfgs set_iterates it_x set_φ].
    rewrite (shrinks_it_x Hs).
    destruct (evaluate_candidate_L problem Σ (out_y (caller st1)) (cur st1)
                (nxt st1) (fst (candidate params st1 r_zero))) as [_ Hx].
    rewrite Hx. unfold candidate. rewrite Hlt. cbn [fst].
    rewrite I1, Q1. reflexivity.
  - destruct U5 as (_ & _ & _ & _ & _ & U6 & _).
    destruct C5 as (_ & _ & _ & _ & _ & C6 & _).
    rewrite Hs2, I4 in C6. cbn [lbfgs_failures incr_lbfgs_failures] in C6.
    rewrite Q4 in C6. lia.
  - rewrite U4, C4, Hτ1, Hlt, Hk, Hs2, I4. cbn. rewrite Q4. lia.
Qed.

End NaNStep.

(** * Properties of [casadi_calculus.hpp] *)

(** ** Derivatives over the real numbers *)

Section DerivativeToolkit.
Local Open Scope R_scope.

Lemma dlim_val (f : R -> R) (x l l' : R) :
  derivable_pt_lim f x l -> l = l' -> derivable_pt_lim f x l'.
Proof. intros H <-. exact H. Qed.

Lemma dlim_const (c x : R) : derivable_pt_lim (fun _ => c) x 0.
Proof. exact (derivable_pt_lim_const c x). Qed.

Lemma dlim_id (x : R) : derivable_pt_lim (fun t => t) x 1.
Proof. exact (derivable_pt_lim_id x). Qed.

Lemma dlim_add (f g : R -> R) (x lf lg : R) :
  derivable_pt_lim f x lf -> derivable_pt_lim g x lg ->
  derivable_pt_lim (fun t => f t + g t)%R x (lf + lg).
Proof. exact (derivable_pt_lim_plus f g x lf lg). Qed.

Lemma dlim_sub (f g : R -> R) (x lf lg : R) :
  derivable_pt_lim f x lf -> derivable_pt_lim g x lg ->
  derivable_pt_lim (fun t => f t - g t)%R x (lf - lg).
Proof. exact (derivable_pt_lim_minus f g x lf lg). Qed.

Lemma dlim_mul (f g : R -> R) (x lf lg : R) :
  derivable_pt_lim f x lf -> derivable_pt_lim g x lg ->
  derivable_pt_lim (fun t => f t * g t)%R x (lf * g x + f x * lg).
Proof. exact (derivable_pt_lim_mult f g x lf lg). Qed.

Lemma dlim_div (f g : R -> R) (x lf lg : R) :
  derivable_pt_lim f x lf -> derivable_pt_lim g x lg -> g x <> 0%R ->
  derivable_pt_lim (fun t => f t / g t)%R x
    ((lf * g x - lg * f x) / (g x * g x)).
Proof. exact (derivable_pt_lim_div f g x lf lg). Qed.

Lemma dlim_opp (f : R -> R) (x lf : R) :
  derivable_pt_lim f x lf -> derivable_pt_lim (fun t => - f t)%R x (- lf).
Proof. exact (derivable_pt_lim_opp f x lf). Qed.

Lemma dlim_comp (f g : R -> R) (x lf lg : R) :
  derivable_pt_lim f x lf -> derivable_pt_lim g (f x) lg ->
  derivable_pt_lim (fun t => g (f t)) x (lg * lf).
Proof. exact (derivable_pt_lim_comp f g x lf lg). Qed.

(** A function that agrees with [g] around [x] has the derivative of [g]
    there. *)
Lemma dlim_near (f g : R -> R) (x l δ : R) :
  (0 < δ)%R ->
  (forall z, (x - δ < z < x + δ)%R -> g z = f z) ->
  derivable_pt_lim g x l -> derivable_pt_lim f x l.
Proof.
  intros Hδ Heq Hg.
  apply (derivable_pt_lim_locally_ext g f x (x - δ) (x + δ) l);
    [lra|exact Heq|exact Hg].
Qed.

End DerivativeToolkit.

Section RealDerivatives.
Import casadi casadiR.
Local Open Scope R_scope.
Variable erf : R -> R.
Variable erfinv : R -> R.
Variable atan2 : R -> R -> R.
Local Notation RS := (real_scalar erf erfinv atan2).
Local Notation grad := (is_gradient erf erfinv atan2).
Local Notation deriv := (is_derivative erf erfinv atan2).

Ltac open_gradient :=
  unfold is_gradient, is_derivative, partial_x, partial_y, derf_d,
    DerBinaryOpertion_derf,
    BinaryOperation_fcn, BinaryOperation_der, UnaryOperation_fcn,
    UnaryOperation_der, twice, sq;
  cbn [fst snd real_scalar T s_zero s_one s_two s_pi s_of_bool s_truth s_add
       s_sub s_mul s_div s_neg s_lt s_le s_ge s_eq s_ne s_exp s_log s_pow
       s_sqrt s_sin s_cos s_tan s_asin s_acos s_atan s_sinh s_cosh s_tanh
       s_asinh s_acosh s_atanh s_floor s_ceil s_fmod s_fabs s_atan2 s_sign
       s_fmin s_fmax s_erf s_erfinv s_constpow s_printme s_copysign
       s_if_else_zero].

(** *** Arithmetic *)

Lemma gradient_ADD (x y : R) : grad OP_ADD x y.
Proof.
  open_gradient. split.
  - eapply dlim_val; [apply (dlim_add (dlim_id x) (dlim_const y x))|lra].
  - eapply dlim_val; [apply (dlim_add (dlim_const x y) (dlim_id y))|lra].
Qed.

Lemma gradient_SUB (x y : R) : grad OP_SUB x y.
Proof.
  open_gradient. split.
  - eapply dlim_val; [apply (dlim_sub (dlim_id x) (dlim_const y x))|lra].
  - eapply dlim_val; [apply (dlim_sub (dlim_const x y) (dlim_id y))|lra].
Qed.

Lemma gradient_MUL (x y : R) : grad OP_MUL x y.
Proof.
  open_gradient. split.
  - eapply dlim_val; [apply (dlim_mul (dlim_id x) (dlim_const y x))|lra].
  - eapply dlim_val; [apply (dlim_mul (dlim_const x y) (dlim_id y))|lra].
Qed.

Lemma gradient_DIV (x y : R) : y <> 0%R -> grad OP_DIV x y.
Proof.
  intros Hy. open_gradient. split.
  - eapply dlim_val;
      [apply (dlim_div (dlim_id x) (dlim_const y x) Hy)|field; exact Hy].
  - eapply dlim_val;
      [apply (dlim_div (dlim_const x y) (dlim_id y) Hy)|field; exact Hy].
Qed.

(** An operation of one argument seen through [BinaryOperation]: the second
    partial derivative is the one of a constant. *)
Lemma gradient_of_derivative (I : Operation) (x y : R) :
  @BinaryOperation_fcn RS I
  = match @UnaryOperation_fcn RS I with
    | Some f => Some (fun x _ => f x)
    | None => None
    end ->
  @BinaryOperation_der RS I
  = match @UnaryOperation_der RS I with
    | Some d => Some (fun x _ f => (d x f, 0))
    | None => None
    end ->
  deriv I x y -> grad I x y.
Proof.
  unfold is_gradient, is_derivative, DerBinaryOpertion_derf.
  intros -> ->.
  destruct (@UnaryOperation_fcn RS I) as [f|]; [|tauto].
  destruct (@UnaryOperation_der RS I) as [d|]; [|tauto].
  cbn [fst snd]. intros H. split; [exact H|]. apply dlim_const.
Qed.

Lemma derivative_ASSIGN (x y : R) : deriv OP_ASSIGN x y.
Proof. open_gradient. apply dlim_id. Qed.

Lemma derivative_NEG (x y : R) : deriv OP_NEG x y.
Proof.
  open_gradient. eapply dlim_val; [apply (dlim_opp (dlim_id x))|lra].
Qed.

Lemma derivative_SQ (x y : R) : deriv OP_SQ x y.
Proof.
  open_gradient.
  eapply dlim_val; [apply (dlim_mul (dlim_id x) (dlim_id x))|lra].
Qed.

Lemma derivative_TWICE (x y : R) : deriv OP_TWICE x y.
Proof.
  open_gradient.
  eapply dlim_val; [apply (dlim_mul (dlim_const 2 x) (dlim_id x))|lra].
Qed.

Lemma derivative_INV (x y : R) : x <> 0%R -> deriv OP_INV x y.
Proof.
  intros Hx. open_gradient.
  eapply dlim_val;
    [apply (dlim_div (dlim_const 1 x) (dlim_id x) Hx)|field; exact Hx].
Qed.

Lemma derivative_SQRT (x y : R) : (0 < x)%R -> deriv OP_SQRT x y.
Proof.
  intros Hx. open_gradient.
  eapply dlim_val; [apply (derivable_pt_lim_sqrt x Hx)|].
  assert (0 < sqrt x)%R by (apply sqrt_lt_R0; exact Hx). field. lra.
Qed.

Lemma gradient_LIFT (x y : R) : grad OP_LIFT x y.
Proof. open_gradient. split; [apply dlim_id|apply dlim_const]. Qed.

(** [printme] returns its first argument. *)
Lemma gradient_PRINTME (x y : R) : grad OP_PRINTME x y.
Proof. open_gradient. split; [apply dlim_id|apply dlim_const]. Qed.

(** *** Exponential, logarithm, powers *)

Lemma derivative_EXP (x y : R) : deriv OP_EXP x y.
Proof. open_gradient. apply derivable_pt_lim_exp. Qed.

Lemma derivative_LOG (x y : R) : 0 < x -> deriv OP_LOG x y.
Proof.
  intros Hx. open_gradient.
  eapply dlim_val; [apply (derivable_pt_lim_ln x Hx)|field; lra].
Qed.

Lemma dlim_Rpower_exponent (x y : R) :
  derivable_pt_lim (fun t => Rpower x t) y (ln x * Rpower x y).
Proof.
  unfold Rpower.
  eapply dlim_val.
  - apply (dlim_comp (f := fun t => t * ln x) (g := exp)).
    + apply (dlim_mul (dlim_id y) (dlim_const (ln x) y)).
    + apply derivable_pt_lim_exp.
  - ring.
Qed.

Lemma gradient_POW (x y : R) : 0 < x -> grad OP_POW x y.
Proof.
  intros Hx. open_gradient. split.
  - apply (derivable_pt_lim_power x y Hx).
  - apply dlim_Rpower_exponent.
Qed.

(** [OP_CONSTPOW] differentiates in the base only. *)
Lemma derivative_CONSTPOW (x y : R) : 0 < x -> deriv OP_CONSTPOW x y.
Proof. intros Hx. open_gradient. apply (derivable_pt_lim_power x y Hx). Qed.

(** *** Trigonometric functions *)

Lemma derivative_SIN (x y : R) : deriv OP_SIN x y.
Proof. open_gradient. apply derivable_pt_lim_sin. Qed.

Lemma derivative_COS (x y : R) : deriv OP_COS x y.
Proof. open_gradient. apply derivable_pt_lim_cos. Qed.

Lemma derivative_TAN (x y : R) : cos x <> 0 -> deriv OP_TAN x y.
Proof.
  intros Hc. open_gradient. unfold tan.
  eapply dlim_val.
  - apply (dlim_div (derivable_pt_lim_sin x) (derivable_pt_lim_cos x) Hc).
  - pose proof (sin2_cos2 x) as H. unfold Rsqr in H. field_simplify_eq; [|exact Hc].
    lra.
Qed.

Lemma derivative_ASIN (x y : R) : -1 < x < 1 -> deriv OP_ASIN x y.
Proof.
  intros Hx. open_gradient.
  apply (derive_pt_eq_1 asin x _ (derivable_pt_asin x Hx)).
  rewrite derive_pt_asin. unfold Rsqr. reflexivity.
Qed.

Lemma derivative_ACOS (x y : R) : -1 < x < 1 -> deriv OP_ACOS x y.
Proof.
  intros Hx. open_gradient.
  apply (derive_pt_eq_1 acos x _ (derivable_pt_acos x Hx)).
  rewrite derive_pt_acos. unfold Rsqr. reflexivity.
Qed.

Lemma derivative_ATAN (x y : R) : deriv OP_ATAN x y.
Proof.
  open_gradient.
  eapply dlim_val; [apply derivable_pt_lim_atan|].
  assert (0 < 1 + x * x) by nra. field_simplify_eq; nra.
Qed.

(** *** Hyperbolic functions *)

Lemma cosh_pos (x : R) : 0 < cosh x.
Proof.
  unfold cosh. pose proof (exp_pos x). pose proof (exp_pos (- x)). lra.
Qed.

Lemma derivative_SINH (x y : R) : deriv OP_SINH x y.
Proof. open_gradient. apply derivable_pt_lim_sinh. Qed.

Lemma derivative_TANH (x y : R) : deriv OP_TANH x y.
Proof.
  open_gradient. unfold tanh.
  pose proof (cosh_pos x) as Hc.
  eapply dlim_val.
  - apply (dlim_div (derivable_pt_lim_sinh x) (derivable_pt_lim_cosh x)). lra.
  - field. lra.
Qed.

(** For [OP_COSH] the value written to [d[0]] is [−sinh x], the negative of
    the derivative. *)
Lemma derivative_COSH_negated (x y : R) :
  match @DerBinaryOpertion_derf RS OP_COSH with
  | Some derf =>
      derivable_pt_lim (fun t => fst (derf t y)) x (- fst (snd (derf x y)))
      /\ fst (snd (derf x y)) = - sinh x
  | None => False
  end.
Proof.
  open_gradient. split; [|reflexivity].
  eapply dlim_val; [apply derivable_pt_lim_cosh|lra].
Qed.

Lemma sinh_zero (x : R) : sinh x = 0 -> x = 0.
Proof.
  unfold sinh. intros H.
  assert (He : exp x = exp (- x)) by lra.
  apply exp_inv in He. lra.
Qed.

Lemma derivative_COSH_only_at_zero (x y : R) :
  deriv OP_COSH x y <-> x = 0.
Proof.
  pose proof (derivative_COSH_negated x y) as Hn. revert Hn. open_gradient.
  intros [Hn _]. split.
  - intros H.
    assert (He : - sinh x = - - sinh x)
      by (eapply uniqueness_limite; eassumption).
    apply sinh_zero. lra.
  - intros ->. eapply dlim_val; [apply derivable_pt_lim_cosh|].
    unfold sinh. rewrite Ropp_0. lra.
Qed.

(** *** Inverse hyperbolic functions, by the formulas of lines 204-216 *)

Lemma sqrt_above (x : R) : 0 < x + sqrt (1 + x * x).
Proof.
  assert (Hs : 0 < sqrt (1 + x * x)) by (apply sqrt_lt_R0; nra).
  assert (Hq : sqrt (1 + x * x) * sqrt (1 + x * x) = 1 + x * x)
    by (apply sqrt_sqrt; nra).
  destruct (Rle_dec 0 x); [lra|]. nra.
Qed.

Lemma derivative_ASINH (x y : R) : deriv OP_ASINH x y.
Proof.
  open_gradient.
  assert (H1 : 0 < 1 + x * x) by nra.
  assert (Hs : 0 < sqrt (1 + x * x)) by (apply sqrt_lt_R0; exact H1).
  pose proof (sqrt_above x) as Ha.
  eapply dlim_val.
  - apply (dlim_comp (f := fun t => t + sqrt (1 + t * t)) (g := ln)).
    + refine (dlim_add (f := fun t => t) (g := fun t => sqrt (1 + t * t))
                (dlim_id x) _).
      apply (dlim_comp (f := fun t => 1 + t * t) (g := sqrt)).
      * apply (dlim_add (dlim_const 1 x) (dlim_mul (dlim_id x) (dlim_id x))).
      * apply (derivable_pt_lim_sqrt _ H1).
    + apply (derivable_pt_lim_ln _ Ha).
  - field. lra.
Qed.

Lemma derivative_ACOSH (x y : R) : 1 < x -> deriv OP_ACOSH x y.
Proof.
  intros Hx. open_gradient.
  assert (Ha : 0 < sqrt (1 + x)) by (apply sqrt_lt_R0; lra).
  assert (Hb : 0 < sqrt (x - 1)) by (apply sqrt_lt_R0; lra).
  assert (Ha2 : sqrt (1 + x) * sqrt (1 + x) = 1 + x) by (apply sqrt_sqrt; lra).
  assert (Hb2 : sqrt (x - 1) * sqrt (x - 1) = x - 1) by (apply sqrt_sqrt; lra).
  assert (Hab : 0 < sqrt (1 + x) * sqrt (x - 1)) by (apply Rmult_lt_0_compat; lra).
  replace (x + 1) with (1 + x) by ring.
  eapply dlim_val.
  - apply (dlim_comp (f := fun t => t + sqrt (1 + t) * sqrt (t - 1)) (g := ln)).
    + refine (dlim_add (f := fun t => t)
                (g := fun t => sqrt (1 + t) * sqrt (t - 1)) (dlim_id x) _).
      apply (dlim_mul (f := fun t => sqrt (1 + t)) (g := fun t => sqrt (t - 1))).
      * apply (dlim_comp (f := fun t => 1 + t) (g := sqrt)).
        -- apply (dlim_add (dlim_const 1 x) (dlim_id x)).
        -- apply derivable_pt_lim_sqrt. lra.
      * apply (dlim_comp (f := fun t => t - 1) (g := sqrt)).
        -- apply (dlim_sub (dlim_id x) (dlim_const 1 x)).
        -- apply derivable_pt_lim_sqrt. lra.
    + apply derivable_pt_lim_ln. lra.
  - set (a := sqrt (1 + x)) in *. set (b := sqrt (x - 1)) in *.
    assert (Hx' : x = a * a - 1) by lra.
    assert (Hnz : x + a * b <> 0) by lra.
    apply (Rmult_eq_reg_r (x + a * b)); [|exact Hnz].
    apply (Rmult_eq_reg_r (2 * a * b)); [|nra].
    field_simplify; [|lra|lra]. nra.
Qed.

Lemma derivative_ATANH (x y : R) : -1 < x < 1 -> deriv OP_ATANH x y.
Proof.
  intros Hx. open_gradient.
  assert (Hq : 0 < (1 + x) / (1 - x)) by (apply Rdiv_lt_0_compat; lra).
  eapply dlim_val.
  - refine (dlim_mul (f := fun _ => / 2)
              (g := fun t => ln ((1 + t) / (1 - t))) (dlim_const (/ 2) x) _).
    apply (dlim_comp (f := fun t => (1 + t) / (1 - t)) (g := ln)).
    + apply (dlim_div (f := fun t => 1 + t) (g := fun t => 1 - t)).
      * apply (dlim_add (dlim_const 1 x) (dlim_id x)).
      * apply (dlim_sub (dlim_const 1 x) (dlim_id x)).
      * lra.
    + apply (derivable_pt_lim_ln _ Hq).
  - cbv beta. field. nra.
Qed.


(** *** Operations with a kink or a jump, away from it *)

Ltac open_tests :=
  unfold Rof_bool, Rlt_bool, Rle_bool, Req_bool, Rtruth.

Ltac split_tests :=
  repeat match goal with
         | |- context [Rlt_dec ?a ?b] => destruct (Rlt_dec a b)
         | |- context [Rle_dec ?a ?b] => destruct (Rle_dec a b)
         | |- context [Req_dec_T ?a ?b] => destruct (Req_dec_T a b)
         end;
  cbn [negb andb orb].

(** [f] is, around [x], the function [g]. *)
Ltac around fn width :=
  apply (@dlim_near _ fn _ _ width);
  [try lra
  |let z := fresh "z" in let Hz := fresh "Hz" in
   intros z Hz; split_tests; try reflexivity; try lra
  |].

Lemma derivative_FABS (x y : R) : x <> 0 -> deriv OP_FABS x y.
Proof.
  intros Hx. open_gradient. split_tests.
  - apply Rabs_derive_2. assumption.
  - apply Rabs_derive_1. assumption.
  - lra.
Qed.

(** At the kink [d[0] = sign 0 = 0] is not the derivative: [fabs] has
    none there. *)
Lemma FABS_kink (l : R) : ~ derivable_pt_lim Rabs 0 l.
Proof.
  intros H.
  destruct (H (/ 2) ltac:(lra)) as [δ Hδ].
  pose proof (cond_pos δ) as Hp.
  pose proof (Hδ (pos δ / 2) ltac:(lra)
                ltac:(rewrite Rabs_right; lra)) as H1.
  pose proof (Hδ (- (pos δ / 2)) ltac:(lra)
                ltac:(rewrite Rabs_left; lra)) as H2.
  rewrite Rabs_R0, Rplus_0_l, Rminus_0_r in H1, H2.
  rewrite (Rabs_right (pos δ / 2)) in H1 by lra.
  rewrite (Rabs_left (- (pos δ / 2))) in H2 by lra.
  replace (pos δ / 2 / (pos δ / 2)) with 1 in H1 by (field; lra).
  replace (- - (pos δ / 2) / - (pos δ / 2)) with (-1) in H2 by (field; lra).
  unfold Rabs in H1, H2.
  destruct (Rcase_abs (1 - l)); destruct (Rcase_abs (-1 - l)); lra.
Qed.

Lemma derivative_SIGN (x y : R) : x <> 0 -> deriv OP_SIGN x y.
Proof.
  intros Hx. open_gradient.
  destruct (Rlt_dec x 0) as [Hn|Hn].
  - around (fun _ : R => -1) (- x). apply dlim_const.
  - around (fun _ : R => 1) x. apply dlim_const.
Qed.

Lemma gradient_FMIN (x y : R) : x <> y -> grad OP_FMIN x y.
Proof.
  intros Hxy. open_gradient. open_tests.
  destruct (Rlt_dec x y) as [Hlt|Hge].
  - split; split_tests; try lra.
    + around (fun t : R => t) (y - x). apply dlim_id.
    + around (fun _ : R => x) (y - x). apply dlim_const.
  - split; split_tests; try lra.
    + around (fun _ : R => y) (x - y). apply dlim_const.
    + around (fun t : R => t) (x - y). apply dlim_id.
Qed.

Lemma gradient_FMAX (x y : R) : x <> y -> grad OP_FMAX x y.
Proof.
  intros Hxy. open_gradient. open_tests.
  destruct (Rlt_dec x y) as [Hlt|Hge].
  - split; split_tests; try lra.
    + around (fun _ : R => y) (y - x). apply dlim_const.
    + around (fun t : R => t) (y - x). apply dlim_id.
  - split; split_tests; try lra.
    + around (fun t : R => t) (x - y). apply dlim_id.
    + around (fun _ : R => x) (x - y). apply dlim_const.
Qed.

Ltac comparison_gradient x y :=
  open_gradient; open_tests;
  destruct (Rlt_dec x y);
  [split;
   [around (fun _ : R => 1) (y - x); apply dlim_const
   |around (fun _ : R => 1) (y - x); apply dlim_const]
  |split;
   [around (fun _ : R => 0) (x - y); apply dlim_const
   |around (fun _ : R => 0) (x - y); apply dlim_const]].

Lemma gradient_LT (x y : R) : x <> y -> grad OP_LT x y.
Proof. intros Hxy. comparison_gradient x y. Qed.

Lemma gradient_LE (x y : R) : x <> y -> grad OP_LE x y.
Proof. intros Hxy. comparison_gradient x y. Qed.

Lemma gradient_EQ (x y : R) : x <> y -> grad OP_EQ x y.
Proof.
  intros Hxy. open_gradient. open_tests.
  destruct (Rlt_dec x y).
  - split; (around (fun _ : R => 0) (y - x); apply dlim_const).
  - split; (around (fun _ : R => 0) (x - y); apply dlim_const).
Qed.

Lemma gradient_NE (x y : R) : x <> y -> grad OP_NE x y.
Proof.
  intros Hxy. open_gradient. open_tests.
  destruct (Rlt_dec x y).
  - split; (around (fun _ : R => 1) (y - x); apply dlim_const).
  - split; (around (fun _ : R => 1) (x - y); apply dlim_const).
Qed.


Lemma gradient_NOT (x y : R) : x <> 0 -> grad OP_NOT x y.
Proof.
  intros Hx. apply gradient_of_derivative; [reflexivity|reflexivity|].
  open_gradient. open_tests.
  destruct (Rlt_dec x 0).
  - around (fun _ : R => 0) (- x). apply dlim_const.
  - around (fun _ : R => 0) x. apply dlim_const.
Qed.

(** *** [OP_COPYSIGN] and [OP_IF_ELSE_ZERO] *)

Lemma gradient_COPYSIGN (x y : R) : 0 < x -> y <> 0 -> grad OP_COPYSIGN x y.
Proof.
  intros Hx Hy. open_gradient. rewrite Rabs_R1. split.
  - destruct (Rle_dec 0 y).
    + apply Rabs_derive_1. exact Hx.
    + eapply dlim_val; [apply (dlim_opp (Rabs_derive_1 x Hx))|reflexivity].
  - destruct (Rlt_dec y 0).
    + around (fun _ : R => - Rabs x) (- y). apply dlim_const.
    + around (fun _ : R => Rabs x) y. apply dlim_const.
Qed.

Lemma COPYSIGN_written (x y : R) :
  @derf_d erf erfinv atan2 OP_COPYSIGN x y
  = Some (if Rle_dec 0 y then 1 else - 1, 0).
Proof.
  open_gradient. rewrite Rabs_R1. reflexivity.
Qed.

Lemma COPYSIGN_positive (x y : R) :
  0 < x ->
  @partial_x erf erfinv atan2 OP_COPYSIGN x y (if Rle_dec 0 y then 1 else - 1).
Proof.
  intros Hx. open_gradient.
  destruct (Rle_dec 0 y).
  - apply Rabs_derive_1. exact Hx.
  - eapply dlim_val; [apply (dlim_opp (Rabs_derive_1 x Hx))|reflexivity].
Qed.

Lemma COPYSIGN_in_y (x y : R) :
  y <> 0 -> @partial_y erf erfinv atan2 OP_COPYSIGN x y 0.
Proof.
  intros Hy. open_gradient.
  destruct (Rlt_dec y 0).
  - around (fun _ : R => - Rabs x) (- y). apply dlim_const.
  - around (fun _ : R => Rabs x) y. apply dlim_const.
Qed.

Lemma COPYSIGN_negative (x y : R) :
  x < 0 ->
  @partial_x erf erfinv atan2 OP_COPYSIGN x y
    (- (if Rle_dec 0 y then 1 else - 1)).
Proof.
  intros Hx. open_gradient.
  destruct (Rle_dec 0 y).
  - apply Rabs_derive_2. exact Hx.
  - eapply dlim_val; [apply (dlim_opp (Rabs_derive_2 x Hx))|reflexivity].
Qed.

Lemma IF_ELSE_ZERO_written (x y : R) :
  @derf_d erf erfinv atan2 OP_IF_ELSE_ZERO x y = Some (0, x).
Proof. reflexivity. Qed.

Lemma IF_ELSE_ZERO_partial_x (x y : R) :
  x <> 0 -> @partial_x erf erfinv atan2 OP_IF_ELSE_ZERO x y 0.
Proof.
  intros Hx. open_gradient. open_tests.
  destruct (Rlt_dec x 0).
  - around (fun _ : R => y) (- x). apply dlim_const.
  - around (fun _ : R => y) x. apply dlim_const.
Qed.

Lemma IF_ELSE_ZERO_partial_y (x y : R) :
  @partial_y erf erfinv atan2 OP_IF_ELSE_ZERO x y
    (if Req_dec_T x 0 then 0 else 1).
Proof.
  open_gradient. open_tests.
  destruct (Req_dec_T x 0); [apply dlim_const|apply dlim_id].
Qed.


(** *** Logical operations and rounding, away from their jumps *)

Lemma gradient_AND (x y : R) : x <> 0 -> y <> 0 -> grad OP_AND x y.
Proof.
  intros Hx Hy. open_gradient. open_tests. split.
  - destruct (Rlt_dec x 0).
    + around (fun _ : R => 1) (- x). apply dlim_const.
    + around (fun _ : R => 1) x. apply dlim_const.
  - destruct (Rlt_dec y 0).
    + around (fun _ : R => 1) (- y). apply dlim_const.
    + around (fun _ : R => 1) y. apply dlim_const.
Qed.

Lemma gradient_OR (x y : R) : x <> 0 -> y <> 0 -> grad OP_OR x y.
Proof.
  intros Hx Hy. open_gradient. open_tests. split.
  - destruct (Rlt_dec x 0).
    + around (fun _ : R => 1) (- x). apply dlim_const.
    + around (fun _ : R => 1) x. apply dlim_const.
  - destruct (Rlt_dec y 0).
    + around (fun _ : R => 1) (- y). apply dlim_const.
    + around (fun _ : R => 1) y. apply dlim_const.
Qed.

Lemma Int_part_near (x : R) :
  IZR (Int_part x) <> x ->
  exists δ : R, 0 < δ
    /\ forall z, x - δ < z < x + δ -> Int_part z = Int_part x.
Proof.
  intros Hx. pose proof (base_Int_part x) as [Hl Hu].
  exists (Rmin (x - IZR (Int_part x)) (IZR (Int_part x) + 1 - x)).
  split.
  - apply Rmin_glb_lt; lra.
  - intros z [Hz1 Hz2]. symmetry. apply Int_part_spec.
    pose proof (Rmin_l (x - IZR (Int_part x)) (IZR (Int_part x) + 1 - x)).
    pose proof (Rmin_r (x - IZR (Int_part x)) (IZR (Int_part x) + 1 - x)).
    lra.
Qed.

Lemma derivative_FLOOR (x y : R) :
  (forall k : Z, IZR k <> x) -> deriv OP_FLOOR x y.
Proof.
  intros Hx. open_gradient.
  destruct (Int_part_near (Hx (Int_part x))) as (δ & Hδ & Hn).
  apply (@dlim_near _ (fun _ : R => IZR (Int_part x)) _ _ δ);
    [exact Hδ| |apply dlim_const].
  intros z Hz. rewrite (Hn z Hz). reflexivity.
Qed.

Lemma derivative_CEIL (x y : R) :
  (forall k : Z, IZR k <> x) -> deriv OP_CEIL x y.
Proof.
  intros Hx. open_gradient.
  assert (Hx' : IZR (Int_part (- x)) <> - x).
  { intros H. apply (Hx (- Int_part (- x))%Z). rewrite opp_IZR. lra. }
  destruct (Int_part_near Hx') as (δ & Hδ & Hn).
  apply (@dlim_near _ (fun _ : R => - IZR (Int_part (- x))) _ _ δ);
    [exact Hδ| |apply dlim_const].
  intros z Hz. rewrite (Hn (- z)) by lra. reflexivity.
Qed.

End RealDerivatives.

(** ** The tables of flags *)

Section TableLemmas.
Import casadi casadiR.
Local Open Scope R_scope.
Variable erf : R -> R.
Variable erfinv : R -> R.
Variable atan2 : R -> R -> R.
Local Notation RS := (real_scalar erf erfinv atan2).

Ltac open_scalar :=
  unfold twice, sq;
  cbn [real_scalar T s_zero s_one s_two s_pi s_of_bool s_truth s_add
       s_sub s_mul s_div s_neg s_lt s_le s_ge s_eq s_ne s_exp s_log s_pow
       s_sqrt s_sin s_cos s_tan s_asin s_acos s_atan s_sinh s_cosh s_tanh
       s_asinh s_acosh s_atanh s_floor s_ceil s_fmod s_fabs s_atan2 s_sign
       s_fmin s_fmax s_erf s_erfinv s_constpow s_printme s_copysign
       s_if_else_zero];
  unfold Rof_bool, Rlt_bool, Rle_bool, Req_bool, Rtruth.

Ltac split_tests :=
  repeat match goal with
         | |- context [Rlt_dec ?a ?b] => destruct (Rlt_dec a b)
         | |- context [Rle_dec ?a ?b] => destruct (Rle_dec a b)
         | |- context [Req_dec_T ?a ?b] => destruct (Req_dec_T a b)
         end;
  cbn [negb andb orb].

Lemma Int_part_0 : Int_part 0 = 0%Z.
Proof. symmetry. apply Int_part_spec. lra. Qed.

Lemma Rtrunc_0 : Rtrunc 0 = 0.
Proof.
  unfold Rtrunc. destruct (Rle_dec 0 0); [|lra].
  rewrite Int_part_0. reflexivity.
Qed.

Lemma CommChecker_sound_aux (I : Operation) :
  CommChecker I = true ->
  BinaryChecker I = true
  /\ exists fcn : R -> R -> R,
      @BinaryOperation_fcn RS I = Some fcn
      /\ forall x y : R, fcn x y = fcn y x.
Proof.
  destruct I; try discriminate; intros _; (split; [reflexivity|]);
    (eexists; split; [reflexivity|]); intros x y; open_scalar;
    split_tests; try reflexivity; try lra.
Qed.

Lemma NonnegativeChecker_sound_aux (I : Operation) (x y : R) :
  NonnegativeChecker I = true ->
  exists fcn : R -> R -> R,
    @BinaryOperation_fcn RS I = Some fcn /\ 0 <= fcn x y.
Proof.
  destruct I; try discriminate; intros _;
    (eexists; split; [reflexivity|]); open_scalar;
    split_tests; try lra;
    first [left; apply exp_pos|apply sqrt_pos|nra].
Qed.

Lemma F0XChecker_sound_aux (I : Operation) (y : R) :
  F0XChecker I = true ->
  ~ In I [OP_POW; OP_CONSTPOW; OP_ERF; OP_ERFINV] ->
  (In I [OP_DIV; OP_FMOD] -> y <> 0) ->
  exists fcn : R -> R -> R,
    @BinaryOperation_fcn RS I = Some fcn /\ fcn 0 y = 0.
Proof.
  destruct I; try discriminate; intros _ Hm Hy;
    try (exfalso; apply Hm; cbn; tauto);
    (eexists; split; [reflexivity|]); open_scalar;
    split_tests; try reflexivity; try lra.
  all: try (unfold Rdiv; rewrite Rmult_0_l).
  all: try rewrite Ropp_0.
  all: try rewrite Rtrunc_0.
  all: try rewrite Int_part_0.
  all: try rewrite Rabs_R0.
  all: try lra.
  all: try first [apply sqrt_0|apply sin_0|apply tan_0|apply asin_0
                 |apply atan_0|apply sinh_0].
  - unfold tanh. rewrite sinh_0. unfold Rdiv. apply Rmult_0_l.
  - rewrite Rplus_0_r, Rplus_0_l, sqrt_1. apply ln_1.
  - rewrite Rplus_0_r, Rminus_0_r. unfold Rdiv. rewrite Rinv_1, Rmult_1_r, ln_1.
    lra.
Qed.


Lemma Function0Checker_sound_aux (I : Operation) (x : R) :
  Function0Checker I = true ->
  exists fcn : R -> R -> R,
    @BinaryOperation_fcn RS I = Some fcn /\ fcn x 0 = 0.
Proof.
  destruct I; try discriminate; intros _;
    (eexists; split; [reflexivity|]); open_scalar;
    split_tests; try reflexivity; try lra.
Qed.

Lemma F00Checker_sound_aux (I : Operation) :
  F00Checker I = true ->
  ~ In I [OP_DIV; OP_FMOD; OP_POW; OP_CONSTPOW; OP_ERF; OP_ERFINV] ->
  exists fcn : R -> R -> R,
    @BinaryOperation_fcn RS I = Some fcn /\ fcn 0 0 = 0.
Proof.
  intros HI Hm.
  destruct (F0XChecker I) eqn:HX.
  - apply F0XChecker_sound_aux; [exact HX| |].
    + intros H. apply Hm. cbn in *. tauto.
    + intros H. exfalso. apply Hm. cbn in *. tauto.
  - destruct I; try discriminate; clear HI HX Hm;
      (eexists; split; [reflexivity|]); open_scalar;
      split_tests; try reflexivity; try lra.
Qed.

End TableLemmas.

(** ** The vector forms *)

Section VectorLemmas.
Import casadi.
Context {Sc : Scalar}.

Lemma read_length (n : nat) (x x' : list T) :
  read n x = Some x' -> length x' = n /\ x' = firstn n x /\ (n <= length x)%nat.
Proof.
  unfold read. destruct (n <=? length x)%nat eqn:E; [|discriminate].
  apply Nat.leb_le in E. intros H. inversion H; subst x'.
  split; [apply firstn_length_le; exact E|split; [reflexivity|exact E]].
Qed.

Lemma read_repeat (n : nat) (y : T) : read n (repeat y n) = Some (repeat y n).
Proof.
  unfold read. rewrite repeat_length, Nat.leb_refl.
  rewrite firstn_all2 by (rewrite repeat_length; lia). reflexivity.
Qed.

Lemma fcn_loop_VS_repeat (fcn : T -> T -> T) (x : list T) (y : T) :
  fcn_loop_VS fcn x y = fcn_loop fcn x (repeat y (length x)).
Proof. induction x as [|xi x IH]; cbn; [reflexivity|rewrite IH; reflexivity]. Qed.

Lemma fcn_loop_SV_repeat (fcn : T -> T -> T) (x : T) (y : list T) :
  fcn_loop_SV fcn x y = fcn_loop fcn (repeat x (length y)) y.
Proof. induction y as [|yi y IH]; cbn; [reflexivity|rewrite IH; reflexivity]. Qed.

Lemma der_loop_VS_repeat (der : T -> T -> T -> T * T) (x : list T) (y : T)
  (f : list T) :
  der_loop_VS der x y f = der_loop der x (repeat y (length x)) f.
Proof.
  revert f. induction x as [|xi x IH]; intros [|fi f]; cbn; try reflexivity.
  rewrite IH. reflexivity.
Qed.

Lemma der_loop_SV_repeat (der : T -> T -> T -> T * T) (x : T) (y f : list T) :
  der_loop_SV der x y f = der_loop der (repeat x (length y)) y f.
Proof.
  revert f. induction y as [|yi y IH]; intros [|fi f]; cbn; try reflexivity.
  rewrite IH. reflexivity.
Qed.

(** Coefficient [i] of what [fcn_loop] writes. *)
Lemma fcn_loop_nth (fcn : T -> T -> T) (x y : list T) (i : nat) :
  nth_error (fcn_loop fcn x y) i
  = match nth_error x i, nth_error y i with
    | Some xi, Some yi => Some (fcn xi yi)
    | _, _ => None
    end.
Proof.
  revert y i. induction x as [|xi x IH]; intros [|yi y] [|i]; cbn;
    try reflexivity.
  - destruct (nth_error x i); reflexivity.
  - apply IH.
Qed.

Lemma fcn_loop_length (fcn : T -> T -> T) (x y : list T) :
  length (fcn_loop fcn x y) = Nat.min (length x) (length y).
Proof.
  revert y. induction x as [|xi x IH]; intros [|yi y]; cbn; try reflexivity.
  rewrite IH. reflexivity.
Qed.

(** Coefficients [2 i] and [2 i + 1] of what [der_loop] writes. *)
Lemma der_loop_nth (der : T -> T -> T -> T * T) (x y f : list T) (i : nat) :
  match nth_error x i, nth_error y i, nth_error f i with
  | Some xi, Some yi, Some fi =>
      nth_error (der_loop der x y f) (2 * i) = Some (fst (der xi yi fi))
      /\ nth_error (der_loop der x y f) (2 * i + 1) = Some (snd (der xi yi fi))
  | _, _, _ => True
  end.
Proof.
  revert y f i.
  induction x as [|xi x IH]; intros [|yi y] [|fi f] [|i]; cbn [nth_error];
    try exact I;
    try (destruct (nth_error x i); [|exact I];
         try (destruct (nth_error y i); exact I); exact I).
  - cbn. split; reflexivity.
  - specialize (IH y f i).
    destruct (nth_error x i) as [xi'|]; [|exact I].
    destruct (nth_error y i) as [yi'|]; [|exact I].
    destruct (nth_error f i) as [fi'|]; [|exact I].
    replace (2 * S i)%nat with (S (S (2 * i))) by lia.
    cbn [der_loop nth_error Nat.add]. exact IH.
Qed.

Lemma der_loop_length (der : T -> T -> T -> T * T) (x y f : list T) :
  length (der_loop der x y f)
  = (2 * Nat.min (length x) (Nat.min (length y) (length f)))%nat.
Proof.
  revert y f. induction x as [|xi x IH]; intros [|yi y] [|fi f]; cbn [der_loop length];
    try reflexivity; try (rewrite ?Nat.min_0_r; reflexivity).
  rewrite IH. cbn [Nat.min]. lia.
Qed.

End VectorLemmas.

(** ** The functions for [double] *)

Section DoubleLemmas.
Import casadi_double.

Lemma SFcompare_refl (s : spec_float) :
  SFcompare s s = match s with S754_nan => None | _ => Some Eq end.
Proof.
  destruct s as [b|b| |b m e]; cbn; try reflexivity.
  - destruct b; reflexivity.
  - assert (He : IntDef.Z.compare e e = Eq) by apply Z.compare_refl.
    assert (Hm : PosDef.Pos.compare_cont Eq m m = Eq)
      by apply Pos.compare_cont_refl.
    rewrite He, Hm. destruct b; reflexivity.
Qed.

Lemma is_nan_spec (x : float) :
  is_nan x = match Prim2SF x with S754_nan => true | _ => false end.
Proof.
  unfold is_nan. rewrite FloatAxioms.eqb_spec. unfold SFeqb. rewrite SFcompare_refl.
  destruct (Prim2SF x); reflexivity.
Qed.

Lemma is_infinity_spec (x : float) :
  is_infinity x
  = match Prim2SF x with S754_infinity _ => true | _ => false end.
Proof.
  unfold is_infinity. rewrite FloatAxioms.eqb_spec, FloatAxioms.abs_spec.
  replace (Prim2SF infinity) with (S754_infinity false) by reflexivity.
  destruct (Prim2SF x) as [b|b| |b m e]; reflexivity.
Qed.

Lemma SFsub_self (s : spec_float) :
  SF64sub s s
  = match s with
    | S754_nan | S754_infinity _ => S754_nan
    | _ => S754_zero false
    end.
Proof.
  destruct s as [b|b| |b m e]; cbn.
  - destruct b; reflexivity.
  - destruct b; reflexivity.
  - reflexivity.
  - unfold SF64sub, SFsub. cbv zeta. rewrite Z.sub_diag. reflexivity.
Qed.

Lemma ltb_not_nan (x y : float) :
  (x <? y)%float = true -> is_nan x = false /\ is_nan y = false.
Proof.
  rewrite FloatAxioms.ltb_spec, !is_nan_spec. unfold SFltb.
  destruct (Prim2SF x), (Prim2SF y); cbn; intros H;
    try discriminate; split; reflexivity.
Qed.

End DoubleLemmas.

(** ** Properties of the operations *)

Section RealGradients.
Import casadi casadiR.
Local Open Scope R_scope.
Variable erf : R -> R.
Variable erfinv : R -> R.
Variable atan2 : R -> R -> R.
Local Notation RS := (real_scalar erf erfinv atan2).
Local Notation is_gradient := (is_gradient erf erfinv atan2).
Local Notation is_derivative := (is_derivative erf erfinv atan2).
Local Notation partial_x := (partial_x erf erfinv atan2).
Local Notation partial_y := (partial_y erf erfinv atan2).
Local Notation derf_d := (derf_d erf erfinv atan2).

Ltac unary lemma :=
  apply gradient_of_derivative; [reflexivity|reflexivity|apply lemma].

(** X13.  Over the real numbers, [DerBinaryOpertion::derf] returns the two
    partial derivatives of the function it evaluates, for the arithmetic
    operations: everywhere for [OP_ASSIGN], [OP_ADD], [OP_SUB], [OP_MUL],
    [OP_NEG], [OP_SQ], [OP_TWICE], [OP_PRINTME] and [OP_LIFT]; for [OP_DIV]
    where [y ≠ 0], for [OP_INV] where [x ≠ 0] and for [OP_SQRT] where
    [x > 0].  An operation of one argument has [d[1] = 0]. *)
Theorem arithmetic_gradients (x y : R) :
  is_gradient OP_ASSIGN x y /\ is_gradient OP_ADD x y
  /\ is_gradient OP_SUB x y /\ is_gradient OP_MUL x y
  /\ is_gradient OP_NEG x y /\ is_gradient OP_SQ x y
  /\ is_gradient OP_TWICE x y /\ is_gradient OP_PRINTME x y
  /\ is_gradient OP_LIFT x y
  /\ (y <> 0 -> is_gradient OP_DIV x y)
  /\ (x <> 0 -> is_gradient OP_INV x y)
  /\ (0 < x -> is_gradient OP_SQRT x y).
Proof.
  split; [unary derivative_ASSIGN|].
  split; [apply gradient_ADD|].
  split; [apply gradient_SUB|].
  split; [apply gradient_MUL|].
  split; [unary derivative_NEG|].
  split; [unary derivative_SQ|].
  split; [unary derivative_TWICE|].
  split; [apply gradient_PRINTME|].
  split; [apply gradient_LIFT|].
  split; [apply gradient_DIV|].
  split; [intros Hx; unary derivative_INV; exact Hx|].
  intros Hx; unary derivative_SQRT; exact Hx.
Qed.

(** X14.  Over the real numbers, [derf] returns the partial derivatives of
    the exponential, the logarithm, the power and the trigonometric
    functions wherever the real function is differentiable: [OP_EXP],
    [OP_SIN], [OP_COS], [OP_ATAN] everywhere; [OP_LOG] and both partial
    derivatives of [OP_POW] for [x > 0]; [OP_TAN] where [cos x ≠ 0];
    [OP_ASIN] and [OP_ACOS] for [−1 < x < 1].  [OP_CONSTPOW] gives the
    derivative in [x] and [d[1] = 0]. *)
Theorem elementary_gradients (x y : R) :
  is_gradient OP_EXP x y /\ is_gradient OP_SIN x y
  /\ is_gradient OP_COS x y /\ is_gradient OP_ATAN x y
  /\ (0 < x -> is_gradient OP_LOG x y /\ is_gradient OP_POW x y
               /\ is_derivative OP_CONSTPOW x y
               /\ derf_d OP_CONSTPOW x y
                  = Some (y * Rpower x (y - 1), 0))
  /\ (cos x <> 0 -> is_gradient OP_TAN x y)
  /\ (-1 < x < 1 -> is_gradient OP_ASIN x y /\ is_gradient OP_ACOS x y).
Proof.
  split; [unary derivative_EXP|].
  split; [unary derivative_SIN|].
  split; [unary derivative_COS|].
  split; [unary derivative_ATAN|].
  split.
  { intros Hx.
    split; [unary derivative_LOG; exact Hx|].
    split; [apply gradient_POW; exact Hx|].
    split; [apply derivative_CONSTPOW; exact Hx|reflexivity]. }
  split; [intros Hx; unary derivative_TAN; exact Hx|].
  intros Hx. split; [unary derivative_ASIN|unary derivative_ACOS]; exact Hx.
Qed.

(** X15.  Over the real numbers, [derf] returns the partial derivatives of
    [OP_SINH], [OP_TANH] and [OP_ASINH] everywhere, of [OP_ACOSH] for
    [x > 1] and of [OP_ATANH] for [−1 < x < 1]; the inverse functions are the
    logarithm formulas of lines 204-216. *)
Theorem hyperbolic_gradients (x y : R) :
  is_gradient OP_SINH x y /\ is_gradient OP_TANH x y /\ is_gradient OP_ASINH x y
  /\ (1 < x -> is_gradient OP_ACOSH x y)
  /\ (-1 < x < 1 -> is_gradient OP_ATANH x y).
Proof.
  split; [unary derivative_SINH|].
  split; [unary derivative_TANH|].
  split; [unary derivative_ASINH|].
  split; intros Hx; [unary derivative_ACOSH|unary derivative_ATANH]; exact Hx.
Qed.

(** X16.  For [OP_COSH] the value written to [d[0]] is [−sinh x], while the
    derivative of [cosh] is [sinh x]: [derf] returns the derivative of
    [OP_COSH] at [x = 0] only. *)
Theorem COSH_derivative_negated (x y : R) :
  derf_d OP_COSH x y = Some (- sinh x, 0)
  /\ partial_x OP_COSH x y (sinh x)
  /\ (is_derivative OP_COSH x y <-> x = 0).
Proof.
  split; [reflexivity|].
  split; [|apply derivative_COSH_only_at_zero].
  pose proof (derivative_COSH_negated erf erfinv atan2 x y) as H.
  unfold casadiR.partial_x.
  destruct (@DerBinaryOpertion_derf RS OP_COSH) as [derf|]; [|exact H].
  destruct H as [H E]. rewrite E in H.
  eapply dlim_val; [exact H|lra].
Qed.

(** X17.  Over the real numbers, the operations with a kink or a jump have
    the partial derivatives that [derf] returns away from it: [OP_FABS],
    [OP_SIGN] and [OP_NOT] for [x ≠ 0]; [OP_FMIN], [OP_FMAX], [OP_LT],
    [OP_LE], [OP_EQ] and [OP_NE] for [x ≠ y]; [OP_AND] and [OP_OR] when neither
    argument is zero; [OP_FLOOR] and [OP_CEIL] when [x] is not an integer.
    At [x = 0] the value [sign 0 = 0] that [OP_FABS] writes is not a
    derivative. *)
Theorem kink_gradients (x y : R) :
  (x <> 0 ->
   is_gradient OP_FABS x y /\ is_gradient OP_SIGN x y
   /\ is_gradient OP_NOT x y)
  /\ (x <> y ->
      is_gradient OP_FMIN x y /\ is_gradient OP_FMAX x y
      /\ is_gradient OP_LT x y /\ is_gradient OP_LE x y
      /\ is_gradient OP_EQ x y /\ is_gradient OP_NE x y)
  /\ (x <> 0 -> y <> 0 -> is_gradient OP_AND x y /\ is_gradient OP_OR x y)
  /\ ((forall k : Z, IZR k <> x) ->
      is_gradient OP_FLOOR x y /\ is_gradient OP_CEIL x y)
  /\ ~ is_derivative OP_FABS 0 y.
Proof.
  split.
  { intros Hx. split; [unary derivative_FABS; exact Hx|].
    split; [unary derivative_SIGN; exact Hx|apply gradient_NOT; exact Hx]. }
  split.
  { intros Hxy.
    split; [apply gradient_FMIN; exact Hxy|].
    split; [apply gradient_FMAX; exact Hxy|].
    split; [apply gradient_LT; exact Hxy|].
    split; [apply gradient_LE; exact Hxy|].
    split; [apply gradient_EQ; exact Hxy|apply gradient_NE; exact Hxy]. }
  split.
  { intros Hx Hy.
    split; [apply gradient_AND|apply gradient_OR]; assumption. }
  split.
  { intros Hx. split; [unary derivative_FLOOR|unary derivative_CEIL]; exact Hx. }
  unfold casadiR.is_derivative. cbn. apply FABS_kink.
Qed.

(** X18.  [OP_COPYSIGN] writes [d[0] = copysign (1, y)] and [d[1] = 0].
    For [x > 0], whatever [y] is, [d[0]] is the derivative in [x]; for
    [x < 0] the derivative in [x] is its negative; and for [y ≠ 0], whatever
    [x] is, the derivative in [y] is the [0] written to [d[1]]. *)
Theorem COPYSIGN_partials (x y : R) :
  derf_d OP_COPYSIGN x y
  = Some (if Rle_dec 0 y then 1 else - 1, 0)
  /\ (0 < x -> partial_x OP_COPYSIGN x y (if Rle_dec 0 y then 1 else - 1))
  /\ (y <> 0 -> partial_y OP_COPYSIGN x y 0)
  /\ (x < 0 ->
      partial_x OP_COPYSIGN x y
        (- (if Rle_dec 0 y then 1 else - 1))).
Proof.
  split; [apply COPYSIGN_written|].
  split; [apply COPYSIGN_positive|].
  split; [apply COPYSIGN_in_y|apply COPYSIGN_negative].
Qed.

(** X19.  [OP_IF_ELSE_ZERO] writes [d[0] = 0] and [d[1] = x]; for a
    condition [x ≠ 0] the partial derivatives of [x ? y : 0] are [0] and
    [1], so [d[1]] is the derivative in [y] exactly for the conditions
    [x = 0] and [x = 1]. *)
Theorem IF_ELSE_ZERO_partials (x y : R) :
  derf_d OP_IF_ELSE_ZERO x y = Some (0, x)
  /\ (x <> 0 -> partial_x OP_IF_ELSE_ZERO x y 0
                /\ partial_y OP_IF_ELSE_ZERO x y 1)
  /\ (partial_y OP_IF_ELSE_ZERO x y x <-> x = 0 \/ x = 1).
Proof.
  pose proof (IF_ELSE_ZERO_partial_y erf erfinv atan2 x y) as Hy.
  split; [reflexivity|].
  split.
  { intros Hx. split; [apply IF_ELSE_ZERO_partial_x; exact Hx|].
    destruct (Req_dec_T x 0); [contradiction|exact Hy]. }
  split.
  - intros H.
    assert (E : x = if Req_dec_T x 0 then 0 else 1).
    { revert H Hy. unfold casadiR.partial_y.
      destruct (@DerBinaryOpertion_derf RS OP_IF_ELSE_ZERO) as [derf|];
        [|contradiction].
      intros H Hy. eapply uniqueness_limite; eassumption. }
    destruct (Req_dec_T x 0); [left; assumption|right; exact E].
  - intros [Hx|Hx]; subst x.
    + destruct (Req_dec_T 0 0) as [_|Hn]; [exact Hy|contradiction].
    + destruct (Req_dec_T 1 0) as [H0|_]; [lra|exact Hy].
Qed.

End RealGradients.

Section TableProperties.
Import casadi casadiR.
Local Open Scope R_scope.
Variable erf : R -> R.
Variable erfinv : R -> R.
Variable atan2 : R -> R -> R.
Local Notation RS := (real_scalar erf erfinv atan2).

(** X20.  Every operation that [CommChecker] flags is flagged by
    [BinaryChecker] as well, has a [BinaryOperation] of its own, and over the
    real numbers its function gives the same value with the arguments
    swapped. *)
Theorem CommChecker_sound (I : Operation) :
  CommChecker I = true ->
  BinaryChecker I = true
  /\ UnaryOperation_fcn (Sc := RS) I = None
  /\ exists fcn : R -> R -> R,
      BinaryOperation_fcn (Sc := RS) I = Some fcn
      /\ forall x y : R, fcn x y = fcn y x.
Proof.
  intros H.
  destruct (CommChecker_sound_aux erf erfinv atan2 I H) as [Hb Hf].
  split; [exact Hb|]. split; [|exact Hf].
  destruct I; try discriminate; reflexivity.
Qed.

(** X21.  Over the real numbers every operation that [NonnegativeChecker]
    flags evaluates to a value [≥ 0], whatever the arguments ([OP_SQRT]: for
    an argument that has a square root). *)
Theorem NonnegativeChecker_sound (I : Operation) (x y : R) :
  NonnegativeChecker I = true ->
  (I = OP_SQRT -> 0 <= x) ->
  exists fcn : R -> R -> R,
    BinaryOperation_fcn (Sc := RS) I = Some fcn /\ 0 <= fcn x y.
Proof.
  intros H _. apply NonnegativeChecker_sound_aux. exact H.
Qed.

(** X22.  The zero flags are sound over the real numbers: an operation
    flagged by [F0XChecker] gives [0] when its first argument is [0] (for
    [OP_DIV] and [OP_FMOD]: when [y ≠ 0]), one flagged by [Function0Checker]
    gives [0] when its second argument is [0], and one flagged by
    [F00Checker] gives [0] at [(0, 0)].  Left out are [OP_POW] and
    [OP_CONSTPOW], whose real function stands for [pow] at a positive base
    only, [OP_ERF] and [OP_ERFINV], and at [(0, 0)] the two divisions. *)
Theorem zero_flags_sound (I : Operation) (x y : R) :
  (F0XChecker I = true ->
   ~ In I [OP_POW; OP_CONSTPOW; OP_ERF; OP_ERFINV] ->
   (In I [OP_DIV; OP_FMOD] -> y <> 0) ->
   exists fcn : R -> R -> R,
     BinaryOperation_fcn (Sc := RS) I = Some fcn /\ fcn 0 y = 0)
  /\ (Function0Checker I = true ->
      exists fcn : R -> R -> R,
        BinaryOperation_fcn (Sc := RS) I = Some fcn /\ fcn x 0 = 0)
  /\ (F00Checker I = true ->
      ~ In I [OP_DIV; OP_FMOD; OP_POW; OP_CONSTPOW; OP_ERF; OP_ERFINV] ->
      exists fcn : R -> R -> R,
        BinaryOperation_fcn (Sc := RS) I = Some fcn /\ fcn 0 0 = 0).
Proof.
  split; [apply F0XChecker_sound_aux|].
  split; [apply Function0Checker_sound_aux|apply F00Checker_sound_aux].
Qed.

End TableProperties.

Section VectorProperties.
Import casadi.
Context {Sc : Scalar}.

(** X23.  The form for a vector and a scalar writes what the form for two
    vectors writes when the scalar is repeated [n] times, for the function
    and for the partial derivatives, on either side. *)
Theorem vector_scalar_forms (I : Operation) (x f : list T) (y : T) (n : nat) :
  BinaryOperationVS_fcn I x y n = BinaryOperationVV_fcn I x (repeat y n) n
  /\ BinaryOperationVS_der I x y f n
     = BinaryOperationVV_der I x (repeat y n) f n
  /\ BinaryOperationSV_fcn I y x n = BinaryOperationVV_fcn I (repeat y n) x n
  /\ BinaryOperationSV_der I y x f n
     = BinaryOperationVV_der I (repeat y n) x f n.
Proof.
  unfold BinaryOperationVS_fcn, BinaryOperationVV_fcn, BinaryOperationVS_der,
    BinaryOperationVV_der, BinaryOperationSV_fcn, BinaryOperationSV_der.
  rewrite !read_repeat.
  destruct (BinaryOperation_fcn I) as [fcn|], (BinaryOperation_der I) as [der|];
    destruct (read n x) as [x'|] eqn:Ex; try (repeat split; reflexivity);
    try (repeat split; destruct (read n f); reflexivity).
  - apply read_length in Ex. destruct Ex as [Ex _].
    rewrite fcn_loop_VS_repeat, fcn_loop_SV_repeat, Ex.
    repeat split; destruct (read n f) as [f'|]; try reflexivity.
    + rewrite der_loop_VS_repeat, Ex. reflexivity.
    + rewrite der_loop_SV_repeat, Ex. reflexivity.
  - apply read_length in Ex. destruct Ex as [Ex _].
    rewrite fcn_loop_VS_repeat, fcn_loop_SV_repeat, Ex.
    repeat split; reflexivity.
  - apply read_length in Ex. destruct Ex as [Ex _].
    repeat split; destruct (read n f) as [f'|]; try reflexivity.
    + rewrite der_loop_VS_repeat, Ex. reflexivity.
    + rewrite der_loop_SV_repeat, Ex. reflexivity.
Qed.

(** X24.  With [n] coefficients to read in [x] and in [y], the form for two
    vectors writes [n] function values and then, from these, [2 n] partial
    derivatives: [f[i]], [d[2 i]] and [d[2 i + 1]] are what [derf] returns
    for [x[i]] and [y[i]]. *)
Theorem vector_form_layout (I : Operation) (derf : T -> T -> T * (T * T))
  (x y : list T) (n : nat) :
  DerBinaryOpertion_derf I = Some derf ->
  (n <= length x)%nat ->
  (n <= length y)%nat ->
  exists f d : list T,
    BinaryOperationVV_fcn I x y n = Some f
    /\ BinaryOperationVV_der I x y f n = Some d
    /\ length f = n
    /\ length d = (2 * n)%nat
    /\ forall (i : nat) (xi yi : T),
        (i < n)%nat ->
        nth_error x i = Some xi ->
        nth_error y i = Some yi ->
        nth_error f i = Some (fst (derf xi yi))
        /\ nth_error d (2 * i) = Some (fst (snd (derf xi yi)))
        /\ nth_error d (2 * i + 1) = Some (snd (snd (derf xi yi))).
Proof.
  unfold DerBinaryOpertion_derf, BinaryOperationVV_fcn, BinaryOperationVV_der.
  destruct (BinaryOperation_fcn I) as [fcn|]; [|discriminate].
  destruct (BinaryOperation_der I) as [der|]; [|discriminate].
  intros Hd Hx Hy. inversion Hd; subst derf; clear Hd.
  assert (Rx : read n x = Some (firstn n x)).
  { unfold read. apply Nat.leb_le in Hx. rewrite Hx. reflexivity. }
  assert (Ry : read n y = Some (firstn n y)).
  { unfold read. apply Nat.leb_le in Hy. rewrite Hy. reflexivity. }
  rewrite Rx, Ry.
  set (f := fcn_loop fcn (firstn n x) (firstn n y)).
  assert (Lf : length f = n).
  { unfold f. rewrite fcn_loop_length, !firstn_length_le by assumption.
    apply Nat.min_id. }
  assert (Rf : read n f = Some f).
  { unfold read. rewrite Lf, Nat.leb_refl, firstn_all2 by lia. reflexivity. }
  exists f, (der_loop der (firstn n x) (firstn n y) f).
  split; [reflexivity|]. split; [rewrite Rf; reflexivity|]. split; [exact Lf|].
  split.
  { rewrite der_loop_length, Lf, !firstn_length_le by assumption.
    rewrite !Nat.min_id. reflexivity. }
  intros i xi yi Hi Hxi Hyi.
  assert (Hxi' : nth_error (firstn n x) i = Some xi)
    by (rewrite nth_error_firstn; apply Nat.ltb_lt in Hi; rewrite Hi; exact Hxi).
  assert (Hyi' : nth_error (firstn n y) i = Some yi)
    by (rewrite nth_error_firstn; apply Nat.ltb_lt in Hi; rewrite Hi; exact Hyi).
  assert (Hfi : nth_error f i = Some (fcn xi yi)).
  { unfold f. rewrite fcn_loop_nth, Hxi', Hyi'. reflexivity. }
  pose proof (der_loop_nth der (firstn n x) (firstn n y) f i) as H.
  rewrite Hxi', Hyi', Hfi in H. cbn [fst snd].
  split; [exact Hfi|exact H].
Qed.

End VectorProperties.

Section BinaryTable.
Import casadi.
Context {Sc : Scalar}.

(** X25.  [BinaryChecker] flags operations of two arguments only, but not all
    of them: the operations that have a [BinaryOperation] of their own and no
    [UnaryOperation] are the flagged ones and [OP_LT], [OP_LE], [OP_FMOD] and
    [OP_LIFT]. *)
Theorem BinaryChecker_misses (I : Operation) :
  (UnaryOperation_fcn I = None /\ BinaryOperation_fcn I <> None)
  <-> (BinaryChecker I = true \/ In I [OP_LT; OP_LE; OP_FMOD; OP_LIFT]).
Proof.
  destruct I; cbn; split;
    try (intros [H1 H2]; first [discriminate H1|exfalso; apply H2; reflexivity]);
    try (intros _; first [left; reflexivity|right; tauto]);
    try (intros _; split; [reflexivity|discriminate]);
    try (intros [H|H]; [discriminate H|exfalso; intuition discriminate]).
Qed.

End BinaryTable.

Section DoubleProperties.
Import casadi_double.

(** X26.  [isinf] answers true for the two infinities and also for a NaN:
    [x - x] is a NaN in both cases, so [isinf] is the negation of
    [isfinite]. *)
Theorem isinf_not_finite (x : float) :
  isinf x = negb (is_finite x)
  /\ (is_nan x = true -> isinf x = true).
Proof.
  assert (H : isinf x = negb (is_finite x)).
  { unfold is_finite. rewrite negb_involutive.
    unfold isinf, isnan. fold (is_nan (x - x)).
    rewrite !is_nan_spec, is_infinity_spec, FloatAxioms.sub_spec, SFsub_self.
    destruct (Prim2SF x); reflexivity. }
  split; [exact H|].
  intros Hn. rewrite H. unfold is_finite. rewrite Hn. reflexivity.
Qed.

(** X27.  [sign] of a NaN is a NaN and [sign] of a zero is that zero, with
    its sign; every other [x], the infinities included, gives [-1] or [1]. *)
Theorem sign_classifies (x : float) :
  match Prim2SF x with
  | S754_nan => is_nan (sign x) = true
  | S754_zero _ => sign x = x
  | S754_infinity s | S754_finite s _ _ =>
      sign x = if s then (-1)%float else 1%float
  end.
Proof.
  pose proof (is_nan_spec x) as Hn.
  unfold sign. rewrite !FloatAxioms.ltb_spec.
  replace (Prim2SF 0) with (S754_zero false) by reflexivity.
  unfold SFltb.
  destruct (Prim2SF x) as [b|b| |b m e]; cbn.
  - reflexivity.
  - destruct b; reflexivity.
  - exact Hn.
  - destruct b; reflexivity.
Qed.

(** X28.  [fmin] and [fmax] return their first argument as soon as one of
    the two is a NaN: a NaN in the second argument is dropped, a NaN in the
    first one is returned. *)
Theorem fmin_fmax_NaN (x y : float) :
  (is_nan x = true \/ is_nan y = true -> fmin x y = x /\ fmax x y = x)
  /\ is_nan (fmin x y) = is_nan x
  /\ is_nan (fmax x y) = is_nan x.
Proof.
  unfold fmin, fmax. split; [|split].
  - intros H.
    destruct (y <? x)%float eqn:E1.
    { apply ltb_not_nan in E1. destruct H; destruct E1; congruence. }
    destruct (x <? y)%float eqn:E2.
    { apply ltb_not_nan in E2. destruct H; destruct E2; congruence. }
    split; reflexivity.
  - destruct (y <? x)%float eqn:E1; [|reflexivity].
    apply ltb_not_nan in E1. destruct E1; congruence.
  - destruct (x <? y)%float eqn:E2; [|reflexivity].
    apply ltb_not_nan in E2. destruct E2; congruence.
Qed.

(** X29.  [copysign], as the header defines it, looks at [y >= 0] and not
    at the sign bit of [y]: it returns [fabs x] for a [y] that is a zero of
    either sign and [- fabs x] for a [y] that is a NaN; for every other [y]
    the result has the sign of [y]. *)
Theorem copysign_classifies (x y : float) :
  copysign x y
  = match Prim2SF y with
    | S754_zero _ => abs x
    | S754_nan => (- abs x)%float
    | S754_infinity s | S754_finite s _ _ =>
        if s then (- abs x)%float else abs x
    end.
Proof.
  unfold copysign. rewrite FloatAxioms.leb_spec.
  replace (Prim2SF 0) with (S754_zero false) by reflexivity.
  unfold SFleb.
  destruct (Prim2SF y) as [b|b| |b m e]; cbn; try reflexivity;
    destruct b; reflexivity.
Qed.

(** X30.  [if_else_zero] takes every [x] but a zero for a true condition: it
    returns [y] for a NaN [x] and [0] for [x = -0]. *)
Theorem if_else_zero_classifies (x y : float) :
  if_else_zero x y
  = match Prim2SF x with
    | S754_zero _ => 0%float
    | _ => y
    end.
Proof.
  unfold if_else_zero. rewrite FloatAxioms.eqb_spec.
  replace (Prim2SF 0) with (S754_zero false) by reflexivity.
  unfold SFeqb.
  destruct (Prim2SF x) as [b|b| |b m e]; cbn; try reflexivity;
    destruct b; reflexivity.
Qed.

End DoubleProperties.

(** * Concrete runs *)

(** ** Binary64 *)

Module Examples.
Import Binary64.
Local Open Scope float_scope.
Set Warnings "-inexact-float".
Import Runs.

Lemma quad_entry_eq :
  initialize LB SLB defaults (world_of false) quad [] [1] [] [] []
  = Continue quad_entry.
Proof. vm_compute. reflexivity. Defined.

Lemma quad_entry_stop_eq :
  initialize LB SLB defaults (world_of true) quad [] [1] [] [] []
  = Continue quad_entry.
Proof. vm_compute. reflexivity. Defined.

Lemma quad_head1_eq :
  iteration defaults (world_of false) quad [] tolerance 50 0 quad_entry
  = Some (Continue quad_head1).
Proof. vm_compute. reflexivity. Defined.

Lemma quad_result_eq :
  main_loop defaults (world_of false) quad [] tolerance 50
    (S (max_iter defaults)) 0 quad_entry
  = Returned quad_result.
Proof. vm_compute. reflexivity. Defined.

Lemma root_entry_eq :
  initialize LB SLB defaults (world_of false) root [1] [1] [7] [0.5] [7]
  = Continue root_entry.
Proof. vm_compute. reflexivity. Defined.

Lemma root_result_eq :
  main_loop defaults (world_of false) root [1] tolerance 50
    (S (max_iter defaults)) 0 root_entry
  = Returned root_result.
Proof. vm_compute. reflexivity. Defined.

(** The quadratic is solved, in two iterations and without a line-search
    failure. *)
Lemma quad_converges :
  status (s quad_result) = Converged
  /\ iterations (s quad_result) = 2%nat
  /\ linesearch_failures (s quad_result) = 0%nat.
Proof. repeat split; vm_compute; reflexivity. Qed.

(** *** C1 *)

Lemma C1_witness :
  (iterations (s quad_result) <= max_iter defaults)%nat
  /\ caller quad_result = written_outputs quad [] [] (cur quad_result).
Proof.
  destruct (C1_outputs_on_termination defaults (world_of false) quad []
              tolerance [1] [] [] [] 50 quad_entry_eq quad_result_eq)
    as (Hk & _ & _ & _ & Hc).
  split; [exact Hk|]. vm_compute in Hc |- *. exact Hc.
Defined.

(** The main loop of the solver on [root] returns at [k = 0] with status
    [NotFinite], and the caller's vectors have not been written from [x̂₀]:
    [y] is still [0.5] where [ŷ(x̂₀)] is [0]. *)
Lemma C1_counterexample :
  initialize LB SLB defaults (world_of false) root [1] [1] [7] [0.5] [7]
  = Continue root_entry
  /\ main_loop defaults (world_of false) root [1] tolerance 50
       (S (max_iter defaults)) 0 root_entry = Returned root_result
  /\ status (s root_result) = NotFinite
  /\ caller root_result <> written_outputs root [1] [0.5] (cur root_result).
Proof.
  split; [exact root_entry_eq|]. split; [exact root_result_eq|].
  split; [vm_compute; reflexivity|].
  intros H.
  apply (f_equal (fun o : @Outputs double =>
                    match out_y o with
                           | [v] => PrimFloat.ltb (v : float) 0.25
                           | _ => false
                           end)) in H.
  vm_compute in H. discriminate H.
Qed.

(** *** C2 *)

Lemma quad_fit0_eq :
  upper_bound_fit defaults quad [] 50 0 quad_entry = Some quad_fit0.
Proof. vm_compute. reflexivity. Defined.

Lemma C2_witness :
  upper_bound_fit defaults quad [] 50 0 quad_entry = Some quad_fit0
  /\ let c := cur quad_fit0 in
     let εₖ := calc_error_stop_crit (it_p c) (it_γ c)
                 (calc_grad_ψ_from_ŷ quad (it_x_hat c) (it_ŷ_x_hat c))
                 (it_grad_ψ c) in
     code_status (r_leb εₖ tolerance) (0 =? max_iter defaults)%nat
       (max_time defaults <? time_elapsed (world_of false) quad_entry)%Z
       (negb (r_isfinite εₖ))
       (stop_signal_load (world_of false) (stop_loads quad_entry)) = None.
Proof.
  destruct (C2_status_priority defaults (world_of false) quad [] tolerance
              50 0 quad_entry quad_head1_eq) as (st1 & Hf & Hs & _).
  split; [exact quad_fit0_eq|].
  rewrite quad_fit0_eq in Hf. injection Hf as <-.
  symmetry. exact Hs.
Defined.

(** With [max_iter = 0] and [max_time = 0] the first stopping test finds the
    residual above the tolerance, [k = max_iter] and the time budget
    exceeded: the list of the specification gives [MaxIter], the solver
    returns [MaxTime]. *)
Lemma C2_counterexample :
  solve LB SLB no_budget (world_of false) quad [] tolerance 50 [1] [] [] []
  = Returned quad_no_budget
  /\ r_leb (final_ε (s quad_no_budget)) tolerance = false
  /\ (iterations (s quad_no_budget) =? max_iter no_budget)%nat = true
  /\ (max_time no_budget
      <? steady_clock_now (world_of false) 1
         - steady_clock_now (world_of false) 0)%Z = true
  /\ status (s quad_no_budget) = MaxTime
  /\ listed_status false true true
       (negb (r_isfinite (final_ε (s quad_no_budget)))) false
     = Some MaxIter.
Proof. repeat split; vm_compute; reflexivity. Qed.

(** *** C3 *)




(** *** C4 *)

Lemma quad_fit_eq :
  qub_loop LB quad [] 50 false [] (cur quad_entry) (lbfgs quad_entry)
  = Some (fst quad_fit, snd quad_fit).
Proof. vm_compute. reflexivity. Defined.

Lemma C4_witness :
  qub_violated (fst quad_fit) = false
  /\ it_L (fst quad_fit) = (it_L (cur quad_entry) * 2)%float
  /\ exists n : nat,
       fst quad_fit = Nat.iter n (qub_pass quad [] []) (cur quad_entry).
Proof.
  destruct (C4_upper_bound_loop LB SLB defaults quad [] 50 false []
              (cur quad_entry) (lbfgs quad_entry) quad_fit_eq)
    as ((n & Hn & _) & _ & Hv & _).
  split; [exact Hv|]. split; [vm_compute; reflexivity|].
  exists n. exact Hn.
Defined.

Lemma root_fit_eq :
  qub_loop LB root [1] 50 false [0.5] (cur root_entry) (lbfgs root_entry)
  = Some root_fit.
Proof. vm_compute. reflexivity. Qed.

(** On [root] the upper bound fit of iteration [0] exits without a pass:
    [ψ̂] is NaN, so the loop test is false, and so is the inequality. *)
Lemma C4_counterexample :
  initialize LB SLB defaults (world_of false) root [1] [1] [7] [0.5] [7]
  = Continue root_entry
  /\ qub_loop LB root [1] 50 false [0.5] (cur root_entry) (lbfgs root_entry)
     = Some root_fit
  /\ upper_bound_fit defaults root [1] 50 0 root_entry
     = Some (set_lbfgs (set_iterates root_entry (fst root_fit)
                          (nxt root_entry)) (snd root_fit))
  /\ qub_violated (fst root_fit) = false
  /\ listed_upper_bound (fst root_fit) = false.
Proof.
  split; [exact root_entry_eq|]. split; [exact root_fit_eq|].
  repeat split; vm_compute; reflexivity.
Qed.

(** *** C5 and C7 *)

Lemma kinked_entry_eq :
  initialize LB SLB defaults (world_of false) kinked [] [0] [] [] []
  = Continue kinked_entry.
Proof. vm_compute. reflexivity. Qed.

Lemma kinked_head1_eq :
  iteration defaults (world_of false) kinked [] tolerance 1100 0 kinked_entry
  = Some (Continue kinked_head1).
Proof. vm_compute. reflexivity. Qed.

(** On [kinked], started at [x = 0], the estimate [L₀] is the machine
    epsilon and the first step lands on the kink.  The shrink loop of the
    line search of iteration [0] then finds the bound violated in each of
    1076 passes, until [L] has overflowed: the step is accepted, and at the
    head of iteration [1] [L] is infinite and [γ L > Lγ_factor]. *)
Lemma C5_counterexample :
  initialize LB SLB defaults (world_of false) kinked [] [0] [] [] []
  = Continue kinked_entry
  /\ reach defaults (world_of false) kinked [] tolerance 1100 kinked_entry 1
       kinked_head1
  /\ (r_ltb r_zero (Lipschitz_Lγ_factor defaults)
      && r_ltb (Lipschitz_Lγ_factor defaults) r_one = true)
  /\ passes_from 1076 (cur kinked_entry) (cur kinked_head1)
  /\ it_L (cur kinked_head1) = infinity
  /\ r_isfinite (it_L (cur kinked_head1)) = false
  /\ r_leb (it_γ (cur kinked_head1) * it_L (cur kinked_head1))
       (Lipschitz_Lγ_factor defaults) = false.
Proof.
  split; [exact kinked_entry_eq|].
  split.
  { exact (reach_next (reach_entry defaults (world_of false) kinked []
                         tolerance 1100 kinked_entry) kinked_head1_eq). }
  repeat split; vm_compute; reflexivity.
Qed.

Lemma slope_entry_eq :
  initialize LB SLB defaults (world_of false) slope [] [0.3] [] [] []
  = Continue slope_entry.
Proof. vm_compute. reflexivity. Qed.

Lemma slope_result_eq :
  solve LB SLB defaults (world_of false) slope [] tolerance 50 [0.3] [] [] []
  = Returned slope_result.
Proof. vm_compute. reflexivity. Qed.

(** On [slope], started at [x = 0.3] in [C = [0, 0.9]], the step is cut at
    [xᵤ − x], which rounds to [0.6000000000000001], and [x + p] is
    [0.9000000000000001 > xᵤ]: the [x̂₀] at the head of iteration [0] lies
    outside [C], and it is the [x] returned with status [Converged]. *)
Lemma C7_counterexample :
  initialize LB SLB defaults (world_of false) slope [] [0.3] [] [] []
  = Continue slope_entry
  /\ solve LB SLB defaults (world_of false) slope [] tolerance 50
       [0.3] [] [] [] = Returned slope_result
  /\ lowerbound (p_C slope) = [0] /\ upperbound (p_C slope) = [0.9]
  /\ r_leb 0 0.9 = true
  /\ it_x (cur slope_entry) = [0.3]
  /\ it_p (cur slope_entry) = [0.6000000000000001]
  /\ it_x_hat (cur slope_entry) = [0.9000000000000001]
  /\ r_leb 0.9000000000000001 0.9 = false
  /\ status (s slope_result) = Converged
  /\ out_x (caller slope_result) = [0.9000000000000001].
Proof.
  split; [exact slope_entry_eq|]. split; [exact slope_result_eq|].
  repeat split; vm_compute; reflexivity.
Qed.

(** *** C8 and C9 *)

Lemma C8_witness :
  consistent quad [] [] (cur quad_fit0)
  /\ r_leb (norm_inf
              (vadd (scale (r_one / it_γ (cur quad_fit0))%rt
                       (it_p (cur quad_fit0)))
                 (vsub (snd (calc_ψ_grad_ψ quad (it_x_hat (cur quad_fit0))
                               [] []))
                    (snd (calc_ψ_grad_ψ quad (it_x (cur quad_fit0)) [] [])))))
       tolerance = false
  /\ exists st4 : State LB SLB,
       cur st4 = cur quad_fit0
       /\ accept_step defaults quad [] 50 0 st4 = Some quad_head1.
Proof.
  destruct (@C8_stopping_residual double LB SLB defaults (world_of false)
              quad [] tolerance [1] [] [] [] 50 0 quad_entry quad_entry
              (Continue quad_head1) quad_entry_eq
              (reach_entry defaults (world_of false) quad [] tolerance 50
                 quad_entry) quad_head1_eq)
    as (st1 & Hf & Hc & _ & Hm & Hs).
  rewrite quad_fit0_eq in Hf. injection Hf as <-.
  split; [exact Hc|]. split; [exact Hm | exact Hs].
Defined.

Lemma capped_entry_eq :
  initialize LB SLB defaults (world_of true) capped [1] [1] [7] [0.5] [7]
  = Continue capped_entry.
Proof. vm_compute. reflexivity. Defined.

Lemma capped_fit_eq :
  upper_bound_fit defaults capped [1] 50 0 capped_entry = Some capped_fit.
Proof. vm_compute. reflexivity. Defined.

Lemma capped_interrupted_eq :
  iteration defaults (world_of true) capped [1] tolerance 50 0 capped_entry
  = Some (Exit capped_interrupted).
Proof. vm_compute. reflexivity. Defined.

(** On [capped] with the stop flag set, iteration [0] returns [Interrupted]
    after one load of the flag; [z] is the projection of [g(x̂₀) + y/Σ] onto
    [D], here its upper bound, and [err_z] is [g(x̂₀) − z]. *)
Lemma C9_witness :
  stop_loads capped_entry = 0%nat
  /\ status (s capped_interrupted) = Interrupted
  /\ stop_loads capped_interrupted = 1%nat
  /\ out_x (caller capped_interrupted) = it_x_hat (cur capped_fit)
  /\ out_y (caller capped_interrupted)
     = snd (calc_ψ_ŷ capped (it_x_hat (cur capped_fit)) [0.5] [1])
  /\ out_z (caller capped_interrupted)
     = project (vadd (p_g capped (it_x_hat (cur capped_fit)))
                  (vdiv [0.5] [1])) (p_D capped)
  /\ out_err_z (caller capped_interrupted)
     = vsub (p_g capped (it_x_hat (cur capped_fit)))
         (out_z (caller capped_interrupted))
  /\ out_z (caller capped_interrupted) = [0.25].
Proof.
  destruct (@C9_stop_flag double LB SLB defaults (world_of true)
              capped [1] tolerance [1] [7] [0.5] [7] 50 0 capped_entry
              capped_entry capped_entry_eq
              (reach_entry defaults (world_of true) capped [1] tolerance 50
                 capped_entry))
    as (H0 & Hfl & _).
  split; [exact H0|].
  destruct (Hfl _ capped_interrupted_eq) as (st1 & Hf & Hm).
  rewrite capped_fit_eq in Hf. injection Hf as <-.
  cbn zeta in Hm. destruct Hm as (_ & _ & _ & _ & Hif).
  match type of Hif with
  | if ?b then _ else _ =>
      assert (Hb : b = false) by (vm_compute; reflexivity);
      rewrite Hb in Hif
  end.
  destruct Hif as (_ & Hs & Hl & Hx & Hy & Hŷ & Hz & He).
  split; [exact Hs|]. split; [exact Hl|]. split; [exact Hx|].
  split; [rewrite <- Hŷ; exact Hy|]. split; [exact Hz|].
  split; [exact He|]. vm_compute. reflexivity.
Defined.

(** *** C10 *)

Lemma C10_witness :
  exists r : State LB SLB,
    solve LB SLB no_floor (world_of false) quad [] tolerance 50 [0] [] [] []
    = Returned r
    /\ status (s r) = NotFinite
    /\ final_ε (s r) = infinity.
Proof.
  destruct (C10_nonfinite_L0_frame LB SLB no_floor (world_of false) quad []
              tolerance [0] [] [] [] 50)
    as (r & Hr & Hs & _ & _ & Hε & _).
  - vm_compute. reflexivity.
  - vm_compute. reflexivity.
  - exists r. split; [exact Hr|]. split; [exact Hs|exact Hε].
Defined.

End Examples.

(** ** Exact rational arithmetic *)

Module ExactExamples.
Import Rational.
Import RationalLaws.
Local Open Scope Q_scope.
Import ExactRuns.

Lemma boxed_entry_eq :
  initialize LB SLB defaults quiet boxed [] [3 # 4] [] [] []
  = Continue boxed_entry.
Proof.
  unfold boxed_entry.
  destruct (initialize LB SLB defaults quiet boxed [] [3 # 4] [] [] [])
    as [r|st] eqn:E; [|reflexivity].
  apply (f_equal (fun fl => continues (Some fl))) in E.
  vm_compute in E. discriminate E.
Defined.

Lemma boxed_head1_eq :
  iteration defaults quiet boxed [] tolerance 50 0 boxed_entry
  = Some (Continue boxed_head1).
Proof.
  unfold boxed_head1.
  destruct (iteration defaults quiet boxed [] tolerance 50 0 boxed_entry)
    as [[r|st]|] eqn:E; [|reflexivity|];
    apply (f_equal continues) in E; vm_compute in E; discriminate E.
Defined.

Lemma boxed_reach1 :
  reach defaults quiet boxed [] tolerance 50 boxed_entry 1 boxed_head1.
Proof.
  exact (reach_next (reach_entry defaults quiet boxed [] tolerance 50
                       boxed_entry) boxed_head1_eq).
Defined.

Lemma factor_in_range :
  (0 < toR exact (Lipschitz_Lγ_factor defaults) < 1)%R.
Proof. cbn. unfold Q2R. cbn. lra. Defined.

Lemma boxed_ordered : ordered_box exact (p_C boxed).
Proof.
  unfold ordered_box. cbn. constructor; [|constructor].
  unfold Q2R. cbn. lra.
Defined.

Lemma C5_witness :
  (exists n : nat, passes_from n (cur boxed_entry) (cur boxed_head1))
  /\ scalars_ok exact (toR exact (Lipschitz_Lγ_factor defaults))
       (toR exact (it_γ (cur boxed_entry))) (cur boxed_head1).
Proof.
  destruct (@C5_step_size_invariants rational LB SLB defaults quiet boxed
              [] tolerance [3 # 4] [] [] [] 50 1 boxed_entry boxed_head1
              boxed_entry_eq boxed_reach1) as (_ & Hn & _ & HE).
  split; [exact Hn|]. exact (proj1 (HE exact factor_in_range)).
Defined.

Lemma C7_witness :
  in_box exact (lowerbound (p_C boxed)) (upperbound (p_C boxed))
    (it_x_hat (cur boxed_head1)).
Proof.
  destruct (@C7_projected_step rational LB SLB defaults quiet boxed []
              tolerance [3 # 4] [] [] [] 50 1 boxed_entry boxed_head1
              boxed_entry_eq boxed_reach1) as (_ & _ & _ & _ & HE).
  exact (proj2 (proj2 (HE exact) boxed_ordered)).
Defined.


End ExactExamples.

(** ** Further runs *)

Module BookkeepingExamples.
Import Binary64 Runs SolvedRuns.
Local Open Scope float_scope.

Lemma quad_solved_eq :
  solve LB SLB defaults (world_of false) quad [] tolerance 50 [1] [] [] []
  = Returned quad_solved.
Proof. vm_compute. reflexivity. Qed.

Lemma quad_solved_status : status (s quad_solved) = Converged.
Proof. vm_compute. reflexivity. Qed.

Lemma counters_bounded_witness :
  (lbfgs_rejected (s quad_solved)
   <= lbfgs_rejected (default_Stats (world_of false))
      + iterations (s quad_solved))%nat.
Proof.
  destruct (@counters_bounded double LB SLB defaults (world_of false) quad []
              tolerance 50 [1] [] [] [] quad_solved quad_solved_eq) as (_ & _ & _ & H).
  exact H.
Defined.

Lemma idle_buffer_untouched_witness :
  slbfgs quad_solved = slbfgs_default SLB.
Proof.
  apply (proj2 (@idle_buffer_untouched double LB SLB defaults (world_of false) quad []
                  tolerance 50 [1] [] [] [] quad_solved quad_solved_eq)).
  reflexivity.
Defined.

Lemma psi_loop_vectorised_witness :
  calc_ψ_ŷ_indexed root [1] [0.5] [7] = Some (calc_ψ_ŷ root [1] [0.5] [7]).
Proof.
  apply (proj2 (@psi_loop_vectorised double root [1] [0.5] [7])); reflexivity.
Defined.

Lemma gradient_paths_agree_witness :
  calc_grad_ψ root [1] [0.5] [7] = snd (calc_ψ_grad_ψ root [1] [0.5] [7])
  /\ calc_grad_ψ root [1] [0.5] [7]
     = calc_grad_ψ_from_ŷ root [1] (snd (calc_ψ_ŷ root [1] [0.5] [7])).
Proof.
  apply (@gradient_paths_agree double root [1] [0.5] [7]); reflexivity.
Defined.

End BookkeepingExamples.

Module NaNExamples.
Import Binary64 Runs NaNRuns.
Local Open Scope float_scope.

Lemma quad_nan_step_eq :
  accept_step defaults quad [] 50 1 quad_nan = Some quad_nan_step.
Proof. vm_compute. reflexivity. Qed.

Lemma nan_step_is_discarded_witness :
  it_x (cur quad_nan_step) = it_x_hat (cur quad_nan)
  /\ lbfgs_failures (s quad_nan_step) = S (lbfgs_failures (s quad_nan))
  /\ linesearch_failures (s quad_nan_step) = S (linesearch_failures (s quad_nan)).
Proof.
  apply (@nan_step_is_discarded double LB SLB defaults quad [] 50 1 quad_nan
           quad_nan_step).
  - discriminate.
  - vm_compute. reflexivity.
  - vm_compute. reflexivity.
  - vm_compute. reflexivity.
  - exact quad_nan_step_eq.
Defined.

End NaNExamples.

Module SquareExamples.
Import Rational RationalLaws ExactRuns SquareRuns.

Lemma two_pow_52 : IZR (Z.pos (2 ^ 52)) = (2 ^ 52)%R.
Proof. rewrite pow_IZR. f_equal. Qed.

Lemma machine_epsilon_53 : (2 <= 2 ^ 53 * toR exact r_epsilon)%R.
Proof.
  change (toR exact r_epsilon) with (Q2R (1 # 2 ^ 52)).
  unfold Q2R. cbn [Qnum Qden]. rewrite two_pow_52.
  change (2 ^ 53)%R with (2 * 2 ^ 52)%R.
  assert (0 < 2 ^ 52)%R by (apply pow_lt; lra).
  rewrite Rmult_1_l, Rmult_assoc, Rinv_r; lra.
Qed.

Lemma τ_min_53 : (/ 2 ^ 53 < toR exact (τ_min defaults))%R.
Proof.
  change (toR exact (τ_min defaults)) with (Q2R (1 # 256)).
  unfold Q2R. cbn [Qnum Qden].
  replace (IZR (Z.pos 256)) with (2 ^ 8)%R by (rewrite pow_IZR; f_equal).
  rewrite Rmult_1_l. apply Rinv_lt_contravar.
  - apply Rmult_lt_0_compat; apply pow_lt; lra.
  - apply Rlt_pow; [lra|lia].
Qed.

Lemma squares_bound (x : list Q) :
  quadratic_upper_bound exact squares [] [] 2 x.
Proof. apply sum_of_squares_bound. Qed.

Lemma squares_run :
  initialize LB SLB defaults quiet squares [] [3 # 4] [] [] [] = Continue squares_entry
  /\ ready exact [] squares_entry
  /\ solve LB SLB defaults quiet squares [] tolerance 53 [3 # 4] [] [] []
     = Returned squares_solved.
Proof.
  destruct (@solve_returns_aux _ exact LB SLB defaults quiet squares [] tolerance
              2 53 53 [3 # 4] [] [] [] squares_bound machine_epsilon_53 τ_min_53
              ltac:(lia)) as (st0 & r & H0 & Hr & Hs).
  unfold squares_entry, squares_solved. rewrite H0, Hs. auto.
Qed.

Lemma squares_step0_eq :
  accept_step defaults squares [] 53 0 squares_entry = Some squares_step0.
Proof.
  destruct squares_run as (_ & Hr & _).
  destruct (@accept_step_returns _ exact LB SLB defaults squares [] [] 2 53 53 0
              squares_entry squares_bound machine_epsilon_53 τ_min_53 ltac:(lia) Hr)
    as (st' & H).
  unfold squares_step0. rewrite H. reflexivity.
Qed.

Lemma squares_ordered : ordered_box exact (p_C squares).
Proof.
  repeat constructor. cbn. unfold Q2R. cbn. lra.
Qed.

Lemma solve_returns_witness :
  exists r : State LB SLB,
    solve LB SLB defaults quiet squares [] tolerance 53 [3 # 4] [] [] []
    = Returned r.
Proof.
  exact (@solve_returns _ exact LB SLB defaults quiet squares [] tolerance
           2 53 53 [3 # 4] [] [] [] squares_bound machine_epsilon_53 τ_min_53
           ltac:(lia)).
Defined.

Lemma capped_returned_eq :
  solve LB SLB no_iterations quiet capped [1] tolerance 50
    [3 # 4] [7] [1 # 2] [7] = Returned capped_returned.
Proof.
  unfold capped_returned.
  destruct (solve LB SLB no_iterations quiet capped [1] tolerance 50
              [3 # 4] [7] [1 # 2] [7]) as [r| |] eqn:E; [reflexivity| |];
    apply (f_equal returned) in E; vm_compute in E; discriminate E.
Defined.

Lemma capped_ordered :
  ordered_box exact (p_C capped) /\ ordered_box exact (p_D capped).
Proof.
  split; repeat constructor; cbn; unfold Q2R; cbn; lra.
Defined.

Lemma capped_sizes : constraint_sizes capped [1 # 2] [1].
Proof. repeat split. Defined.

Lemma unit_weight : Forall (fun σ : Q => toR exact σ <> 0%R) [1].
Proof. repeat constructor. cbn. unfold Q2R. cbn. lra. Defined.

Lemma returned_point_feasible_witness :
  in_box exact (lowerbound (p_C capped)) (upperbound (p_C capped))
    (out_x (caller capped_returned))
  /\ in_box exact (lowerbound (p_D capped)) (upperbound (p_D capped))
       (out_z (caller capped_returned))
  /\ multiplier_update exact [1 # 2] [1] (out_err_z (caller capped_returned))
       (out_y (caller capped_returned)).
Proof.
  destruct (@returned_point_feasible _ exact LB SLB no_iterations quiet capped
              [1] tolerance 50 [3 # 4] [7] [1 # 2] [7] capped_returned
              (proj1 capped_ordered) (proj2 capped_ordered) unit_weight
              capped_returned_eq) as (_ & Hx & _ & Hz & _ & Hy).
  split; [exact Hx|]. split; [exact Hz|exact (Hy capped_sizes)].
Defined.

Lemma failed_line_search_takes_prox_step_witness :
  it_x (cur squares_step0) = it_x_hat (cur squares_entry).
Proof.
  apply (@failed_line_search_takes_prox_step _ exact LB SLB defaults squares []
           53 0 squares_entry squares_step0 squares_step0_eq).
  right. split; [reflexivity|].
  change (toR exact (τ_min defaults)) with (Q2R (1 # 256)).
  unfold Q2R. cbn. lra.
Defined.

Lemma squares_iterate_consistent : consistent squares [] [] squares_iterate.
Proof. apply evaluate_candidate_consistent. Qed.

Lemma squares_iterate_scalars :
  it_L squares_iterate = 1%Q /\ it_γ squares_iterate = 1%Q
  /\ it_x squares_iterate = [(1 # 4)%Q].
Proof.
  unfold squares_iterate, evaluate_candidate.
  destruct (calc_ψ_grad_ψ _ _ _ _) as [ψ g].
  destruct (calc_x_hat _ _ _ _) as [[xh p] b].
  destruct (calc_ψ_ŷ _ _ _ _) as [ψh ŷ]. repeat split.
Qed.

Lemma shrink_loop_terminates_witness :
  exists (it' : iterate) (lb' : lbfgs_t LB),
    qub_loop LB squares [] 1 true [] squares_iterate (lbfgs_default LB)
    = Some (it', lb').
Proof.
  destruct squares_iterate_scalars as (HL & _ & Hx).
  destruct (@shrink_loop_terminates _ exact LB squares [] true [] 2 1 1
              squares_iterate (lbfgs_default LB) squares_iterate_consistent
              (squares_bound _)) as (it' & lb' & H & _).
  - rewrite HL. change (toR exact 1%Q) with (Q2R 1). unfold Q2R. cbn. lra.
  - rewrite HL. change (toR exact 1%Q) with (Q2R 1). unfold Q2R. cbn. lra.
  - lia.
  - exists it', lb'. exact H.
Defined.

Lemma projected_step_descends_witness :
  (toR exact (fbe squares_iterate) <= toR exact (it_ψ squares_iterate))%R.
Proof.
  destruct squares_iterate_scalars as (_ & Hγ & Hx).
  apply (@projected_step_descends _ exact squares [] [] squares_iterate
           squares_iterate_consistent).
  - rewrite Hx. cbn. unfold Q2R. cbn. split; [lra|exact I].
  - rewrite Hγ. change (toR exact 1%Q) with (Q2R 1). unfold Q2R. cbn. lra.
Defined.

Lemma squares_head1_eq :
  iteration defaults quiet squares [] tolerance 53 0 squares_entry
  = Some (Continue squares_head1).
Proof.
  unfold squares_head1.
  destruct (iteration defaults quiet squares [] tolerance 53 0 squares_entry)
    as [[r|st]|] eqn:Ei; [exfalso|reflexivity|exfalso];
    apply (f_equal continues) in Ei; vm_compute in Ei; discriminate Ei.
Qed.

Lemma squares_reach1 :
  reach defaults quiet squares [] tolerance 53 squares_entry 1 squares_head1.
Proof.
  eapply reach_next; [apply reach_entry|exact squares_head1_eq].
Qed.

Lemma squares_factor :
  (0 < toR exact (Lipschitz_Lγ_factor defaults) < 1)%R.
Proof.
  change (toR exact (Lipschitz_Lγ_factor defaults)) with (Q2R (19 # 20)).
  unfold Q2R. cbn. lra.
Qed.

Lemma estimate_bounded_witness :
  (toR exact (it_L (cur squares_head1))
   <= Rmax (toR exact (it_L (cur squares_entry))) (2 * 2))%R.
Proof.
  exact (proj2 (proj1
           (@estimate_bounded _ exact LB SLB defaults quiet squares [] tolerance
              2 [3 # 4] [] [] [] 53 1 squares_entry squares_head1
              squares_bound squares_factor (proj1 squares_run) squares_reach1))).
Defined.

End SquareExamples.

(** ** Elementary operations *)

Module CalculusExamples.
Import casadi casadiR.
Local Open Scope R_scope.

Lemma CommChecker_sound_witness :
  CommChecker OP_MUL = true
  /\ (BinaryChecker OP_MUL = true
      /\ UnaryOperation_fcn
           (Sc := real_scalar (fun x => x) (fun x => x) (fun x _ => x)) OP_MUL
         = None
      /\ exists fcn : R -> R -> R,
          BinaryOperation_fcn
            (Sc := real_scalar (fun x => x) (fun x => x) (fun x _ => x)) OP_MUL
          = Some fcn
          /\ forall x y : R, fcn x y = fcn y x).
Proof.
  split; [reflexivity|].
  apply (@CommChecker_sound (fun x => x) (fun x => x) (fun x _ => x) OP_MUL).
  reflexivity.
Defined.

Lemma NonnegativeChecker_sound_witness :
  NonnegativeChecker OP_SQRT = true
  /\ (OP_SQRT = OP_SQRT -> 0 <= 4)
  /\ exists fcn : R -> R -> R,
      BinaryOperation_fcn
        (Sc := real_scalar (fun x => x) (fun x => x) (fun x _ => x)) OP_SQRT
      = Some fcn
      /\ 0 <= fcn 4 1.
Proof.
  split; [reflexivity|]. split; [intros _; lra|].
  apply (@NonnegativeChecker_sound (fun x => x) (fun x => x) (fun x _ => x)
           OP_SQRT 4 1); [reflexivity|intros _; lra].
Defined.

Lemma vector_form_layout_witness :
  DerBinaryOpertion_derf
    (Sc := real_scalar (fun x => x) (fun x => x) (fun x _ => x)) OP_MUL
  = Some (fun x y => (x * y, (y, x)))
  /\ (2 <= length [2; 3; 7])%nat
  /\ (2 <= length [5; 4])%nat
  /\ exists f d : list R,
    BinaryOperationVV_fcn
      (Sc := real_scalar (fun x => x) (fun x => x) (fun x _ => x))
      OP_MUL [2; 3; 7] [5; 4] 2 = Some f
    /\ BinaryOperationVV_der
         (Sc := real_scalar (fun x => x) (fun x => x) (fun x _ => x))
         OP_MUL [2; 3; 7] [5; 4] f 2 = Some d
    /\ length f = 2%nat
    /\ length d = (2 * 2)%nat
    /\ forall (i : nat) (xi yi : R),
        (i < 2)%nat ->
        nth_error [2; 3; 7] i = Some xi ->
        nth_error [5; 4] i = Some yi ->
        nth_error f i = Some (fst ((fun x y => (x * y, (y, x))) xi yi))
        /\ nth_error d (2 * i)
           = Some (fst (snd ((fun x y => (x * y, (y, x))) xi yi)))
        /\ nth_error d (2 * i + 1)
           = Some (snd (snd ((fun x y => (x * y, (y, x))) xi yi))).
Proof.
  split; [reflexivity|]. split; [cbn; lia|]. split; [cbn; lia|].
  apply (@vector_form_layout
           (real_scalar (fun x => x) (fun x => x) (fun x _ => x)) OP_MUL
           (fun x y => (x * y, (y, x))) [2; 3; 7] [5; 4] 2);
    [reflexivity|cbn; lia|cbn; lia].
Defined.

End CalculusExamples.
